(** * Volumetric ray radiance: [compute_radiance]

    A shallow embedding of
    [tensorflow_graphics/rendering/volumetric/ray_radiance.py].

    Modelling choices.
    - A tensor is a static shape together with an indexing function; the
      values read outside the shape are irrelevant.
    - The kernel is embedded twice. In [compute_radiance] floating point
      numbers are idealised as real numbers: rounding, [inf] and [nan] are
      outside that model, and a statement about it is a statement about
      exact real arithmetic on finite entries. In
      [Float64.compute_radiance] the entries are binary64 numbers,
      infinities and nan, and every operation rounds: statements that turn
      on saturation, on [inf] or on [nan] are made there.
    - The TensorFlow primitives used by the source ([expand_dims], [split],
      [exp], [squeeze], [cumprod], [reduce_sum], broadcasting arithmetic)
      are modelled with their documented semantics and can fail with
      [InvalidArgument]; the shape utilities can fail with [ShapeError]. *)

From Stdlib Require Import Reals ZArith List Lia Lra Bool Arith.
Import ListNotations.

Open Scope R_scope.

(** ** Errors *)

Inductive error : Type :=
| ShapeError
| InvalidArgument.

Inductive result (A : Type) : Type :=
| Ok (a : A)
| Err (e : error).

Arguments Ok {A} a.
Arguments Err {A} e.

Definition bind {A B : Type} (r : result A) (k : A -> result B) : result B :=
  match r with
  | Ok a => k a
  | Err e => Err e
  end.

Notation "x <- r ;; k" := (bind r (fun x => k))
  (at level 61, r at next level, right associativity).
Notation "r ;;; k" := (bind r (fun _ => k))
  (at level 61, right associativity).

(** ** Tensors *)

Record Tensor : Type := mkTensor {
  shape : list nat;
  tget : list nat -> R
}.

Definition rank (t : Tensor) : nat := length (shape t).

Definition valid_index (s idx : list nat) : Prop := Forall2 lt idx s.

(** Two tensors are the same value when they have the same shape and agree
    on every index inside it. *)
Definition tensor_eq (t u : Tensor) : Prop :=
  shape t = shape u /\
  forall idx, valid_index (shape t) idx -> tget t idx = tget u idx.

(** A Python scalar operand is a rank 0 tensor. *)
Definition scalar (c : R) : Tensor := mkTensor [] (fun _ => c).

(** Position of a possibly negative axis in a tensor of rank [r]. *)
Definition norm_axis (r : nat) (axis : Z) : option nat :=
  let k := (if axis <? 0 then Z.of_nat r + axis else axis)%Z in
  if ((0 <=? k) && (k <? Z.of_nat r))%Z then Some (Z.to_nat k) else None.

Definition insert_at (k j : nat) (l : list nat) : list nat :=
  firstn k l ++ j :: skipn k l.

Definition remove_at (k : nat) (l : list nat) : list nat :=
  firstn k l ++ skipn (S k) l.

Definition set_at (k j : nat) (l : list nat) : list nat :=
  firstn k l ++ j :: skipn (S k) l.

Fixpoint sum_upto (n : nat) (f : nat -> R) : R :=
  match n with
  | O => 0
  | S m => sum_upto m f + f m
  end.

Fixpoint prod_upto (n : nat) (f : nat -> R) : R :=
  match n with
  | O => 1
  | S m => prod_upto m f * f m
  end.

(** *** Broadcasting (NumPy rules: shapes are aligned on their last axis) *)

Definition broadcast_dim (d1 d2 : nat) : option nat :=
  if (d1 =? d2)%nat then Some d1
  else if (d1 =? 1)%nat then Some d2
  else if (d2 =? 1)%nat then Some d1
  else None.

Fixpoint broadcast_rev (s1 s2 : list nat) : option (list nat) :=
  match s1, s2 with
  | [], s => Some s
  | s, [] => Some s
  | d1 :: r1, d2 :: r2 =>
      match broadcast_dim d1 d2, broadcast_rev r1 r2 with
      | Some d, Some r => Some (d :: r)
      | _, _ => None
      end
  end.

Definition broadcast_shape (s1 s2 : list nat) : option (list nat) :=
  option_map (@rev nat) (broadcast_rev (rev s1) (rev s2)).

Fixpoint bcast_index_rev (s idx : list nat) : list nat :=
  match s, idx with
  | d :: s', i :: idx' =>
      (if (d =? 1)%nat then O else i) :: bcast_index_rev s' idx'
  | _, _ => []
  end.

(** The index read in an operand of shape [s] for the index [idx] of the
    broadcast result. *)
Definition bcast_index (s idx : list nat) : list nat :=
  rev (bcast_index_rev (rev s) (rev idx)).

Definition tmap (f : R -> R) (t : Tensor) : Tensor :=
  mkTensor (shape t) (fun idx => f (tget t idx)).

Definition tbinop (f : R -> R -> R) (a b : Tensor) : result Tensor :=
  match broadcast_shape (shape a) (shape b) with
  | Some s =>
      Ok (mkTensor s (fun idx =>
            f (tget a (bcast_index (shape a) idx))
              (tget b (bcast_index (shape b) idx))))
  | None => Err InvalidArgument
  end.

(** *** The TensorFlow primitives used by the source *)

Definition tf_negative (t : Tensor) : Tensor := tmap Ropp t.
Definition tf_exp (t : Tensor) : Tensor := tmap exp t.
Definition tf_multiply : Tensor -> Tensor -> result Tensor := tbinop Rmult.
Definition tf_subtract : Tensor -> Tensor -> result Tensor := tbinop Rminus.
Definition tf_add : Tensor -> Tensor -> result Tensor := tbinop Rplus.

(** [tf.expand_dims(t, axis)]: a negative axis counts from the end of the
    result shape. *)
Definition tf_expand_dims (t : Tensor) (axis : Z) : result Tensor :=
  match norm_axis (S (rank t)) axis with
  | Some k =>
      Ok (mkTensor (insert_at k 1%nat (shape t))
                   (fun idx => tget t (remove_at k idx)))
  | None => Err InvalidArgument
  end.

(** [tf.squeeze(t, axis)]: the axis must have size 1. *)
Definition tf_squeeze (t : Tensor) (axis : Z) : result Tensor :=
  match norm_axis (rank t) axis with
  | Some k =>
      if (nth k (shape t) O =? 1)%nat
      then Ok (mkTensor (remove_at k (shape t))
                        (fun idx => tget t (insert_at k O idx)))
      else Err InvalidArgument
  | None => Err InvalidArgument
  end.

(** The piece of size [size] starting at offset [off] along axis [k]. *)
Definition slice_at (k off size : nat) (t : Tensor) : Tensor :=
  mkTensor (set_at k size (shape t))
           (fun idx => tget t (set_at k (nth k idx O + off) idx)).

Fixpoint split_pieces (k off : nat) (sizes : list nat) (t : Tensor)
  : list Tensor :=
  match sizes with
  | [] => []
  | n :: rest => slice_at k off n t :: split_pieces k (off + n) rest t
  end.

(** [tf.split(t, sizes, axis)]: the sizes must add up to the size of the
    axis. *)
Definition tf_split (t : Tensor) (sizes : list nat) (axis : Z)
  : result (list Tensor) :=
  match norm_axis (rank t) axis with
  | Some k =>
      if (list_sum sizes =? nth k (shape t) O)%nat
      then Ok (split_pieces k O sizes t)
      else Err InvalidArgument
  | None => Err InvalidArgument
  end.

(** [tf.math.cumprod(t, axis, exclusive=True)]. *)
Definition tf_cumprod_exclusive (t : Tensor) (axis : Z) : result Tensor :=
  match norm_axis (rank t) axis with
  | Some k =>
      Ok (mkTensor (shape t)
            (fun idx =>
               prod_upto (nth k idx O) (fun j => tget t (set_at k j idx))))
  | None => Err InvalidArgument
  end.

(** [tf.reduce_sum(t, axis)]. *)
Definition tf_reduce_sum (t : Tensor) (axis : Z) : result Tensor :=
  match norm_axis (rank t) axis with
  | Some k =>
      Ok (mkTensor (remove_at k (shape t))
            (fun idx =>
               sum_upto (nth k (shape t) O)
                        (fun j => tget t (insert_at k j idx))))
  | None => Err InvalidArgument
  end.

(** ** Shape utilities ([tensorflow_graphics.util.shape]) *)

(** Modelled from the spec: [shape.check_static] with [has_dim_equals] is
    not part of the sources at hand; the axis must exist and have exactly
    the given size, and the failure is a ShapeError. *)
Definition check_static_has_dim_equals (t : Tensor) (axis : Z) (value : nat)
  : result unit :=
  match norm_axis (rank t) axis with
  | Some k => if (nth k (shape t) O =? value)%nat then Ok tt else Err ShapeError
  | None => Err ShapeError
  end.

(** Modelled from the spec: [shape.check_static] with
    [has_rank_greater_than] is not part of the sources at hand; the rank
    must exceed the given bound, and the failure is a ShapeError. *)
Definition check_static_has_rank_greater_than (t : Tensor) (r : nat)
  : result unit :=
  if (r <? rank t)%nat then Ok tt else Err ShapeError.

(** Modelled from the spec: the batch axes compared by
    [shape.compare_batch_dimensions], which is not part of the sources at
    hand: the axes [0 .. last_axis] of a shape, [last_axis] possibly
    negative; with [last_axis = -3] on the samples and on the distances
    with their trailing unit axis, these are all axes except the sample
    axis and the channel axis. *)
Definition batch_shape (s : list nat) (last_axis : Z) : list nat :=
  let last := (if last_axis <? 0 then Z.of_nat (length s) + last_axis
               else last_axis)%Z in
  firstn (Z.to_nat (last + 1)) s.

(** Modelled from the spec: [shape.compare_batch_dimensions] with
    [broadcast_compatible=True] is not part of the sources at hand; the
    batch axes (all axes up to [last_axes]) of the two tensors must be
    broadcast compatible, and the failure is a ShapeError. *)
Definition compare_batch_dimensions (t u : Tensor) (last_axes : Z)
  : result unit :=
  match broadcast_shape (batch_shape (shape t) last_axes)
                        (batch_shape (shape u) last_axes) with
  | Some _ => Ok tt
  | None => Err ShapeError
  end.

(** Modelled from the spec: [shape.compare_dimensions] is not part of the
    sources at hand; the two tensors must have exactly the same size on the
    given axis, and the failure is a ShapeError. *)
Definition compare_dimensions (t u : Tensor) (axes : Z) : result unit :=
  match norm_axis (rank t) axes, norm_axis (rank u) axes with
  | Some k, Some l =>
      if (nth k (shape t) O =? nth l (shape u) O)%nat
      then Ok tt else Err ShapeError
  | _, _ => Err ShapeError
  end.

(** ** The compositing kernel *)

(** The stabilising constant of the cumulative product. *)
Definition epsilon : R := 1e-10.

Definition unpack2 (l : list Tensor) : result (Tensor * Tensor) :=
  match l with
  | [a; b] => Ok (a, b)
  | _ => Err InvalidArgument
  end.

(** [compute_radiance(rgba_values, distances)], statement by statement. *)
Definition compute_radiance (rgba_values distances : Tensor)
  : result (Tensor * Tensor * Tensor) :=
  distances <- tf_expand_dims distances (-1) ;;
  check_static_has_dim_equals rgba_values (-1) 4 ;;;
  check_static_has_rank_greater_than rgba_values 1 ;;;
  check_static_has_rank_greater_than distances 1 ;;;
  compare_batch_dimensions rgba_values distances (-3) ;;;
  compare_dimensions rgba_values distances (-2) ;;;
  pieces <- tf_split rgba_values [3; 1]%nat (-1) ;;
  pr <- unpack2 pieces ;;
  let rgb := fst pr in
  let sigma_a := snd pr in
  prod <- tf_multiply (tf_negative sigma_a) distances ;;
  alpha <- tf_subtract (scalar 1) (tf_exp prod) ;;
  alpha <- tf_squeeze alpha (-1) ;;
  one_minus_alpha <- tf_subtract (scalar 1) alpha ;;
  factors <- tf_add one_minus_alpha (scalar epsilon) ;;
  transmittance <- tf_cumprod_exclusive factors (-1) ;;
  weights <- tf_multiply alpha transmittance ;;
  weights_e <- tf_expand_dims weights (-1) ;;
  weighted <- tf_multiply weights_e rgb ;;
  rgb_map <- tf_reduce_sum weighted (-2) ;;
  acc_map <- tf_reduce_sum weights (-1) ;;
  acc_map_e <- tf_expand_dims acc_map (-1) ;;
  Ok (rgb_map, acc_map_e, weights).

(** ** The compositing formulas of the specification, per ray

    A ray is given by its per-sample density [sigma], spacing [dist] and
    colour [rgb], all indexed by the sample number. *)

Definition alpha_of (sigma dist : nat -> R) (i : nat) : R :=
  1 - exp (- sigma i * dist i).

Definition transmittance_of (alpha : nat -> R) (i : nat) : R :=
  prod_upto i (fun j => 1 - alpha j + epsilon).

Definition weight_of (alpha : nat -> R) (i : nat) : R :=
  alpha i * transmittance_of alpha i.

Definition opacity_of (alpha : nat -> R) (n : nat) : R :=
  sum_upto n (weight_of alpha).

Definition color_of (alpha : nat -> R) (rgb : nat -> R) (n : nat) : R :=
  sum_upto n (fun i => weight_of alpha i * rgb i).

(** ** The rays seen by one output position

    For the batch position [c] of the output, the samples and distances
    are read at the positions broadcasting assigns to them. *)

Definition ray_channel (samples : Tensor) (A c : list nat) (ch : nat)
  : nat -> R :=
  fun i => tget samples (bcast_index A c ++ [i; ch]).

Definition ray_sigma (samples : Tensor) (A c : list nat) : nat -> R :=
  ray_channel samples A c 3.

Definition ray_dist (distances : Tensor) (B c : list nat) : nat -> R :=
  fun i => tget distances (bcast_index B c ++ [i]).

Definition ray_alpha (samples distances : Tensor) (A B c : list nat)
  : nat -> R :=
  alpha_of (ray_sigma samples A c) (ray_dist distances B c).

(** What a successful call returns for inputs of batch shapes [A] and [B]
    with [N] samples per ray. *)
Definition radiance_output (samples distances : Tensor) (A B C : list nat)
    (N : nat) (out : Tensor * Tensor * Tensor) : Prop :=
  let '(color, opacity, weights) := out in
  shape color = C ++ [3%nat] /\
  shape opacity = C ++ [1%nat] /\
  shape weights = C ++ [N] /\
  (forall c i, valid_index C c -> (i < N)%nat ->
     tget weights (c ++ [i]) =
     weight_of (ray_alpha samples distances A B c) i) /\
  (forall c, valid_index C c ->
     tget opacity (c ++ [O]) =
     opacity_of (ray_alpha samples distances A B c) N) /\
  (forall c ch, valid_index C c -> (ch < 3)%nat ->
     tget color (c ++ [ch]) =
     color_of (ray_alpha samples distances A B c)
              (ray_channel samples A c ch) N).

(** ** Accepted and rejected shapes, in the words of the specification *)

(** The shapes the kernel accepts: [A ++ [N; 4]] against [B ++ [N]] with
    broadcast compatible batch shapes [A] and [B]. *)
Definition well_shaped (ss sd A B C : list nat) (N : nat) : Prop :=
  ss = A ++ [N; 4%nat] /\ sd = B ++ [N] /\ broadcast_shape A B = Some C.

(** Batch axes: every axis except the sample axis and the channel axis. *)
Definition samples_batch_dims (ss : list nat) : list nat :=
  removelast (removelast ss).

Definition distances_batch_dims (sd : list nat) : list nat :=
  removelast sd.

(** Some batch axis, counted from the innermost one, has sizes that are
    neither equal nor 1 on one side. *)
Definition batch_axis_mismatch (bs bd : list nat) : Prop :=
  exists k d1 d2,
    nth_error (rev bs) k = Some d1 /\ nth_error (rev bd) k = Some d2 /\
    d1 <> d2 /\ d1 <> 1%nat /\ d2 <> 1%nat.

(** The five ways of violating the preconditions, for samples of shape
    [ss] and distances of shape [sd]. *)
Inductive shape_violation (ss sd : list nat) : Prop :=
| bad_channel_axis : last ss O <> 4%nat -> shape_violation ss sd
| bad_samples_rank : ~ (1 < length ss)%nat -> shape_violation ss sd
| bad_distances_rank :
    ~ (1 < length (sd ++ [1%nat]))%nat -> shape_violation ss sd
| bad_batch_axis :
    batch_axis_mismatch (samples_batch_dims ss) (distances_batch_dims sd) ->
    shape_violation ss sd
| bad_sample_count :
    last (removelast ss) O <> last sd O -> shape_violation ss sd.

(** ** Properties of inputs and outputs *)

Definition zero_density (samples : Tensor) (A : list nat) (N : nat) : Prop :=
  forall a i, valid_index A a -> (i < N)%nat ->
    tget samples (a ++ [i; 3%nat]) = 0.



Definition all_zero (t : Tensor) : Prop :=
  forall idx, valid_index (shape t) idx -> tget t idx = 0.



(** ** Permuting the samples of a ray *)






(** ** Concrete tensors *)

(** A rank 1 tensor from the list of its entries. *)
Definition tensor1 (l : list R) : Tensor :=
  mkTensor [length l]
    (fun idx => match idx with
                | [i] => nth i l 0
                | _ => 0
                end).

(** A rank 2 tensor with [cols] columns from the list of its rows. *)
Definition tensor2 (cols : nat) (rows : list (list R)) : Tensor :=
  mkTensor [length rows; cols]
    (fun idx => match idx with
                | [i; j] => nth j (nth i rows []) 0
                | _ => 0
                end).

(** The ray of the end-to-end example of the specification. *)
Definition example_samples : Tensor :=
  tensor2 4 [[1; 0; 0; 1]; [0; 1; 0; 1]].

Definition example_distances : Tensor := tensor1 [1; 1].

(** Samples of shape [[4; 5; 3]]: the last axis has size 3, not 4. *)
Definition three_channel_samples : Tensor :=
  mkTensor [4%nat; 5%nat; 3%nat] (fun _ => 1).

Definition some_distances : Tensor :=
  mkTensor [4%nat; 5%nat] (fun _ => 1).

(** Two coloured samples of density zero. *)
Definition transparent_samples : Tensor :=
  tensor2 4 [[1; 0; 0; 0]; [0; 1; 0; 0]].

Definition far_distances : Tensor := tensor1 [5; 7].







(** Samples with five rays of two samples, and distances given once for
    all rays, or for two rays. *)
Definition five_rays : Tensor := mkTensor [5%nat; 2%nat; 4%nat] (fun _ => 1).
Definition shared_distances : Tensor := mkTensor [1%nat; 2%nat] (fun _ => 1).
Definition two_ray_distances : Tensor := mkTensor [2%nat; 2%nat] (fun _ => 1).


(** ** Further inputs: slices of a ray, degenerate rays *)

Definition zero_distances (distances : Tensor) (B : list nat) (N : nat)
  : Prop :=
  forall b i, valid_index B b -> (i < N)%nat ->
    tget distances (b ++ [i]) = 0.



(** Three rays of distances against the single ray of [example_samples]. *)
Definition three_ray_distances : Tensor :=
  mkTensor [3%nat; 2%nat] (fun _ => 1).

(** A ray without samples. *)
Definition empty_samples : Tensor := tensor2 4 [].
Definition empty_distances : Tensor := tensor1 [].

(** A ray of one red sample of density 2 over a distance of 3. *)
Definition lone_sample : Tensor := tensor2 4 [[1; 0; 0; 2]].
Definition lone_distance : Tensor := tensor1 [3].

Definition no_distances : Tensor := tensor1 [0; 0].

(** The example ray with other colours, twice the densities and half the
    distances. *)
Definition rescaled_samples : Tensor :=
  tensor2 4 [[0; 0; 1; 2]; [1; 1; 0; 2]].
Definition halved_distances : Tensor := tensor1 [0.5; 0.5].

(** The example ray with another second sample. *)
Definition other_tail_samples : Tensor :=
  tensor2 4 [[1; 0; 0; 1]; [0; 0; 1; 7]].
Definition other_tail_distances : Tensor := tensor1 [1; 4].

(** ** The kernel in binary64 arithmetic

    The same source on tensors of dtype float64. A value is a finite real
    or one of the special values of IEEE 754. The result of an arithmetic
    operation on finite values is the exact result rounded to the nearest
    binary64 number, ties to even: 53 significant bits from [2 ^ -1022]
    on, multiples of [2 ^ -1074] below, an infinity from [2 ^ 1024] on;
    [exp] is taken to be correctly rounded as well. The two zeros are not
    told apart. *)

Module Float64.

Inductive fval : Type :=
| Finite (r : R)
| PosInf
| NegInf
| NaN.

Definition pow2 (e : Z) : R := powerRZ 2 e.

(** The binary exponent of a non-zero real: [floor (log2 |x|)]. *)
Definition mag (x : R) : Z := Int_part (ln (Rabs x) / ln 2).

(** The exponent of the binade [x] is rounded in: that of [x], or that of
    the subnormal numbers when [x] is smaller. *)
Definition cexp (x : R) : Z := Z.max (mag x) (-1022).

(** The nearest integer, ties to even. *)
Definition nearest_even (r : R) : Z :=
  let f := Int_part r in
  if Rlt_dec (r - IZR f) (1 / 2) then f
  else if Rlt_dec (1 / 2) (r - IZR f) then (f + 1)%Z
  else if Z.even f then f else (f + 1)%Z.

(** Rounding to the binary64 grid, the exponent range being unbounded
    above. *)
Definition round64 (x : R) : R :=
  if Req_EM_T x 0 then 0
  else IZR (nearest_even (x * pow2 (52 - cexp x))) * pow2 (cexp x - 52).

(** The binary64 value of an exact result. *)
Definition of_real (r : R) : fval :=
  let y := round64 r in
  if Rle_dec (pow2 1024) y then PosInf
  else if Rle_dec y (- pow2 1024) then NegInf
  else Finite y.

Definition inf_of (positive : bool) : fval :=
  if positive then PosInf else NegInf.

(** A finite value times an infinity. *)
Definition scale_inf (a : R) (positive : bool) : fval :=
  if Req_EM_T a 0 then NaN
  else if Rlt_dec 0 a then inf_of positive
  else inf_of (negb positive).

Definition fneg (x : fval) : fval :=
  match x with
  | Finite r => Finite (- r)
  | PosInf => NegInf
  | NegInf => PosInf
  | NaN => NaN
  end.

Definition fmul (x y : fval) : fval :=
  match x, y with
  | NaN, _ => NaN
  | _, NaN => NaN
  | Finite a, Finite b => of_real (a * b)
  | Finite a, PosInf => scale_inf a true
  | PosInf, Finite a => scale_inf a true
  | Finite a, NegInf => scale_inf a false
  | NegInf, Finite a => scale_inf a false
  | PosInf, PosInf => PosInf
  | NegInf, NegInf => PosInf
  | PosInf, NegInf => NegInf
  | NegInf, PosInf => NegInf
  end.

Definition fadd (x y : fval) : fval :=
  match x, y with
  | NaN, _ => NaN
  | _, NaN => NaN
  | Finite a, Finite b => of_real (a + b)
  | PosInf, NegInf => NaN
  | NegInf, PosInf => NaN
  | PosInf, _ => PosInf
  | _, PosInf => PosInf
  | NegInf, _ => NegInf
  | _, NegInf => NegInf
  end.

Definition fsub (x y : fval) : fval := fadd x (fneg y).

Definition fexp (x : fval) : fval :=
  match x with
  | Finite r => of_real (exp r)
  | PosInf => PosInf
  | NegInf => Finite 0
  | NaN => NaN
  end.

(** The literal [1e-10] of the source, as a binary64 number. *)
Definition feps : fval := of_real 1e-10.

Fixpoint fsum_upto (n : nat) (f : nat -> fval) : fval :=
  match n with
  | O => Finite 0
  | S m => fadd (fsum_upto m f) (f m)
  end.

Fixpoint fprod_upto (n : nat) (f : nat -> fval) : fval :=
  match n with
  | O => Finite 1
  | S m => fmul (fprod_upto m f) (f m)
  end.

Record Tensor : Type := mkTensor {
  shape : list nat;
  tget : list nat -> fval
}.

Definition rank (t : Tensor) : nat := length (shape t).

Definition scalar (c : fval) : Tensor := mkTensor [] (fun _ => c).

Definition tmap (f : fval -> fval) (t : Tensor) : Tensor :=
  mkTensor (shape t) (fun idx => f (tget t idx)).

Definition tbinop (f : fval -> fval -> fval) (a b : Tensor)
  : result Tensor :=
  match broadcast_shape (shape a) (shape b) with
  | Some s =>
      Ok (mkTensor s (fun idx =>
            f (tget a (bcast_index (shape a) idx))
              (tget b (bcast_index (shape b) idx))))
  | None => Err InvalidArgument
  end.

Definition tf_negative (t : Tensor) : Tensor := tmap fneg t.
Definition tf_exp (t : Tensor) : Tensor := tmap fexp t.
Definition tf_multiply : Tensor -> Tensor -> result Tensor := tbinop fmul.
Definition tf_subtract : Tensor -> Tensor -> result Tensor := tbinop fsub.
Definition tf_add : Tensor -> Tensor -> result Tensor := tbinop fadd.

Definition tf_expand_dims (t : Tensor) (axis : Z) : result Tensor :=
  match norm_axis (S (rank t)) axis with
  | Some k =>
      Ok (mkTensor (insert_at k 1%nat (shape t))
                   (fun idx => tget t (remove_at k idx)))
  | None => Err InvalidArgument
  end.

Definition tf_squeeze (t : Tensor) (axis : Z) : result Tensor :=
  match norm_axis (rank t) axis with
  | Some k =>
      if (nth k (shape t) O =? 1)%nat
      then Ok (mkTensor (remove_at k (shape t))
                        (fun idx => tget t (insert_at k O idx)))
      else Err InvalidArgument
  | None => Err InvalidArgument
  end.

Definition slice_at (k off size : nat) (t : Tensor) : Tensor :=
  mkTensor (set_at k size (shape t))
           (fun idx => tget t (set_at k (nth k idx O + off) idx)).

Fixpoint split_pieces (k off : nat) (sizes : list nat) (t : Tensor)
  : list Tensor :=
  match sizes with
  | [] => []
  | n :: rest => slice_at k off n t :: split_pieces k (off + n) rest t
  end.

Definition tf_split (t : Tensor) (sizes : list nat) (axis : Z)
  : result (list Tensor) :=
  match norm_axis (rank t) axis with
  | Some k =>
      if (list_sum sizes =? nth k (shape t) O)%nat
      then Ok (split_pieces k O sizes t)
      else Err InvalidArgument
  | None => Err InvalidArgument
  end.

Definition tf_cumprod_exclusive (t : Tensor) (axis : Z) : result Tensor :=
  match norm_axis (rank t) axis with
  | Some k =>
      Ok (mkTensor (shape t)
            (fun idx =>
               fprod_upto (nth k idx O) (fun j => tget t (set_at k j idx))))
  | None => Err InvalidArgument
  end.

Definition tf_reduce_sum (t : Tensor) (axis : Z) : result Tensor :=
  match norm_axis (rank t) axis with
  | Some k =>
      Ok (mkTensor (remove_at k (shape t))
            (fun idx =>
               fsum_upto (nth k (shape t) O)
                         (fun j => tget t (insert_at k j idx))))
  | None => Err InvalidArgument
  end.

(** Modelled from the spec: [shape.check_static] with [has_dim_equals],
    not part of the sources at hand, as for the kernel on reals. *)
Definition check_static_has_dim_equals (t : Tensor) (axis : Z) (value : nat)
  : result unit :=
  match norm_axis (rank t) axis with
  | Some k => if (nth k (shape t) O =? value)%nat then Ok tt else Err ShapeError
  | None => Err ShapeError
  end.

(** Modelled from the spec: [shape.check_static] with
    [has_rank_greater_than], not part of the sources at hand, as for the
    kernel on reals. *)
Definition check_static_has_rank_greater_than (t : Tensor) (r : nat)
  : result unit :=
  if (r <? rank t)%nat then Ok tt else Err ShapeError.

(** Modelled from the spec: [shape.compare_batch_dimensions], not part of
    the sources at hand, as for the kernel on reals. *)
Definition compare_batch_dimensions (t u : Tensor) (last_axes : Z)
  : result unit :=
  match broadcast_shape (batch_shape (shape t) last_axes)
                        (batch_shape (shape u) last_axes) with
  | Some _ => Ok tt
  | None => Err ShapeError
  end.

(** Modelled from the spec: [shape.compare_dimensions], not part of the
    sources at hand, as for the kernel on reals. *)
Definition compare_dimensions (t u : Tensor) (axes : Z) : result unit :=
  match norm_axis (rank t) axes, norm_axis (rank u) axes with
  | Some k, Some l =>
      if (nth k (shape t) O =? nth l (shape u) O)%nat
      then Ok tt else Err ShapeError
  | _, _ => Err ShapeError
  end.

Definition unpack2 (l : list Tensor) : result (Tensor * Tensor) :=
  match l with
  | [a; b] => Ok (a, b)
  | _ => Err InvalidArgument
  end.

(** [compute_radiance(rgba_values, distances)] on float64 tensors,
    statement by statement. *)
Definition compute_radiance (rgba_values distances : Tensor)
  : result (Tensor * Tensor * Tensor) :=
  distances <- tf_expand_dims distances (-1) ;;
  check_static_has_dim_equals rgba_values (-1) 4 ;;;
  check_static_has_rank_greater_than rgba_values 1 ;;;
  check_static_has_rank_greater_than distances 1 ;;;
  compare_batch_dimensions rgba_values distances (-3) ;;;
  compare_dimensions rgba_values distances (-2) ;;;
  pieces <- tf_split rgba_values [3; 1]%nat (-1) ;;
  pr <- unpack2 pieces ;;
  let rgb := fst pr in
  let sigma_a := snd pr in
  prod <- tf_multiply (tf_negative sigma_a) distances ;;
  alpha <- tf_subtract (scalar (Finite 1)) (tf_exp prod) ;;
  alpha <- tf_squeeze alpha (-1) ;;
  one_minus_alpha <- tf_subtract (scalar (Finite 1)) alpha ;;
  factors <- tf_add one_minus_alpha (scalar feps) ;;
  transmittance <- tf_cumprod_exclusive factors (-1) ;;
  weights <- tf_multiply alpha transmittance ;;
  weights_e <- tf_expand_dims weights (-1) ;;
  weighted <- tf_multiply weights_e rgb ;;
  rgb_map <- tf_reduce_sum weighted (-2) ;;
  acc_map <- tf_reduce_sum weights (-1) ;;
  acc_map_e <- tf_expand_dims acc_map (-1) ;;
  Ok (rgb_map, acc_map_e, weights).

(** *** The compositing formulas in binary64 arithmetic, per ray *)

Definition alpha_of (sigma dist : nat -> fval) (i : nat) : fval :=
  fsub (Finite 1) (fexp (fmul (fneg (sigma i)) (dist i))).

(** The factor a sample of opacity [a] contributes to the cumulative
    product: [1. - alpha + 1e-10]. *)
Definition factor_of (a : fval) : fval := fadd (fsub (Finite 1) a) feps.

Definition transmittance_of (alpha : nat -> fval) (i : nat) : fval :=
  fprod_upto i (fun j => factor_of (alpha j)).

Definition weight_of (alpha : nat -> fval) (i : nat) : fval :=
  fmul (alpha i) (transmittance_of alpha i).

Definition opacity_of (alpha : nat -> fval) (n : nat) : fval :=
  fsum_upto n (weight_of alpha).

Definition color_of (alpha : nat -> fval) (rgb : nat -> fval) (n : nat)
  : fval :=
  fsum_upto n (fun i => fmul (weight_of alpha i) (rgb i)).

Definition ray_channel (samples : Tensor) (A c : list nat) (ch : nat)
  : nat -> fval :=
  fun i => tget samples (bcast_index A c ++ [i; ch]).

Definition ray_sigma (samples : Tensor) (A c : list nat) : nat -> fval :=
  ray_channel samples A c 3.

Definition ray_dist (distances : Tensor) (B c : list nat) : nat -> fval :=
  fun i => tget distances (bcast_index B c ++ [i]).

Definition ray_alpha (samples distances : Tensor) (A B c : list nat)
  : nat -> fval :=
  alpha_of (ray_sigma samples A c) (ray_dist distances B c).

(** What a successful call returns for inputs of batch shapes [A] and [B]
    with [N] samples per ray. *)
Definition radiance_output (samples distances : Tensor) (A B C : list nat)
    (N : nat) (out : Tensor * Tensor * Tensor) : Prop :=
  let '(color, opacity, weights) := out in
  shape color = C ++ [3%nat] /\
  shape opacity = C ++ [1%nat] /\
  shape weights = C ++ [N] /\
  (forall c i, valid_index C c -> (i < N)%nat ->
     tget weights (c ++ [i]) =
     weight_of (ray_alpha samples distances A B c) i) /\
  (forall c, valid_index C c ->
     tget opacity (c ++ [O]) =
     opacity_of (ray_alpha samples distances A B c) N) /\
  (forall c ch, valid_index C c -> (ch < 3)%nat ->
     tget color (c ++ [ch]) =
     color_of (ray_alpha samples distances A B c)
              (ray_channel samples A c ch) N).

(** *** Properties of binary64 values and inputs *)

Definition is_finite (v : fval) : Prop :=
  match v with
  | Finite _ => True
  | _ => False
  end.

(** At most 1; [-inf] included. *)
Definition at_most_one (v : fval) : Prop :=
  match v with
  | Finite r => r <= 1
  | NegInf => True
  | _ => False
  end.

(** At least the binary64 value of [1e-10]; [+inf] included. *)
Definition at_least_eps (v : fval) : Prop :=
  match v with
  | Finite r => round64 1e-10 <= r
  | PosInf => True
  | _ => False
  end.

Definition zero_density (samples : Tensor) (A : list nat) (N : nat)
  : Prop :=
  forall a i, valid_index A a -> (i < N)%nat ->
    tget samples (a ++ [i; 3%nat]) = Finite 0.

Definition finite_density (samples : Tensor) (A : list nat) (N : nat)
  : Prop :=
  forall a i, valid_index A a -> (i < N)%nat ->
    is_finite (tget samples (a ++ [i; 3%nat])).

Definition finite_distances (distances : Tensor) (B : list nat) (N : nat)
  : Prop :=
  forall b i, valid_index B b -> (i < N)%nat ->
    is_finite (tget distances (b ++ [i])).

Definition finite_colors (samples : Tensor) (A : list nat) (N : nat)
  : Prop :=
  forall a i ch, valid_index A a -> (i < N)%nat -> (ch < 3)%nat ->
    is_finite (tget samples (a ++ [i; ch])).

Definition all_zero (t : Tensor) : Prop :=
  forall idx, valid_index (shape t) idx -> tget t idx = Finite 0.

(** *** Concrete tensors *)

(** A rank 1 tensor from the list of its entries. *)
Definition tensor1 (l : list fval) : Tensor :=
  mkTensor [length l]
    (fun idx => match idx with
                | [i] => nth i l NaN
                | _ => NaN
                end).

(** A rank 2 tensor with [cols] columns from the list of its rows. *)
Definition tensor2 (cols : nat) (rows : list (list fval)) : Tensor :=
  mkTensor [length rows; cols]
    (fun idx => match idx with
                | [i; j] => nth j (nth i rows []) NaN
                | _ => NaN
                end).

(** One black sample of density 0 over an infinite distance. *)
Definition clear_sample : Tensor :=
  tensor2 4 [[Finite 0; Finite 0; Finite 0; Finite 0]].
Definition infinite_distance : Tensor := tensor1 [PosInf].

(** A ray of [n] white samples of density 100, at unit distances. *)
Definition opaque_ray (n : nat) : Tensor :=
  mkTensor [n; 4%nat]
    (fun idx => match idx with
                | [_; 3%nat] => Finite 100
                | _ => Finite 1
                end).
Definition unit_spacing (n : nat) : Tensor :=
  mkTensor [n] (fun _ => Finite 1).

End Float64.

(** ** Proof automation *)

(** One step of the error monad, once the step is known to succeed. *)
Ltac run_step H := rewrite H; cbn [bind].


(** * Lemmas and theorems *)

Lemma epsilon_pos : 0 < epsilon.
Proof. unfold epsilon. lra. Qed.

(** ** Index and axis arithmetic *)

Section IndexLemmas.

Lemma norm_axis_neg (r : nat) (m : positive) :
  norm_axis r (Z.neg m) =
  if (Pos.to_nat m <=? r)%nat then Some (r - Pos.to_nat m)%nat else None.
Proof.
  unfold norm_axis.
  replace (Z.neg m <? 0)%Z with true by (symmetry; apply Z.ltb_lt; lia).
  destruct (Nat.leb_spec (Pos.to_nat m) r) as [Hle | Hgt].
  - replace ((0 <=? Z.of_nat r + Z.neg m) && (Z.of_nat r + Z.neg m <? Z.of_nat r))%Z
      with true.
    + f_equal. lia.
    + symmetry. apply andb_true_iff. split.
      * apply Z.leb_le. lia.
      * apply Z.ltb_lt. lia.
  - replace (0 <=? Z.of_nat r + Z.neg m)%Z with false; [reflexivity |].
    symmetry. apply Z.leb_gt. lia.
Qed.

Lemma norm_axis_last (l : list nat) (x : nat) :
  norm_axis (length (l ++ [x])) (-1) = Some (length l).
Proof.
  rewrite norm_axis_neg, length_app.
  change (Pos.to_nat 1) with 1%nat. cbn [length].
  replace (1 <=? length l + 1)%nat with true
    by (symmetry; apply Nat.leb_le; lia).
  f_equal. lia.
Qed.

Lemma norm_axis_last2 (l : list nat) (x y : nat) :
  norm_axis (length (l ++ [x; y])) (-2) = Some (length l).
Proof.
  rewrite norm_axis_neg, length_app.
  change (Pos.to_nat 2) with 2%nat. cbn [length].
  replace (2 <=? length l + 2)%nat with true
    by (symmetry; apply Nat.leb_le; lia).
  f_equal. lia.
Qed.

Variables (a r : list nat) (k : nat).
Hypothesis Hk : k = length a.

Lemma insert_at_app (j : nat) : insert_at k j (a ++ r) = a ++ j :: r.
Proof.
  unfold insert_at. subst k.
  rewrite firstn_app, skipn_app, firstn_all, skipn_all, Nat.sub_diag.
  simpl. rewrite app_nil_r. reflexivity.
Qed.

Lemma remove_at_app (x : nat) : remove_at k (a ++ x :: r) = a ++ r.
Proof.
  unfold remove_at. subst k.
  rewrite firstn_app, skipn_app, firstn_all, Nat.sub_diag.
  rewrite (skipn_all2 a) by lia.
  replace (S (length a) - length a)%nat with 1%nat by lia.
  simpl. rewrite app_nil_r. reflexivity.
Qed.

Lemma set_at_app (j x : nat) : set_at k j (a ++ x :: r) = a ++ j :: r.
Proof.
  unfold set_at. subst k.
  rewrite firstn_app, skipn_app, firstn_all, Nat.sub_diag.
  rewrite (skipn_all2 a) by lia.
  replace (S (length a) - length a)%nat with 1%nat by lia.
  simpl. rewrite app_nil_r. reflexivity.
Qed.

Lemma nth_at_app (x d : nat) : nth k (a ++ x :: r) d = x.
Proof.
  subst k. rewrite app_nth2 by lia. rewrite Nat.sub_diag. reflexivity.
Qed.

End IndexLemmas.

Lemma sum_upto_ext (n : nat) (f g : nat -> R) :
  (forall j, (j < n)%nat -> f j = g j) -> sum_upto n f = sum_upto n g.
Proof.
  induction n as [| n IH]; intros H; simpl; [reflexivity |].
  rewrite IH by (intros j Hj; apply H; lia).
  rewrite H by lia. reflexivity.
Qed.

Lemma prod_upto_ext (n : nat) (f g : nat -> R) :
  (forall j, (j < n)%nat -> f j = g j) -> prod_upto n f = prod_upto n g.
Proof.
  induction n as [| n IH]; intros H; simpl; [reflexivity |].
  rewrite IH by (intros j Hj; apply H; lia).
  rewrite H by lia. reflexivity.
Qed.

(** ** Broadcasting lemmas *)

Lemma valid_index_rev (s idx : list nat) :
  valid_index s idx -> valid_index (rev s) (rev idx).
Proof.
  unfold valid_index. induction 1 as [| i d idx s Hid _ IH]; simpl.
  - constructor.
  - apply Forall2_app; [exact IH | repeat constructor; exact Hid].
Qed.

Lemma valid_index_app (s1 s2 i1 i2 : list nat) :
  valid_index s1 i1 -> valid_index s2 i2 -> valid_index (s1 ++ s2) (i1 ++ i2).
Proof. unfold valid_index. apply Forall2_app. Qed.

Lemma valid_index_length (s idx : list nat) :
  valid_index s idx -> length idx = length s.
Proof. apply Forall2_length. Qed.

Lemma broadcast_dim_refl (d : nat) : broadcast_dim d d = Some d.
Proof. unfold broadcast_dim. rewrite Nat.eqb_refl. reflexivity. Qed.

Lemma broadcast_dim_absorb (d1 d2 d : nat) :
  broadcast_dim d1 d2 = Some d ->
  broadcast_dim d d1 = Some d /\ broadcast_dim d d2 = Some d.
Proof.
  unfold broadcast_dim.
  destruct (Nat.eqb_spec d1 d2) as [-> | Hne].
  - intros [= ->]. rewrite Nat.eqb_refl. auto.
  - destruct (Nat.eqb_spec d1 1) as [-> | H1].
    + intros [= ->]. rewrite Nat.eqb_refl.
      destruct (Nat.eqb_spec d 1) as [-> | H]; [congruence | auto].
    + destruct (Nat.eqb_spec d2 1) as [-> | H2]; [| discriminate].
      intros [= ->]. rewrite Nat.eqb_refl.
      destruct (Nat.eqb_spec d 1) as [-> | H]; [congruence | auto].
Qed.

Lemma broadcast_rev_nil_r (s : list nat) : broadcast_rev s [] = Some s.
Proof. destruct s; reflexivity. Qed.

Lemma broadcast_rev_refl (s : list nat) : broadcast_rev s s = Some s.
Proof.
  induction s as [| d s IH]; simpl; [reflexivity |].
  rewrite broadcast_dim_refl, IH. reflexivity.
Qed.

Lemma broadcast_rev_absorb (a b c : list nat) :
  broadcast_rev a b = Some c ->
  broadcast_rev c a = Some c /\ broadcast_rev c b = Some c.
Proof.
  revert b c. induction a as [| d1 a IH]; intros b c; simpl.
  - intros [= ->]. split; [apply broadcast_rev_nil_r | apply broadcast_rev_refl].
  - destruct b as [| d2 b].
    + intros [= <-]. split; [apply broadcast_rev_refl | reflexivity].
    + destruct (broadcast_dim d1 d2) as [d |] eqn:Hd; [| discriminate].
      destruct (broadcast_rev a b) as [r |] eqn:Hr; [| discriminate].
      intros [= <-]. simpl.
      destruct (broadcast_dim_absorb _ _ _ Hd) as [-> ->].
      destruct (IH _ _ Hr) as [-> ->]. auto.
Qed.

Lemma broadcast_shape_nil_l (s : list nat) : broadcast_shape [] s = Some s.
Proof. unfold broadcast_shape. simpl. rewrite rev_involutive. reflexivity. Qed.

Lemma broadcast_shape_nil_r (s : list nat) : broadcast_shape s [] = Some s.
Proof.
  unfold broadcast_shape. simpl. rewrite broadcast_rev_nil_r. simpl.
  rewrite rev_involutive. reflexivity.
Qed.

Lemma broadcast_shape_refl (s : list nat) : broadcast_shape s s = Some s.
Proof.
  unfold broadcast_shape. rewrite broadcast_rev_refl. simpl.
  rewrite rev_involutive. reflexivity.
Qed.

Lemma broadcast_shape_absorb (a b c : list nat) :
  broadcast_shape a b = Some c ->
  broadcast_shape c a = Some c /\ broadcast_shape c b = Some c.
Proof.
  unfold broadcast_shape.
  destruct (broadcast_rev (rev a) (rev b)) as [r |] eqn:Hr; [| discriminate].
  simpl. intros [= <-]. rewrite rev_involutive.
  destruct (broadcast_rev_absorb _ _ _ Hr) as [-> ->]. auto.
Qed.

Lemma broadcast_shape_app (a b : list nat) (d1 d2 : nat) :
  broadcast_shape (a ++ [d1]) (b ++ [d2]) =
  match broadcast_dim d1 d2, broadcast_shape a b with
  | Some d, Some c => Some (c ++ [d])
  | _, _ => None
  end.
Proof.
  unfold broadcast_shape. rewrite !rev_app_distr. simpl.
  destruct (broadcast_dim d1 d2); [| reflexivity].
  destruct (broadcast_rev (rev a) (rev b)); reflexivity.
Qed.

Lemma broadcast_shape_length (a b c : list nat) :
  broadcast_shape a b = Some c -> length c = Nat.max (length a) (length b).
Proof.
  unfold broadcast_shape.
  destruct (broadcast_rev (rev a) (rev b)) as [r |] eqn:Hr; [| discriminate].
  simpl. intros [= <-]. rewrite length_rev.
  rewrite <- (length_rev a), <- (length_rev b).
  revert Hr. generalize (rev a) (rev b). clear a b. intros a. revert r.
  induction a as [| d1 a IH]; intros r b; simpl.
  - intros [= ->]. reflexivity.
  - destruct b as [| d2 b]; [intros [= <-]; reflexivity |].
    destruct (broadcast_dim d1 d2); [| discriminate].
    destruct (broadcast_rev a b) as [r' |] eqn:Hr'; [| discriminate].
    intros [= <-]. simpl. f_equal. apply IH. exact Hr'.
Qed.

Lemma bcast_index_nil (idx : list nat) : bcast_index [] idx = [].
Proof. reflexivity. Qed.

Lemma bcast_index_app (s idx : list nat) (d i : nat) :
  bcast_index (s ++ [d]) (idx ++ [i]) =
  bcast_index s idx ++ [if (d =? 1)%nat then O else i].
Proof. unfold bcast_index. rewrite !rev_app_distr. reflexivity. Qed.

Lemma bcast_index_app_lt (s idx : list nat) (d i : nat) :
  (i < d)%nat -> bcast_index (s ++ [d]) (idx ++ [i]) = bcast_index s idx ++ [i].
Proof.
  intros Hi. rewrite bcast_index_app.
  destruct (Nat.eqb_spec d 1) as [-> | _]; [| reflexivity].
  replace i with O by lia. reflexivity.
Qed.

Lemma bcast_index_valid (s idx : list nat) :
  valid_index s idx -> bcast_index s idx = idx.
Proof.
  intros H. apply valid_index_rev in H. unfold bcast_index.
  rewrite <- (rev_involutive idx) at 2. f_equal.
  revert H. generalize (rev s) (rev idx). clear s idx.
  intros s idx H. induction H as [| i d idx s Hid _ IH]; simpl; [reflexivity |].
  rewrite IH. destruct (Nat.eqb_spec d 1) as [-> | _]; [| reflexivity].
  f_equal. lia.
Qed.

Lemma bcast_index_rev_operand (a b c idx : list nat) :
  broadcast_rev a b = Some c -> Forall2 lt idx c ->
  Forall2 lt (bcast_index_rev a idx) a /\ Forall2 lt (bcast_index_rev b idx) b.
Proof.
  intros Hb Hv. revert a b Hb.
  induction Hv as [| i d idx c Hid Hv IH]; intros a b.
  - destruct a as [| d1 a]; simpl.
    + intros [= ->]. split; constructor.
    + destruct b as [| d2 b]; [discriminate |].
      destruct (broadcast_dim d1 d2); [| discriminate].
      destruct (broadcast_rev a b); discriminate.
  - destruct a as [| d1 a]; simpl.
    + intros [= ->]. split; [constructor |]. simpl. constructor.
      * destruct (Nat.eqb_spec d 1); lia.
      * destruct (IH [] c eq_refl) as [_ H]. exact H.
    + destruct b as [| d2 b].
      * intros [= -> ->]. split; [| constructor]. constructor.
        -- destruct (Nat.eqb_spec d 1); lia.
        -- destruct (IH c [] (broadcast_rev_nil_r c)) as [H _]. exact H.
      * destruct (broadcast_dim d1 d2) as [d' |] eqn:Hd; [| discriminate].
        destruct (broadcast_rev a b) as [r |] eqn:Hr; [| discriminate].
        intros [= -> ->].
        destruct (IH _ _ Hr) as [Ha Hb'].
        unfold broadcast_dim in Hd.
        split; constructor; try assumption.
        -- destruct (Nat.eqb_spec d1 1); [lia |].
           destruct (Nat.eqb_spec d1 d2); [congruence |].
           destruct (Nat.eqb_spec d2 1); congruence.
        -- destruct (Nat.eqb_spec d2 1); [lia |].
           destruct (Nat.eqb_spec d1 d2); [congruence |].
           destruct (Nat.eqb_spec d1 1); congruence.
Qed.

Lemma Forall2_lt_rev_inv (s idx : list nat) :
  Forall2 lt (rev idx) (rev s) -> Forall2 lt idx s.
Proof.
  intros H. apply (valid_index_rev (rev s) (rev idx)) in H.
  rewrite !rev_involutive in H. exact H.
Qed.

Lemma bcast_index_operand (a b c idx : list nat) :
  broadcast_shape a b = Some c -> valid_index c idx ->
  valid_index a (bcast_index a idx) /\ valid_index b (bcast_index b idx).
Proof.
  unfold broadcast_shape.
  destruct (broadcast_rev (rev a) (rev b)) as [r |] eqn:Hr; [| discriminate].
  simpl. intros [= <-] Hv. apply valid_index_rev in Hv.
  rewrite rev_involutive in Hv.
  destruct (bcast_index_rev_operand _ _ _ _ Hr Hv) as [Ha Hb].
  unfold bcast_index, valid_index. split; apply Forall2_lt_rev_inv;
    rewrite rev_involutive; assumption.
Qed.

(** ** Specifications of the primitives on the axes the kernel uses *)

Lemma tf_expand_dims_last (t : Tensor) :
  exists u, tf_expand_dims t (-1) = Ok u /\
    shape u = shape t ++ [1%nat] /\
    forall idx x, length idx = rank t -> tget u (idx ++ [x]) = tget t idx.
Proof.
  unfold tf_expand_dims, rank.
  replace (S (length (shape t))) with (length (shape t ++ [1%nat]))
    by (rewrite length_app; simpl; lia).
  rewrite norm_axis_last. eexists. split; [reflexivity |]. simpl. split.
  - rewrite <- (app_nil_r (shape t)) at 2.
    rewrite insert_at_app by reflexivity. reflexivity.
  - intros idx x Hlen. rewrite remove_at_app by (symmetry; exact Hlen).
    rewrite app_nil_r. reflexivity.
Qed.

Lemma tf_squeeze_last (t : Tensor) (X : list nat) :
  shape t = X ++ [1%nat] ->
  exists u, tf_squeeze t (-1) = Ok u /\
    shape u = X /\
    forall idx, length idx = length X -> tget u idx = tget t (idx ++ [O]).
Proof.
  intros Hs. unfold tf_squeeze, rank. rewrite Hs, norm_axis_last.
  rewrite nth_at_app by reflexivity. simpl.
  eexists. split; [reflexivity |]. simpl. split.
  - rewrite remove_at_app by reflexivity. apply app_nil_r.
  - intros idx Hlen. rewrite <- (app_nil_r idx) at 1.
    rewrite insert_at_app by (symmetry; exact Hlen). reflexivity.
Qed.

Lemma tf_split_rgba (t : Tensor) (X : list nat) :
  shape t = X ++ [4%nat] ->
  exists rgb sigma_a, tf_split t [3; 1]%nat (-1) = Ok [rgb; sigma_a] /\
    shape rgb = X ++ [3%nat] /\ shape sigma_a = X ++ [1%nat] /\
    (forall idx c, length idx = length X ->
       tget rgb (idx ++ [c]) = tget t (idx ++ [c])) /\
    (forall idx c, length idx = length X ->
       tget sigma_a (idx ++ [c]) = tget t (idx ++ [(c + 3)%nat])).
Proof.
  intros Hs. unfold tf_split, rank. rewrite Hs, norm_axis_last.
  rewrite nth_at_app by reflexivity. simpl.
  do 2 eexists. split; [reflexivity |]. simpl. rewrite Hs.
  rewrite !set_at_app by reflexivity.
  split; [reflexivity |]. split; [reflexivity |].
  split; intros idx c Hlen;
    rewrite nth_at_app, set_at_app by (symmetry; exact Hlen).
  - rewrite Nat.add_0_r. reflexivity.
  - reflexivity.
Qed.

Lemma tbinop_spec (f : R -> R -> R) (a b : Tensor) (s : list nat) :
  broadcast_shape (shape a) (shape b) = Some s ->
  exists u, tbinop f a b = Ok u /\ shape u = s /\
    forall idx, tget u idx =
      f (tget a (bcast_index (shape a) idx)) (tget b (bcast_index (shape b) idx)).
Proof.
  intros Hb. unfold tbinop. rewrite Hb.
  eexists. split; [reflexivity |]. simpl. auto.
Qed.

Lemma tf_cumprod_exclusive_last (t : Tensor) (X : list nat) (n : nat) :
  shape t = X ++ [n] ->
  exists u, tf_cumprod_exclusive t (-1) = Ok u /\
    shape u = X ++ [n] /\
    forall idx i, length idx = length X ->
      tget u (idx ++ [i]) = prod_upto i (fun j => tget t (idx ++ [j])).
Proof.
  intros Hs. unfold tf_cumprod_exclusive, rank. rewrite Hs, norm_axis_last.
  eexists. split; [reflexivity |]. simpl. split; [reflexivity |].
  intros idx i Hlen. rewrite nth_at_app by (symmetry; exact Hlen).
  apply prod_upto_ext. intros j _.
  rewrite set_at_app by (symmetry; exact Hlen). reflexivity.
Qed.

Lemma tf_reduce_sum_last (t : Tensor) (X : list nat) (n : nat) :
  shape t = X ++ [n] ->
  exists u, tf_reduce_sum t (-1) = Ok u /\
    shape u = X /\
    forall idx, length idx = length X ->
      tget u idx = sum_upto n (fun j => tget t (idx ++ [j])).
Proof.
  intros Hs. unfold tf_reduce_sum, rank. rewrite Hs, norm_axis_last.
  eexists. split; [reflexivity |]. simpl. split.
  - rewrite remove_at_app by reflexivity. apply app_nil_r.
  - intros idx Hlen. rewrite nth_at_app by reflexivity.
    apply sum_upto_ext. intros j _.
    rewrite <- (app_nil_r idx) at 1.
    rewrite insert_at_app by (symmetry; exact Hlen). reflexivity.
Qed.

Lemma tf_reduce_sum_last2 (t : Tensor) (X : list nat) (n m : nat) :
  shape t = X ++ [n; m] ->
  exists u, tf_reduce_sum t (-2) = Ok u /\
    shape u = X ++ [m] /\
    forall idx c, length idx = length X ->
      tget u (idx ++ [c]) = sum_upto n (fun j => tget t (idx ++ [j; c])).
Proof.
  intros Hs. unfold tf_reduce_sum, rank. rewrite Hs, norm_axis_last2.
  eexists. split; [reflexivity |]. simpl. split.
  - rewrite remove_at_app by reflexivity. reflexivity.
  - intros idx c Hlen. rewrite nth_at_app by reflexivity.
    apply sum_upto_ext. intros j _.
    rewrite insert_at_app by (symmetry; exact Hlen). reflexivity.
Qed.

(** ** The shape checks on well-shaped inputs *)

Lemma batch_shape_app2 (A : list nat) (x y : nat) :
  batch_shape (A ++ [x; y]) (-3) = A.
Proof.
  unfold batch_shape. rewrite length_app. cbn [length].
  replace (-3 <? 0)%Z with true by reflexivity.
  replace (Z.to_nat (Z.of_nat (length A + 2) + -3 + 1)) with (length A) by lia.
  rewrite firstn_app, firstn_all, Nat.sub_diag. simpl. apply app_nil_r.
Qed.

Lemma check_dim_last_ok (t : Tensor) (X : list nat) (v : nat) :
  shape t = X ++ [v] -> check_static_has_dim_equals t (-1) v = Ok tt.
Proof.
  intros Hs. unfold check_static_has_dim_equals, rank.
  rewrite Hs, norm_axis_last, nth_at_app by reflexivity.
  rewrite Nat.eqb_refl. reflexivity.
Qed.

Lemma check_rank_ok (t : Tensor) (X : list nat) (x y : nat) :
  shape t = X ++ [x; y] -> check_static_has_rank_greater_than t 1 = Ok tt.
Proof.
  intros Hs. unfold check_static_has_rank_greater_than, rank.
  rewrite Hs, length_app. cbn [length].
  replace (1 <? length X + 2)%nat with true
    by (symmetry; apply Nat.ltb_lt; lia).
  reflexivity.
Qed.

Lemma compare_batch_ok (t u : Tensor) (A B C : list nat) (x y x' y' : nat) :
  shape t = A ++ [x; y] -> shape u = B ++ [x'; y'] ->
  broadcast_shape A B = Some C ->
  compare_batch_dimensions t u (-3) = Ok tt.
Proof.
  intros Ht Hu Hb. unfold compare_batch_dimensions.
  rewrite Ht, Hu, !batch_shape_app2, Hb. reflexivity.
Qed.

Lemma compare_dimensions_ok (t u : Tensor) (A B : list nat) (n y y' : nat) :
  shape t = A ++ [n; y] -> shape u = B ++ [n; y'] ->
  compare_dimensions t u (-2) = Ok tt.
Proof.
  intros Ht Hu. unfold compare_dimensions, rank.
  rewrite Ht, Hu, !norm_axis_last2, !nth_at_app by reflexivity.
  rewrite Nat.eqb_refl. reflexivity.
Qed.

(** ** The kernel on well-shaped inputs *)

Lemma compute_radiance_spec (samples distances : Tensor)
    (A B C : list nat) (N : nat) :
  shape samples = A ++ [N; 4%nat] ->
  shape distances = B ++ [N] ->
  broadcast_shape A B = Some C ->
  exists out, compute_radiance samples distances = Ok out /\
    radiance_output samples distances A B C N out.
Proof.
  intros Hs Hd HAB.
  destruct (broadcast_shape_absorb _ _ _ HAB) as [HCA HCB].
  unfold compute_radiance.
  (* distances = tf.expand_dims(distances, -1) *)
  destruct (tf_expand_dims_last distances) as (d1 & Hrun & Hd1s & Hd1v).
  run_step Hrun. clear Hrun.
  rewrite Hd, <- app_assoc in Hd1s. cbn [app] in Hd1s.
  (* the five shape checks *)
  rewrite (check_dim_last_ok samples (A ++ [N]) 4)
    by (rewrite Hs, <- app_assoc; reflexivity).
  cbn [bind].
  run_step (check_rank_ok _ _ _ _ Hs).
  run_step (check_rank_ok _ _ _ _ Hd1s).
  run_step (compare_batch_ok _ _ _ _ _ _ _ _ _ Hs Hd1s HAB).
  run_step (compare_dimensions_ok _ _ _ _ _ _ _ Hs Hd1s).
  (* rgb, sigma_a = tf.split(rgba_values, [3, 1], axis=-1) *)
  destruct (tf_split_rgba samples (A ++ [N]))
    as (rgb & sigma_a & Hrun & Hrgbs & Hsigs & Hrgbv & Hsigv).
  { rewrite Hs, <- app_assoc. reflexivity. }
  run_step Hrun. clear Hrun. cbn [unpack2 bind fst snd].
  (* -sigma_a * distances *)
  destruct (tbinop_spec Rmult (tf_negative sigma_a) d1 ((C ++ [N]) ++ [1%nat]))
    as (prod & Hrun & Hprods & Hprodv).
  { cbn [tf_negative tmap shape]. rewrite Hsigs, Hd1s.
    change (B ++ [N; 1%nat]) with (B ++ [N] ++ [1%nat]). rewrite app_assoc.
    rewrite !broadcast_shape_app, !broadcast_dim_refl, HAB. reflexivity. }
  unfold tf_multiply at 1. run_step Hrun. clear Hrun.
  (* alpha = 1. - tf.exp(...) *)
  destruct (tbinop_spec Rminus (scalar 1) (tf_exp prod) ((C ++ [N]) ++ [1%nat]))
    as (alpha0 & Hrun & Ha0s & Ha0v).
  { cbn [tf_exp tmap scalar shape]. rewrite Hprods. apply broadcast_shape_nil_l. }
  unfold tf_subtract at 1. run_step Hrun. clear Hrun.
  (* alpha = tf.squeeze(alpha, -1) *)
  destruct (tf_squeeze_last alpha0 (C ++ [N]) Ha0s)
    as (alpha & Hrun & Has & Hav).
  run_step Hrun. clear Hrun.
  (* 1. - alpha + 1e-10 *)
  destruct (tbinop_spec Rminus (scalar 1) alpha (C ++ [N]))
    as (oma & Hrun & Homas & Homav).
  { cbn [scalar shape]. rewrite Has. apply broadcast_shape_nil_l. }
  unfold tf_subtract at 1. run_step Hrun. clear Hrun.
  destruct (tbinop_spec Rplus oma (scalar epsilon) (C ++ [N]))
    as (factors & Hrun & Hfs & Hfv).
  { cbn [scalar shape]. rewrite Homas. apply broadcast_shape_nil_r. }
  unfold tf_add at 1. run_step Hrun. clear Hrun.
  (* tf.math.cumprod(..., -1, exclusive=True) *)
  destruct (tf_cumprod_exclusive_last factors C N Hfs)
    as (trans & Hrun & Hts & Htv).
  run_step Hrun. clear Hrun.
  (* weights = alpha * ... *)
  destruct (tbinop_spec Rmult alpha trans (C ++ [N]))
    as (weights & Hrun & Hws & Hwv).
  { rewrite Has, Hts. apply broadcast_shape_refl. }
  unfold tf_multiply at 1. run_step Hrun. clear Hrun.
  (* tf.expand_dims(weights, -1) * rgb *)
  destruct (tf_expand_dims_last weights) as (we & Hrun & Hwes & Hwev).
  run_step Hrun. clear Hrun. rewrite Hws in Hwes.
  destruct (tbinop_spec Rmult we rgb ((C ++ [N]) ++ [3%nat]))
    as (weighted & Hrun & Hwds & Hwdv).
  { rewrite Hwes, Hrgbs, !broadcast_shape_app, broadcast_dim_refl, HCA.
    reflexivity. }
  unfold tf_multiply at 1. run_step Hrun. clear Hrun.
  (* rgb_map = tf.reduce_sum(..., -2) *)
  destruct (tf_reduce_sum_last2 weighted C N 3)
    as (rgb_map & Hrun & Hrms & Hrmv).
  { rewrite Hwds, <- app_assoc. reflexivity. }
  run_step Hrun. clear Hrun.
  (* acc_map = tf.reduce_sum(weights, -1) *)
  destruct (tf_reduce_sum_last weights C N Hws)
    as (acc_map & Hrun & Hams & Hamv).
  run_step Hrun. clear Hrun.
  destruct (tf_expand_dims_last acc_map) as (acc_e & Hrun & Haes & Haev).
  run_step Hrun. clear Hrun. rewrite Hams in Haes.
  eexists. split; [reflexivity |].
  (* values *)
  assert (Halpha : forall c i, valid_index C c -> (i < N)%nat ->
            tget alpha (c ++ [i]) = ray_alpha samples distances A B c i).
  { intros c i Hc Hi.
    destruct (bcast_index_operand _ _ _ _ HAB Hc) as [HcA HcB].
    apply valid_index_length in HcA, HcB.
    pose proof (valid_index_length _ _ Hc) as HcC.
    rewrite Hav by (rewrite !length_app; simpl; lia).
    rewrite Ha0v. cbn [scalar tf_exp tmap tget shape].
    rewrite Hprods, bcast_index_valid.
    2:{ repeat apply valid_index_app; try assumption;
        repeat constructor; assumption. }
    rewrite Hprodv. cbn [tf_negative tmap tget shape].
    rewrite Hsigs, Hd1s.
    change (B ++ [N; 1%nat]) with (B ++ [N] ++ [1%nat]). rewrite (app_assoc B).
    rewrite !(bcast_index_app_lt _ _ 1 0) by lia.
    rewrite !(bcast_index_app_lt _ _ N i) by assumption.
    rewrite Hsigv by (rewrite !length_app; simpl; lia).
    rewrite Hd1v by (unfold rank; rewrite Hd, !length_app; simpl; lia).
    unfold ray_alpha, alpha_of, ray_sigma, ray_channel, ray_dist.
    rewrite <- app_assoc. reflexivity. }
  assert (Hweight : forall c i, valid_index C c -> (i < N)%nat ->
            tget weights (c ++ [i]) =
            weight_of (ray_alpha samples distances A B c) i).
  { intros c i Hc Hi.
    pose proof (valid_index_length _ _ Hc) as HcC.
    rewrite Hwv, Has, Hts, bcast_index_valid.
    2:{ apply valid_index_app; [assumption | repeat constructor; assumption]. }
    rewrite Halpha, Htv by assumption.
    unfold weight_of, transmittance_of. f_equal.
    apply prod_upto_ext. intros j Hj.
    rewrite Hfv, Homas. cbn [scalar tget shape].
    rewrite bcast_index_valid.
    2:{ apply valid_index_app; [assumption | repeat constructor; lia]. }
    rewrite Homav, Has. cbn [scalar tget shape].
    rewrite bcast_index_valid.
    2:{ apply valid_index_app; [assumption | repeat constructor; lia]. }
    rewrite Halpha by (assumption || lia). reflexivity. }
  cbv beta iota delta [radiance_output].
  split; [exact Hrms |]. split; [exact Haes |]. split; [exact Hws |].
  split; [exact Hweight |]. split.
  - intros c Hc. pose proof (valid_index_length _ _ Hc) as HcC.
    rewrite Haev by (unfold rank; rewrite Hams; assumption).
    rewrite Hamv by assumption. unfold opacity_of.
    apply sum_upto_ext. intros j Hj. apply Hweight; assumption.
  - intros c ch Hc Hch. pose proof (valid_index_length _ _ Hc) as HcC.
    destruct (bcast_index_operand _ _ _ _ HAB Hc) as [HcA _].
    apply valid_index_length in HcA.
    rewrite Hrmv by assumption. unfold color_of.
    apply sum_upto_ext. intros j Hj.
    rewrite Hwdv, Hwes, Hrgbs.
    change (c ++ [j; ch]) with (c ++ [j] ++ [ch]). rewrite (app_assoc c).
    rewrite (bcast_index_app (C ++ [N]) (c ++ [j]) 1 ch). cbn [Nat.eqb].
    rewrite (bcast_index_valid (C ++ [N])).
    2:{ apply valid_index_app; [assumption | repeat constructor; assumption]. }
    rewrite Hwev by (unfold rank; rewrite Hws, !length_app; simpl; lia).
    rewrite Hweight by assumption.
    rewrite (bcast_index_app_lt _ _ 3 ch) by assumption.
    rewrite (bcast_index_app_lt _ _ N j) by assumption.
    rewrite Hrgbv by (rewrite !length_app; simpl; lia).
    unfold ray_channel. rewrite <- app_assoc. reflexivity.
Qed.

(** ** Accepted and rejected shapes *)

Lemma shape_cases (l : list nat) :
  l = [] \/ (exists c, l = [c]) \/ (exists A n c, l = A ++ [n; c]).
Proof.
  rewrite <- (rev_involutive l).
  destruct (rev l) as [| c [| n ra]]; simpl.
  - left. reflexivity.
  - right. left. exists c. reflexivity.
  - right. right. exists (rev ra), n, c. rewrite <- app_assoc. reflexivity.
Qed.

Lemma shape_cases1 (l : list nat) :
  l = [] \/ exists B m, l = B ++ [m].
Proof.
  destruct l as [| x l]; [left; reflexivity | right].
  destruct (exists_last (l := x :: l)) as (B & m & H); [discriminate |].
  eauto.
Qed.

Lemma app2_inj (A A' : list nat) (n c n' c' : nat) :
  A ++ [n; c] = A' ++ [n'; c'] -> A = A' /\ n = n' /\ c = c'.
Proof.
  change (A ++ [n; c]) with (A ++ [n] ++ [c]).
  change (A' ++ [n'; c']) with (A' ++ [n'] ++ [c']).
  rewrite !app_assoc. intros H.
  apply app_inj_tail in H. destruct H as [H ->].
  apply app_inj_tail in H. destruct H as [-> ->]. auto.
Qed.

(** Every call either is well shaped and returns the compositing result, or
    is rejected with a ShapeError. *)
Lemma compute_radiance_cases (samples distances : Tensor) :
  (exists A B C N,
     well_shaped (shape samples) (shape distances) A B C N /\
     exists out, compute_radiance samples distances = Ok out /\
       radiance_output samples distances A B C N out) \/
  ((forall A B C N,
      ~ well_shaped (shape samples) (shape distances) A B C N) /\
   compute_radiance samples distances = Err ShapeError).
Proof.
  destruct (tf_expand_dims_last distances) as (d1 & Hrun & Hd1s & _).
  destruct (shape_cases (shape samples))
    as [Hs | [[c Hs] | (A & n & c & Hs)]].
  - right. split.
    + intros A B C N (H & _). rewrite Hs in H.
      destruct A; discriminate.
    + unfold compute_radiance. run_step Hrun.
      unfold check_static_has_dim_equals, rank. rewrite Hs. reflexivity.
  - right. split.
    + intros A B C N (H & _). rewrite Hs in H.
      destruct A as [| a [| a' A]]; discriminate.
    + unfold compute_radiance. run_step Hrun.
      unfold check_static_has_dim_equals, check_static_has_rank_greater_than,
        rank.
      rewrite Hs. cbn [length nth]. change (norm_axis 1 (-1)) with (Some O).
      cbv iota beta. destruct (c =? 4)%nat; reflexivity.
  - destruct (Nat.eqb_spec c 4) as [-> | Hc].
    2:{ right. split.
        - intros A' B C N (H & _). rewrite Hs in H.
          apply app2_inj in H. destruct H as (_ & _ & H). contradiction.
        - unfold compute_radiance. run_step Hrun.
          unfold check_static_has_dim_equals, rank. rewrite Hs.
          change (A ++ [n; c]) with (A ++ [n] ++ [c]). rewrite app_assoc.
          rewrite norm_axis_last, nth_at_app by reflexivity.
          destruct (Nat.eqb_spec c 4); [contradiction | reflexivity]. }
    assert (Hc1 : check_static_has_dim_equals samples (-1) 4 = Ok tt).
    { apply (check_dim_last_ok samples (A ++ [n])).
      rewrite Hs, <- app_assoc. reflexivity. }
    pose proof (check_rank_ok _ _ _ _ Hs) as Hc2.
    destruct (shape_cases1 (shape distances)) as [Hd | (B & m & Hd)].
    { right. split.
      - intros A' B C N (_ & H & _). rewrite Hd in H.
        destruct B; discriminate.
      - unfold compute_radiance. run_step Hrun. run_step Hc1. run_step Hc2.
        unfold check_static_has_rank_greater_than, rank.
        rewrite Hd1s, Hd. reflexivity. }
    rewrite Hd, <- app_assoc in Hd1s. cbn [app] in Hd1s.
    pose proof (check_rank_ok _ _ _ _ Hd1s) as Hc3.
    destruct (broadcast_shape A B) as [C |] eqn:HAB.
    2:{ right. split.
        - intros A' B' C N (H1 & H2 & H3). rewrite Hs in H1. rewrite Hd in H2.
          apply app2_inj in H1. destruct H1 as (<- & _ & _).
          apply app_inj_tail in H2. destruct H2 as (<- & _). congruence.
        - unfold compute_radiance. run_step Hrun.
          run_step Hc1. run_step Hc2. run_step Hc3.
          unfold compare_batch_dimensions.
          rewrite Hs, Hd1s, !batch_shape_app2, HAB. reflexivity. }
    pose proof (compare_batch_ok _ _ _ _ _ _ _ _ _ Hs Hd1s HAB) as Hc4.
    destruct (Nat.eqb_spec n m) as [<- | Hnm].
    2:{ right. split.
        - intros A' B' C' N (H1 & H2 & _). rewrite Hs in H1. rewrite Hd in H2.
          apply app2_inj in H1. destruct H1 as (_ & <- & _).
          apply app_inj_tail in H2. destruct H2 as (_ & <-). contradiction.
        - unfold compute_radiance. run_step Hrun.
          run_step Hc1. run_step Hc2. run_step Hc3. run_step Hc4.
          unfold compare_dimensions, rank.
          rewrite Hs, Hd1s, !norm_axis_last2, !nth_at_app by reflexivity.
          destruct (Nat.eqb_spec n m); [contradiction | reflexivity]. }
    left. exists A, B, C, n. split; [repeat split; assumption |].
    apply compute_radiance_spec; assumption.
Qed.

Lemma compute_radiance_inv (samples distances : Tensor)
    (out : Tensor * Tensor * Tensor) :
  compute_radiance samples distances = Ok out ->
  exists A B C N,
    well_shaped (shape samples) (shape distances) A B C N /\
    radiance_output samples distances A B C N out.
Proof.
  intros Hrun.
  destruct (compute_radiance_cases samples distances)
    as [(A & B & C & N & Hw & out' & Hrun' & Hout) | [_ Herr]].
  - exists A, B, C, N. split; [exact Hw |]. congruence.
  - congruence.
Qed.

(** ** Properties of the compositing formulas on one ray *)

Section Ray.

Variable alpha : nat -> R.











End Ray.



Lemma alpha_of_zero_density (sigma dist : nat -> R) (i : nat) :
  sigma i = 0 -> alpha_of sigma dist i = 0.
Proof.
  intros Hs. unfold alpha_of. rewrite Hs.
  replace (- 0 * dist i) with 0 by ring. rewrite exp_0. ring.
Qed.


(** ** The shape preconditions in the words of the specification *)

Lemma broadcast_dim_none (d1 d2 : nat) :
  broadcast_dim d1 d2 = None <-> d1 <> d2 /\ d1 <> 1%nat /\ d2 <> 1%nat.
Proof.
  unfold broadcast_dim.
  destruct (Nat.eqb_spec d1 d2); [split; [discriminate | tauto] |].
  destruct (Nat.eqb_spec d1 1); [split; [discriminate | tauto] |].
  destruct (Nat.eqb_spec d2 1); [split; [discriminate | tauto] |].
  tauto.
Qed.

Lemma broadcast_rev_none (a b : list nat) :
  broadcast_rev a b = None <->
  exists k d1 d2,
    nth_error a k = Some d1 /\ nth_error b k = Some d2 /\
    d1 <> d2 /\ d1 <> 1%nat /\ d2 <> 1%nat.
Proof.
  revert b. induction a as [| x a IH]; intros b.
  - simpl. split; [discriminate |].
    intros (k & d1 & d2 & H & _). destruct k; discriminate.
  - destruct b as [| y b].
    + simpl. split; [discriminate |].
      intros (k & d1 & d2 & _ & H & _). destruct k; discriminate.
    + simpl. destruct (broadcast_dim x y) as [d |] eqn:Hd.
      * destruct (broadcast_rev a b) as [r |] eqn:Hr.
        -- split; [discriminate |].
           intros (k & d1 & d2 & H1 & H2 & Hbad).
           destruct k as [| k]; simpl in H1, H2.
           ++ injection H1 as <-. injection H2 as <-.
              apply broadcast_dim_none in Hbad. congruence.
           ++ destruct (IH b) as [_ IH2].
              rewrite Hr in IH2. discriminate IH2. eauto 6.
        -- split; [intros _ | reflexivity].
           destruct (IH b) as [IH1 _]. rewrite Hr in IH1.
           destruct (IH1 eq_refl) as (k & d1 & d2 & H).
           exists (S k), d1, d2. exact H.
      * split; [intros _ | reflexivity].
        exists O, x, y. simpl. apply broadcast_dim_none in Hd. tauto.
Qed.

Lemma broadcast_shape_none (a b : list nat) :
  broadcast_shape a b = None <-> batch_axis_mismatch a b.
Proof.
  unfold broadcast_shape, batch_axis_mismatch.
  rewrite <- broadcast_rev_none.
  destruct (broadcast_rev (rev a) (rev b)); simpl; split; congruence.
Qed.

Lemma removelast_app2 (A : list nat) (n c : nat) :
  removelast (A ++ [n; c]) = A ++ [n].
Proof.
  change (A ++ [n; c]) with (A ++ [n] ++ [c]).
  rewrite app_assoc. apply removelast_last.
Qed.

Lemma last_app2 (A : list nat) (n c d : nat) : last (A ++ [n; c]) d = c.
Proof.
  change (A ++ [n; c]) with (A ++ [n] ++ [c]).
  rewrite app_assoc. apply last_last.
Qed.

(** A well-shaped call violates nothing. *)
Lemma well_shaped_no_violation (ss sd A B C : list nat) (N : nat) :
  well_shaped ss sd A B C N -> ~ shape_violation ss sd.
Proof.
  intros (-> & -> & HAB) Hv.
  destruct Hv as [H | H | H | H | H].
  - rewrite last_app2 in H. congruence.
  - rewrite length_app in H. simpl in H. lia.
  - rewrite !length_app in H. simpl in H. lia.
  - unfold samples_batch_dims, distances_batch_dims in H.
    rewrite removelast_app2, !removelast_last in H.
    apply broadcast_shape_none in H. congruence.
  - rewrite removelast_app2, !last_last in H. congruence.
Qed.

(** Conversely, shapes that are not well shaped violate a precondition. *)
Lemma not_well_shaped_violation (ss sd : list nat) :
  (forall A B C N, ~ well_shaped ss sd A B C N) -> shape_violation ss sd.
Proof.
  intros Hn.
  destruct (shape_cases ss) as [-> | [[c ->] | (A & n & c & ->)]].
  - apply bad_channel_axis. simpl. discriminate.
  - apply bad_samples_rank. simpl. lia.
  - destruct (Nat.eq_dec c 4) as [-> | Hc].
    2:{ apply bad_channel_axis. rewrite last_app2. exact Hc. }
    destruct (shape_cases1 sd) as [-> | (B & m & ->)].
    { apply bad_distances_rank. simpl. lia. }
    destruct (broadcast_shape A B) as [C |] eqn:HAB.
    2:{ apply bad_batch_axis. unfold samples_batch_dims, distances_batch_dims.
        rewrite removelast_app2, !removelast_last.
        apply broadcast_shape_none. exact HAB. }
    destruct (Nat.eq_dec n m) as [-> | Hnm].
    2:{ apply bad_sample_count. rewrite removelast_app2, !last_last. exact Hnm. }
    exfalso. apply (Hn A B C m). repeat split. exact HAB.
Qed.

Lemma valid_index_app_inv (C : list nat) (n : nat) (idx : list nat) :
  valid_index (C ++ [n]) idx ->
  exists c i, idx = c ++ [i] /\ valid_index C c /\ (i < n)%nat.
Proof.
  unfold valid_index. intros H.
  apply Forall2_app_inv_r in H. destruct H as (c & l & Hc & Hl & ->).
  inversion Hl as [| i d l' s' Hi Hl' E1 E2]; subst.
  inversion Hl'; subst. exists c, i. auto.
Qed.

(** ** Changing the opacity of one sample *)

Lemma transmittance_ext (alpha alpha' : nat -> R) (n : nat) :
  (forall j, (j < n)%nat -> alpha' j = alpha j) ->
  transmittance_of alpha' n = transmittance_of alpha n.
Proof.
  intros H. unfold transmittance_of. apply prod_upto_ext.
  intros j Hj. rewrite H by exact Hj. reflexivity.
Qed.

Lemma opacity_ext (alpha alpha' : nat -> R) (n : nat) :
  (forall j, (j < n)%nat -> alpha' j = alpha j) ->
  opacity_of alpha' n = opacity_of alpha n.
Proof.
  intros H. unfold opacity_of. apply sum_upto_ext.
  intros j Hj. unfold weight_of. rewrite H by exact Hj.
  rewrite (transmittance_ext alpha alpha' j); [reflexivity |].
  intros i Hi. apply H. lia.
Qed.

Lemma weight_ext (alpha alpha' : nat -> R) (i : nat) :
  (forall j, alpha' j = alpha j) -> weight_of alpha' i = weight_of alpha i.
Proof.
  intros H. unfold weight_of. rewrite H.
  rewrite (transmittance_ext alpha alpha' i) by (intros j _; apply H).
  reflexivity.
Qed.

Lemma color_ext (alpha alpha' rgb rgb' : nat -> R) (n : nat) :
  (forall j, alpha' j = alpha j) -> (forall j, rgb' j = rgb j) ->
  color_of alpha' rgb' n = color_of alpha rgb n.
Proof.
  intros Ha Hr. unfold color_of. apply sum_upto_ext. intros j _.
  rewrite (weight_ext alpha alpha' j Ha), Hr. reflexivity.
Qed.





(** ** Bounds on the exponential *)

Lemma exp_mult_nat (n : nat) (x : R) : exp (INR n * x) = exp x ^ n.
Proof.
  induction n as [| n IH].
  - simpl. rewrite Rmult_0_l. apply exp_0.
  - rewrite S_INR, Rmult_plus_distr_r, Rmult_1_l, exp_plus, IH.
    simpl. ring.
Qed.



(** A lower bound on [exp x] squares to a lower bound on [exp (2 * x)]. *)
Lemma exp_double_lower (x l l' : R) :
  0 <= l -> l <= exp x -> l' <= l * l -> l' <= exp (2 * x).
Proof.
  intros H0 Hl Hl'. replace (2 * x) with (x + x) by ring. rewrite exp_plus.
  apply Rle_trans with (l * l); [exact Hl' |].
  apply Rmult_le_compat; assumption.
Qed.
(** [exp (-1)] from below, squaring [1 - 1/4096 <= exp (-1/4096)] twelve
    times and rounding down. *)
Lemma exp_m1_lower : 0.367834529443261 <= exp (- 1).
Proof.
  assert (H0 : 0.999755859375 <= exp (- 1 / 4096)).
  { pose proof (exp_ineq1_le (- 1 / 4096)). lra. }
  assert (H1 : 0.999511778354644 <= exp (- 1 / 2048)).
  { replace (- 1 / 2048) with (2 * (- 1 / 4096)) by lra.
    apply (exp_double_lower _ 0.999755859375); [lra | exact H0 | lra]. }
  assert (H2 : 0.999023795069662 <= exp (- 1 / 1024)).
  { replace (- 1 / 1024) with (2 * (- 1 / 2048)) by lra.
    apply (exp_double_lower _ 0.999511778354644); [lra | exact H1 | lra]. }
  assert (H3 : 0.99804854311539 <= exp (- 1 / 512)).
  { replace (- 1 / 512) with (2 * (- 1 / 1024)) by lra.
    apply (exp_double_lower _ 0.999023795069662); [lra | exact H2 | lra]. }
  assert (H4 : 0.996100894414752 <= exp (- 1 / 256)).
  { replace (- 1 / 256) with (2 * (- 1 / 512)) by lra.
    apply (exp_double_lower _ 0.99804854311539); [lra | exact H3 | lra]. }
  assert (H5 : 0.992216991853868 <= exp (- 1 / 128)).
  { replace (- 1 / 128) with (2 * (- 1 / 256)) by lra.
    apply (exp_double_lower _ 0.996100894414752); [lra | exact H4 | lra]. }
  assert (H6 : 0.984494558923538 <= exp (- 1 / 64)).
  { replace (- 1 / 64) with (2 * (- 1 / 128)) by lra.
    apply (exp_double_lower _ 0.992216991853868); [lra | exact H5 | lra]. }
  assert (H7 : 0.969229536550051 <= exp (- 1 / 32)).
  { replace (- 1 / 32) with (2 * (- 1 / 64)) by lra.
    apply (exp_double_lower _ 0.984494558923538); [lra | exact H6 | lra]. }
  assert (H8 : 0.939405894521026 <= exp (- 1 / 16)).
  { replace (- 1 / 16) with (2 * (- 1 / 32)) by lra.
    apply (exp_double_lower _ 0.969229536550051); [lra | exact H7 | lra]. }
  assert (H9 : 0.882483434660849 <= exp (- 1 / 8)).
  { replace (- 1 / 8) with (2 * (- 1 / 16)) by lra.
    apply (exp_double_lower _ 0.939405894521026); [lra | exact H8 | lra]. }
  assert (H10 : 0.778777012450808 <= exp (- 1 / 4)).
  { replace (- 1 / 4) with (2 * (- 1 / 8)) by lra.
    apply (exp_double_lower _ 0.882483434660849); [lra | exact H9 | lra]. }
  assert (H11 : 0.606493635121805 <= exp (- 1 / 2)).
  { replace (- 1 / 2) with (2 * (- 1 / 4)) by lra.
    apply (exp_double_lower _ 0.778777012450808); [lra | exact H10 | lra]. }
  assert (H12 : 0.367834529443261 <= exp (- 1 / 1)).
  { replace (- 1 / 1) with (2 * (- 1 / 2)) by lra.
    apply (exp_double_lower _ 0.606493635121805); [lra | exact H11 | lra]. }
  replace (- 1) with (- 1 / 1) by lra. exact H12.
Qed.

(** [exp 1] from below, squaring [1 + 1/4096 <= exp (1/4096)] twelve
    times and rounding down. *)
Lemma exp_1_lower : 2.717950081181966 <= exp (1).
Proof.
  assert (H0 : 1.000244140625 <= exp (1 / 4096)).
  { pose proof (exp_ineq1_le (1 / 4096)). lra. }
  assert (H1 : 1.000488340854644 <= exp (1 / 2048)).
  { replace (1 / 2048) with (2 * (1 / 4096)) by lra.
    apply (exp_double_lower _ 1.000244140625); [lra | exact H0 | lra]. }
  assert (H2 : 1.000976920186078 <= exp (1 / 1024)).
  { replace (1 / 1024) with (2 * (1 / 2048)) by lra.
    apply (exp_double_lower _ 1.000488340854644); [lra | exact H1 | lra]. }
  assert (H3 : 1.001954794745205 <= exp (1 / 512)).
  { replace (1 / 512) with (2 * (1 / 1024)) by lra.
    apply (exp_double_lower _ 1.000976920186078); [lra | exact H2 | lra]. }
  assert (H4 : 1.003913410712905 <= exp (1 / 256)).
  { replace (1 / 256) with (2 * (1 / 512)) by lra.
    apply (exp_double_lower _ 1.001954794745205); [lra | exact H3 | lra]. }
  assert (H5 : 1.007842136209217 <= exp (1 / 128)).
  { replace (1 / 128) with (2 * (1 / 256)) by lra.
    apply (exp_double_lower _ 1.003913410712905); [lra | exact H4 | lra]. }
  assert (H6 : 1.015745771518757 <= exp (1 / 64)).
  { replace (1 / 64) with (2 * (1 / 128)) by lra.
    apply (exp_double_lower _ 1.007842136209217); [lra | exact H5 | lra]. }
  assert (H7 : 1.031739472358234 <= exp (1 / 32)).
  { replace (1 / 32) with (2 * (1 / 64)) by lra.
    apply (exp_double_lower _ 1.015745771518757); [lra | exact H6 | lra]. }
  assert (H8 : 1.064486338822047 <= exp (1 / 16)).
  { replace (1 / 16) with (2 * (1 / 32)) by lra.
    apply (exp_double_lower _ 1.031739472358234); [lra | exact H7 | lra]. }
  assert (H9 : 1.133131165538765 <= exp (1 / 8)).
  { replace (1 / 8) with (2 * (1 / 16)) by lra.
    apply (exp_double_lower _ 1.064486338822047); [lra | exact H8 | lra]. }
  assert (H10 : 1.28398623831524 <= exp (1 / 4)).
  { replace (1 / 4) with (2 * (1 / 8)) by lra.
    apply (exp_double_lower _ 1.133131165538765); [lra | exact H9 | lra]. }
  assert (H11 : 1.64862066018292 <= exp (1 / 2)).
  { replace (1 / 2) with (2 * (1 / 4)) by lra.
    apply (exp_double_lower _ 1.28398623831524); [lra | exact H10 | lra]. }
  assert (H12 : 2.717950081181966 <= exp (1 / 1)).
  { replace (1 / 1) with (2 * (1 / 2)) by lra.
    apply (exp_double_lower _ 1.64862066018292); [lra | exact H11 | lra]. }
  replace (1) with (1 / 1) by lra. exact H12.
Qed.

(** ** Calls without batch axes: one ray *)

Lemma compute_radiance_single_ray (samples distances : Tensor) (N : nat) :
  shape samples = [N; 4%nat] -> shape distances = [N] ->
  exists color opacity weights,
    compute_radiance samples distances = Ok (color, opacity, weights) /\
    let alpha := alpha_of (fun i => tget samples [i; 3%nat])
                          (fun i => tget distances [i]) in
    (forall i, (i < N)%nat -> tget weights [i] = weight_of alpha i) /\
    tget opacity [O] = opacity_of alpha N /\
    (forall ch, (ch < 3)%nat ->
       tget color [ch] =
       color_of alpha (fun i => tget samples [i; ch]) N).
Proof.
  intros Hs Hd.
  destruct (compute_radiance_spec samples distances [] [] [] N Hs Hd eq_refl)
    as ([[color opacity] weights] & Hrun & _ & _ & _ & Hw & Ho & Hc).
  exists color, opacity, weights. split; [exact Hrun |].
  assert (Hnil : valid_index [] []) by constructor.
  split; [| split].
  - intros i Hi. exact (Hw [] i Hnil Hi).
  - exact (Ho [] Hnil).
  - intros ch Hch. exact (Hc [] ch Hnil Hch).
Qed.

(** ** Rounding to binary64 *)

Section Rounding.

Import Float64.

Lemma ln_2_pos : 0 < ln 2.
Proof. pose proof ln_lt_2. lra. Qed.

Lemma pow2_pos (e : Z) : 0 < pow2 e.
Proof. apply powerRZ_lt. lra. Qed.

Lemma pow2_add (a b : Z) : pow2 (a + b) = pow2 a * pow2 b.
Proof. apply powerRZ_add. lra. Qed.

Lemma pow2_0 : pow2 0 = 1.
Proof. reflexivity. Qed.

Lemma pow2_cancel (a : Z) : pow2 a * pow2 (- a) = 1.
Proof. rewrite <- pow2_add, Z.add_opp_diag_r. reflexivity. Qed.

Lemma pow2_le (a b : Z) : (a <= b)%Z -> pow2 a <= pow2 b.
Proof.
  intros H. replace b with (a + Z.of_nat (Z.to_nat (b - a)))%Z by lia.
  rewrite pow2_add. unfold pow2 at 3. rewrite <- pow_powerRZ.
  pose proof (pow2_pos a) as Ha.
  assert (H1 : 1 <= 2 ^ Z.to_nat (b - a)) by (apply pow_R1_Rle; lra).
  rewrite <- (Rmult_1_r (pow2 a)) at 1.
  apply Rmult_le_compat_l; lra.
Qed.

Lemma pow2_lt (a b : Z) : (a < b)%Z -> pow2 a < pow2 b.
Proof.
  intros H. apply Rlt_le_trans with (pow2 (a + 1)).
  - rewrite pow2_add. pose proof (pow2_pos a). unfold pow2 at 3. simpl. lra.
  - apply pow2_le. lia.
Qed.

Lemma pow2_lt_inv (a b : Z) : pow2 a < pow2 b -> (a < b)%Z.
Proof.
  intros H. destruct (Z_lt_le_dec a b) as [Hlt | Hle]; [exact Hlt |].
  apply pow2_le in Hle. lra.
Qed.

Lemma pow2_exp (e : Z) : pow2 e = exp (IZR e * ln 2).
Proof. unfold pow2. rewrite powerRZ_Rpower by lra. reflexivity. Qed.

Lemma ln_pow2 (e : Z) : ln (pow2 e) = IZR e * ln 2.
Proof. rewrite pow2_exp. apply ln_exp. Qed.

Lemma Int_part_bounds (r : R) : IZR (Int_part r) <= r < IZR (Int_part r) + 1.
Proof. destruct (base_Int_part r). lra. Qed.

Lemma Int_part_IZR (z : Z) : Int_part (IZR z) = z.
Proof. symmetry. apply Int_part_spec. lra. Qed.

Lemma Int_part_le (r s : R) : r <= s -> (Int_part r <= Int_part s)%Z.
Proof.
  intros H. pose proof (Int_part_bounds r). pose proof (Int_part_bounds s).
  apply Zlt_succ_le. apply lt_IZR. rewrite succ_IZR. lra.
Qed.

Lemma mag_unique (x : R) (e : Z) :
  pow2 e <= Rabs x < pow2 (e + 1) -> mag x = e.
Proof.
  intros [Hlo Hhi]. unfold mag. symmetry. apply Int_part_spec.
  pose proof ln_2_pos as H2. pose proof (pow2_pos e) as Hp.
  assert (Hx : 0 < Rabs x) by lra.
  assert (H1 : IZR e * ln 2 <= ln (Rabs x)).
  { rewrite <- ln_pow2. destruct Hlo as [Hlo | Hlo].
    - left. apply ln_increasing; assumption.
    - rewrite Hlo. lra. }
  assert (H3 : ln (Rabs x) < IZR (e + 1) * ln 2).
  { rewrite <- ln_pow2. apply ln_increasing; assumption. }
  rewrite plus_IZR in H3.
  assert (Hq : ln (Rabs x) / ln 2 * ln 2 = ln (Rabs x)) by (field; lra).
  split.
  - apply Rmult_lt_reg_r with (ln 2); [exact H2 |].
    rewrite Rmult_minus_distr_r, Hq. lra.
  - apply Rmult_le_reg_r with (ln 2); [exact H2 |]. rewrite Hq. lra.
Qed.

Lemma mag_bounds (x : R) :
  x <> 0 -> pow2 (mag x) <= Rabs x < pow2 (mag x + 1).
Proof.
  intros Hx. pose proof ln_2_pos as H2.
  assert (Hax : 0 < Rabs x) by (apply Rabs_pos_lt; exact Hx).
  pose proof (Int_part_bounds (ln (Rabs x) / ln 2)) as [Hlo Hhi].
  fold (mag x) in Hlo, Hhi.
  assert (Hq : ln (Rabs x) / ln 2 * ln 2 = ln (Rabs x)) by (field; lra).
  rewrite !pow2_exp, plus_IZR.
  pose proof (exp_ln (Rabs x) Hax) as Hel.
  split.
  - assert (H : IZR (mag x) * ln 2 <= ln (Rabs x)).
    { rewrite <- Hq. apply Rmult_le_compat_r; lra. }
    rewrite <- Hel.
    destruct H as [H | H]; [left; apply exp_increasing; exact H |].
    rewrite H. lra.
  - rewrite <- Hel. apply exp_increasing. rewrite <- Hq.
    apply Rmult_lt_compat_r; lra.
Qed.

Lemma mag_le (x y : R) : 0 < x -> x <= y -> (mag x <= mag y)%Z.
Proof.
  intros Hx Hxy.
  pose proof (mag_bounds x ltac:(lra)) as [Hx1 _].
  pose proof (mag_bounds y ltac:(lra)) as [_ Hy2].
  rewrite Rabs_right in Hx1, Hy2 by lra.
  apply Zlt_succ_le. apply pow2_lt_inv. unfold Z.succ. lra.
Qed.

Lemma cexp_normal (x : R) (e : Z) :
  pow2 e <= Rabs x < pow2 (e + 1) -> (-1022 <= e)%Z -> cexp x = e.
Proof. intros H He. unfold cexp. rewrite (mag_unique x e H). lia. Qed.

Lemma cexp_subnormal (x : R) :
  x <> 0 -> Rabs x < pow2 (-1022) -> cexp x = (-1022)%Z.
Proof.
  intros Hx H. pose proof (mag_bounds x Hx) as [Hlo _].
  assert (Hm : (mag x < -1022)%Z) by (apply pow2_lt_inv; lra).
  unfold cexp. lia.
Qed.

Lemma cexp_ge (x : R) : (-1022 <= cexp x)%Z.
Proof. unfold cexp. lia. Qed.

Lemma cexp_le (x y : R) : 0 < x -> x <= y -> (cexp x <= cexp y)%Z.
Proof. intros Hx Hxy. pose proof (mag_le x y Hx Hxy). unfold cexp. lia. Qed.

Lemma nearest_even_IZR (z : Z) : nearest_even (IZR z) = z.
Proof.
  unfold nearest_even. rewrite Int_part_IZR.
  destruct (Rlt_dec (IZR z - IZR z) (1 / 2)) as [_ | H]; [reflexivity | lra].
Qed.

Lemma nearest_even_bounds (r : R) :
  r - 1 / 2 <= IZR (nearest_even r) <= r + 1 / 2.
Proof.
  unfold nearest_even. pose proof (Int_part_bounds r) as [Hlo Hhi].
  destruct (Rlt_dec (r - IZR (Int_part r)) (1 / 2)) as [H1 | H1]; [lra |].
  destruct (Rlt_dec (1 / 2) (r - IZR (Int_part r))) as [H2 | H2].
  - rewrite plus_IZR. lra.
  - destruct (Z.even (Int_part r)); [lra | rewrite plus_IZR; lra].
Qed.

Lemma nearest_even_near (r : R) (z : Z) :
  IZR z - 1 / 2 < r < IZR z + 1 / 2 -> nearest_even r = z.
Proof.
  intros H. pose proof (nearest_even_bounds r) as Hb.
  apply Z.le_antisymm.
  - apply Zlt_succ_le. apply lt_IZR. rewrite succ_IZR. lra.
  - apply Zlt_succ_le. apply lt_IZR. rewrite succ_IZR. lra.
Qed.

(** An integer below [r] is below its rounding, and likewise above. *)
Lemma nearest_even_ge (r : R) (z : Z) :
  IZR z <= r -> (z <= nearest_even r)%Z.
Proof.
  intros H. pose proof (nearest_even_bounds r) as Hb.
  apply Zlt_succ_le. apply lt_IZR. rewrite succ_IZR. lra.
Qed.

Lemma nearest_even_le (r : R) (z : Z) :
  r <= IZR z -> (nearest_even r <= z)%Z.
Proof.
  intros H. pose proof (nearest_even_bounds r) as Hb.
  apply Zlt_succ_le. apply lt_IZR. rewrite succ_IZR. lra.
Qed.

Lemma nearest_even_mono (r s : R) :
  r <= s -> (nearest_even r <= nearest_even s)%Z.
Proof.
  intros Hrs. pose proof (Int_part_le r s Hrs) as Hf.
  destruct (Z.eq_dec (Int_part r) (Int_part s)) as [Heq | Hne].
  - unfold nearest_even. rewrite <- Heq.
    destruct (Rlt_dec (r - IZR (Int_part r)) (1 / 2)) as [H1 | H1];
    destruct (Rlt_dec (s - IZR (Int_part r)) (1 / 2)) as [H2 | H2];
    destruct (Rlt_dec (1 / 2) (r - IZR (Int_part r))) as [H3 | H3];
    destruct (Rlt_dec (1 / 2) (s - IZR (Int_part r))) as [H4 | H4];
    destruct (Z.even (Int_part r)); try lia; lra.
  - apply Z.le_trans with (Int_part s).
    + apply nearest_even_le. pose proof (Int_part_bounds r) as [_ Hr].
      assert (Hlt : (Int_part r + 1 <= Int_part s)%Z) by lia.
      apply IZR_le in Hlt. rewrite plus_IZR in Hlt. lra.
    + apply nearest_even_ge. apply Int_part_bounds.
Qed.

Lemma round64_0 : round64 0 = 0.
Proof.
  unfold round64. destruct (Req_EM_T 0 0); [reflexivity | contradiction].
Qed.

Lemma round64_eq (x : R) :
  x <> 0 ->
  round64 x = IZR (nearest_even (x * pow2 (52 - cexp x))) * pow2 (cexp x - 52).
Proof.
  intros Hx. unfold round64.
  destruct (Req_EM_T x 0); [contradiction | reflexivity].
Qed.

(** A real on the grid of its binade is its own rounding. *)
Lemma round64_exact (x : R) (z : Z) :
  x * pow2 (52 - cexp x) = IZR z -> round64 x = x.
Proof.
  intros Hz. destruct (Req_EM_T x 0) as [-> | Hx]; [apply round64_0 |].
  rewrite (round64_eq x Hx), Hz, nearest_even_IZR, <- Hz.
  rewrite Rmult_assoc.
  replace (cexp x - 52)%Z with (- (52 - cexp x))%Z by lia.
  rewrite pow2_cancel. ring.
Qed.

Lemma round64_nonneg (x : R) : 0 <= x -> 0 <= round64 x.
Proof.
  intros Hx. destruct (Req_EM_T x 0) as [-> | Hne].
  - rewrite round64_0. lra.
  - rewrite (round64_eq x Hne).
    pose proof (pow2_pos (52 - cexp x)) as Hp1.
    pose proof (pow2_pos (cexp x - 52)) as Hp2.
    apply Rmult_le_pos; [| lra].
    apply IZR_le. apply nearest_even_ge.
    apply Rmult_le_pos; lra.
Qed.

Lemma round64_nonpos (x : R) : x <= 0 -> round64 x <= 0.
Proof.
  intros Hx. destruct (Req_EM_T x 0) as [-> | Hne].
  - rewrite round64_0. lra.
  - rewrite (round64_eq x Hne).
    pose proof (pow2_pos (52 - cexp x)) as Hp1.
    pose proof (pow2_pos (cexp x - 52)) as Hp2.
    assert (Hn : IZR (nearest_even (x * pow2 (52 - cexp x))) <= 0).
    { apply IZR_le. apply nearest_even_le.
      assert (0 <= (- x) * pow2 (52 - cexp x)) by (apply Rmult_le_pos; lra).
      lra. }
    assert (0 <= - IZR (nearest_even (x * pow2 (52 - cexp x)))
                 * pow2 (cexp x - 52)) by (apply Rmult_le_pos; lra).
    lra.
Qed.

(** The scaled significand of a positive real. *)
Lemma scaled_bounds (x : R) :
  0 < x ->
  0 < x * pow2 (52 - cexp x) < IZR (2 ^ 53) /\
  ((-1022 <= mag x)%Z -> IZR (2 ^ 52) <= x * pow2 (52 - cexp x)).
Proof.
  intros Hx. pose proof (mag_bounds x ltac:(lra)) as [Hlo Hhi].
  rewrite Rabs_right in Hlo, Hhi by lra.
  pose proof (pow2_pos (52 - cexp x)) as Hp.
  assert (H53 : IZR (2 ^ 53) = pow2 53) by (unfold pow2; simpl; lra).
  assert (H52 : IZR (2 ^ 52) = pow2 52) by (unfold pow2; simpl; lra).
  rewrite H53, H52. split; [split |].
  - apply Rmult_lt_0_compat; assumption.
  - apply Rlt_le_trans with (pow2 (mag x + 1) * pow2 (52 - cexp x)).
    + apply Rmult_lt_compat_r; assumption.
    + rewrite <- pow2_add. apply pow2_le. unfold cexp. lia.
  - intros Hm. replace (cexp x) with (mag x) by (unfold cexp; lia).
    replace 52%Z with (mag x + (52 - mag x))%Z at 1 by lia.
    rewrite pow2_add. apply Rmult_le_compat_r; [| exact Hlo].
    left. apply pow2_pos.
Qed.

Lemma round64_mono_pos (x y : R) :
  0 < x -> x <= y -> round64 x <= round64 y.
Proof.
  intros Hx Hxy. assert (Hy : 0 < y) by lra.
  rewrite (round64_eq x), (round64_eq y) by lra.
  pose proof (cexp_le x y Hx Hxy) as Hc.
  destruct (scaled_bounds x Hx) as [[Hx0 Hx1] _].
  destruct (scaled_bounds y Hy) as [[Hy0 Hy1] Hy2].
  destruct (Z.eq_dec (cexp x) (cexp y)) as [Heq | Hne].
  - rewrite Heq. apply Rmult_le_compat_r; [left; apply pow2_pos |].
    apply IZR_le. apply nearest_even_mono.
    apply Rmult_le_compat_r; [left; apply pow2_pos | exact Hxy].
  - assert (Hlt : (cexp x < cexp y)%Z) by lia.
    assert (Hmy : (-1022 <= mag y)%Z)
      by (pose proof (cexp_ge x); unfold cexp in *; lia).
    specialize (Hy2 Hmy).
    apply Rle_trans with (IZR (2 ^ 53) * pow2 (cexp x - 52)).
    + apply Rmult_le_compat_r; [left; apply pow2_pos |].
      apply IZR_le. apply nearest_even_le. lra.
    + apply Rle_trans with (IZR (2 ^ 52) * pow2 (cexp y - 52)).
      * assert (H53 : IZR (2 ^ 53) = pow2 53) by (unfold pow2; simpl; lra).
        assert (H52 : IZR (2 ^ 52) = pow2 52) by (unfold pow2; simpl; lra).
        rewrite H53, H52, <- !pow2_add. apply pow2_le. lia.
      * apply Rmult_le_compat_r; [left; apply pow2_pos |].
        apply IZR_le. apply nearest_even_ge. exact Hy2.
Qed.


Lemma round64_1 : round64 1 = 1.
Proof.
  apply (round64_exact 1 (2 ^ 52)).
  rewrite (cexp_normal 1 0) by (rewrite ?Rabs_R1; unfold pow2; simpl; lra || lia).
  unfold pow2. simpl. lra.
Qed.

Lemma round64_pow2 (e : Z) : (-1022 <= e)%Z -> round64 (pow2 e) = pow2 e.
Proof.
  intros He. pose proof (pow2_pos e) as Hp.
  apply (round64_exact _ (2 ^ 52)).
  rewrite (cexp_normal (pow2 e) e).
  - rewrite <- pow2_add. replace (e + (52 - e))%Z with 52%Z by lia.
    unfold pow2. simpl. lra.
  - rewrite Rabs_right by lra. split; [lra | apply pow2_lt; lia].
  - exact He.
Qed.

(** Rounding is idempotent. *)
Lemma round64_idem_pos (x : R) : 0 < x -> round64 (round64 x) = round64 x.
Proof.
  intros Hx. rewrite (round64_eq x) by lra.
  destruct (scaled_bounds x Hx) as [[H0 H1] H2].
  set (c := cexp x) in *. set (n := nearest_even (x * pow2 (52 - c))).
  assert (Hc : (-1022 <= c)%Z) by apply cexp_ge.
  assert (Hn0 : (0 <= n)%Z) by (apply nearest_even_ge; lra).
  assert (Hn1 : (n <= 2 ^ 53)%Z) by (apply nearest_even_le; lra).
  pose proof (pow2_pos (c - 52)) as Hp.
  assert (H52 : IZR (2 ^ 52) = pow2 52) by (unfold pow2; simpl; lra).
  assert (H53 : IZR (2 ^ 53) = pow2 53) by (unfold pow2; simpl; lra).
  assert (Hlo : pow2 52 * pow2 (c - 52) = pow2 c)
    by (rewrite <- pow2_add; f_equal; lia).
  assert (Hhi : pow2 53 * pow2 (c - 52) = pow2 (c + 1))
    by (rewrite <- pow2_add; f_equal; lia).
  destruct (Z.eq_dec n 0) as [Hz | Hnz].
  { rewrite Hz, Rmult_0_l. apply round64_0. }
  assert (Hvpos : 0 < IZR n * pow2 (c - 52)).
  { apply Rmult_lt_0_compat; [apply IZR_lt; lia | exact Hp]. }
  destruct (Z.eq_dec n (2 ^ 53)) as [Htop | Hntop].
  { rewrite Htop, H53, Hhi. apply round64_pow2. lia. }
  destruct (Z_lt_le_dec n (2 ^ 52)) as [Hsub | Hnorm].
  - (* below the normal range: the grid of the subnormal numbers *)
    assert (Hcm : c = (-1022)%Z).
    { destruct (Z_lt_le_dec (mag x) (-1022)) as [Hm | Hm].
      - unfold c, cexp. lia.
      - specialize (H2 Hm). fold c in H2.
        assert (Hge : (2 ^ 52 <= n)%Z) by (apply nearest_even_ge; exact H2).
        lia. }
    apply (round64_exact _ n).
    rewrite (cexp_subnormal (IZR n * pow2 (c - 52))).
    + rewrite Rmult_assoc, <- pow2_add.
      replace (c - 52 + (52 - -1022))%Z with 0%Z by lia. rewrite pow2_0. ring.
    + lra.
    + rewrite Rabs_right by lra. rewrite <- Hcm, <- Hlo, <- H52.
      apply Rmult_lt_compat_r; [exact Hp | apply IZR_lt; exact Hsub].
  - apply (round64_exact _ n).
    rewrite (cexp_normal (IZR n * pow2 (c - 52)) c).
    + rewrite Rmult_assoc, <- pow2_add.
      replace (c - 52 + (52 - c))%Z with 0%Z by lia. rewrite pow2_0. ring.
    + rewrite Rabs_right by lra. rewrite <- Hlo, <- Hhi, <- H52, <- H53. split.
      * apply Rmult_le_compat_r; [lra | apply IZR_le; exact Hnorm].
      * apply Rmult_lt_compat_r; [exact Hp | apply IZR_lt; lia].
    + exact Hc.
Qed.

Lemma pow2_IZR (k : Z) : (0 <= k)%Z -> pow2 k = IZR (2 ^ k).
Proof.
  intros Hk. unfold pow2. rewrite <- (Z2Nat.id k Hk) at 1 2.
  rewrite <- pow_powerRZ. apply pow_IZR.
Qed.

(** Powers of two are binary64 numbers down to [2 ^ -1074]. *)
Lemma round64_pow2_subnormal (e : Z) :
  (-1074 <= e)%Z -> round64 (pow2 e) = pow2 e.
Proof.
  intros He. destruct (Z_lt_le_dec e (-1022)) as [Hsub | Hnorm];
    [| apply round64_pow2; exact Hnorm].
  pose proof (pow2_pos e) as Hp.
  apply (round64_exact _ (2 ^ (e + 1074))).
  rewrite cexp_subnormal.
  - rewrite <- pow2_add, <- pow2_IZR by lia. f_equal; lia.
  - lra.
  - rewrite Rabs_right by lra. apply pow2_lt. exact Hsub.
Qed.

(** Below half the smallest binary64 number everything rounds to 0. *)
Lemma round64_underflow (x : R) : 0 <= x <= pow2 (-1076) -> round64 x = 0.
Proof.
  intros [Hx0 Hx1]. destruct (Req_EM_T x 0) as [-> | Hne];
    [apply round64_0 |].
  assert (Hlt : pow2 (-1076) < pow2 (-1022)) by (apply pow2_lt; lia).
  rewrite (round64_eq x Hne), cexp_subnormal;
    [| exact Hne | rewrite Rabs_right by lra; lra].
  pose proof (pow2_pos (52 - -1022)) as Hp.
  assert (Hs : x * pow2 (52 - -1022) <= pow2 (-2)).
  { replace (-2)%Z with (-1076 + (52 - -1022))%Z by lia. rewrite pow2_add.
    apply Rmult_le_compat_r; lra. }
  assert (H2 : pow2 (-2) = / 4) by (unfold pow2; simpl; lra).
  assert (H0 : 0 <= x * pow2 (52 - -1022)) by (apply Rmult_le_pos; lra).
  rewrite (nearest_even_near _ 0) by lra. ring.
Qed.

(** A binary64 number below [x] is below the rounding of [x], and
    likewise above. *)
Lemma round64_ge (x y : R) :
  0 < y -> round64 y = y -> y <= x -> y <= round64 x.
Proof.
  intros Hy Hr Hxy. rewrite <- Hr. apply round64_mono_pos; assumption.
Qed.

Lemma round64_le (x y : R) :
  round64 y = y -> 0 <= y -> x <= y -> round64 x <= y.
Proof.
  intros Hr Hy Hxy. destruct (Rle_lt_dec x 0) as [Hx | Hx].
  - pose proof (round64_nonpos x Hx). lra.
  - rewrite <- Hr. apply round64_mono_pos; assumption.
Qed.

(** *** Values of operations *)

Lemma pow2_1024_large : 2 < pow2 1024.
Proof.
  apply Rlt_le_trans with (pow2 2); [unfold pow2; simpl; lra |].
  apply pow2_le. lia.
Qed.

Lemma of_real_cases (r : R) :
  (of_real r = Finite (round64 r) /\
   - pow2 1024 < round64 r < pow2 1024) \/
  (of_real r = PosInf /\ pow2 1024 <= round64 r) \/
  (of_real r = NegInf /\ round64 r <= - pow2 1024).
Proof.
  unfold of_real. cbv zeta.
  destruct (Rle_dec (pow2 1024) (round64 r)) as [H1 | H1]; [auto |].
  destruct (Rle_dec (round64 r) (- pow2 1024)) as [H2 | H2]; [auto |].
  left. split; [reflexivity | lra].
Qed.

Lemma of_real_finite (r : R) :
  - pow2 1024 < round64 r < pow2 1024 -> of_real r = Finite (round64 r).
Proof.
  intros H.
  destruct (of_real_cases r) as [[Hf _] | [[_ Hp] | [_ Hn]]];
    [exact Hf | lra | lra].
Qed.

Lemma of_real_0 : of_real 0 = Finite 0.
Proof.
  pose proof pow2_1024_large.
  rewrite of_real_finite; rewrite round64_0; [reflexivity | lra].
Qed.

Lemma of_real_1 : of_real 1 = Finite 1.
Proof.
  pose proof pow2_1024_large.
  rewrite of_real_finite; rewrite round64_1; [reflexivity | lra].
Qed.

(** The binary64 value of the literal [1e-10]. *)
Lemma eps64_bounds : pow2 (-34) <= round64 1e-10 <= pow2 (-33).
Proof.
  assert (Hlo : pow2 (-34) <= 1e-10) by (unfold pow2; simpl; lra).
  assert (Hhi : 1e-10 <= pow2 (-33)) by (unfold pow2; simpl; lra).
  pose proof (pow2_pos (-34)) as Hp.
  split.
  - apply round64_ge; [exact Hp | apply round64_pow2; lia | exact Hlo].
  - apply round64_le; [apply round64_pow2; lia | | exact Hhi].
    left. apply pow2_pos.
Qed.

Lemma eps64_pos : 0 < round64 1e-10.
Proof. pose proof eps64_bounds. pose proof (pow2_pos (-34)). lra. Qed.

Lemma eps64_exact : round64 (round64 1e-10) = round64 1e-10.
Proof. apply round64_idem_pos. lra. Qed.

Lemma eps64_small : round64 1e-10 < 1.
Proof.
  pose proof eps64_bounds.
  assert (pow2 (-33) < 1) by (unfold pow2; simpl; lra). lra.
Qed.

Lemma feps_value : feps = Finite (round64 1e-10).
Proof.
  unfold feps. apply of_real_finite.
  pose proof eps64_pos. pose proof eps64_small. pose proof pow2_1024_large.
  lra.
Qed.


(** *** One sample in binary64 arithmetic *)

Lemma fexp_finite (p : R) :
  (exists y, fexp (Finite p) = Finite y /\ 0 <= y /\ y = round64 (exp p)) \/
  fexp (Finite p) = PosInf.
Proof.
  pose proof (round64_nonneg (exp p) (Rlt_le _ _ (exp_pos p))) as Hy.
  pose proof (pow2_pos 1024) as Hp.
  unfold fexp.
  destruct (of_real_cases (exp p)) as [[Hf _] | [[Hi _] | [_ Hn]]].
  - left. exists (round64 (exp p)). auto.
  - right. exact Hi.
  - lra.
Qed.

Lemma one_minus_at_most_one (y : R) :
  0 <= y -> at_most_one (fsub (Finite 1) (Finite y)).
Proof.
  intros Hy. unfold fsub, fneg, fadd.
  assert (Hle : round64 (1 + - y) <= 1)
    by (apply round64_le; [apply round64_1 | lra | lra]).
  pose proof pow2_1024_large as Hbig.
  destruct (of_real_cases (1 + - y)) as [[-> _] | [[_ Hi] | [-> _]]];
    simpl; lra || exact I.
Qed.

(** Line 71: the opacity of a sample never exceeds 1. *)
Lemma alpha_at_most_one (sigma dist : nat -> fval) (i : nat) :
  is_finite (sigma i) -> is_finite (dist i) ->
  at_most_one (alpha_of sigma dist i).
Proof.
  unfold alpha_of. destruct (sigma i) as [a | | |]; try contradiction.
  destruct (dist i) as [b | | |]; try contradiction. intros _ _.
  change (fmul (fneg (Finite a)) (Finite b)) with (of_real (- a * b)).
  assert (Hfin : forall p, at_most_one (fsub (Finite 1) (fexp (Finite p)))).
  { intros p. destruct (fexp_finite p) as [(y & -> & Hy & _) | ->].
    - apply one_minus_at_most_one. exact Hy.
    - exact I. }
  destruct (of_real_cases (- a * b)) as [[-> _] | [[-> _] | [-> _]]].
  - apply Hfin.
  - exact I.
  - change (fexp NegInf) with (Finite 0). apply one_minus_at_most_one. lra.
Qed.

(** Line 73: each factor of the cumulative product is at least the
    binary64 value of [1e-10]. *)
Lemma factor_at_least_eps (a : fval) :
  at_most_one a -> at_least_eps (factor_of a).
Proof.
  pose proof eps64_pos as He. pose proof (pow2_pos 1024) as Hp.
  unfold factor_of. rewrite feps_value.
  destruct a as [r | | |]; try contradiction; [| intros _; exact I].
  intros Hr. change (fsub (Finite 1) (Finite r)) with (of_real (1 + - r)).
  assert (Hb : 0 <= round64 (1 + - r))
    by (apply round64_nonneg; simpl in Hr; lra).
  destruct (of_real_cases (1 + - r)) as [[-> _] | [[-> _] | [_ Hn]]];
    [| exact I | lra].
  change (fadd (Finite (round64 (1 + - r))) (Finite (round64 1e-10)))
    with (of_real (round64 (1 + - r) + round64 1e-10)).
  assert (Hge : round64 1e-10 <= round64 (round64 (1 + - r) + round64 1e-10)).
  { apply round64_ge; [exact He | apply eps64_exact | lra]. }
  destruct (of_real_cases (round64 (1 + - r) + round64 1e-10))
    as [[-> _] | [[-> _] | [_ Hn]]];
    [unfold at_least_eps; exact Hge | exact I | lra].
Qed.

(** A fully absorbing sample contributes the factor [1e-10], not 0. *)
Lemma factor_of_one : factor_of (Finite 1) = feps.
Proof.
  unfold factor_of, fsub, fneg, fadd at 2.
  replace (1 + - (1)) with 0 by lra. rewrite of_real_0, feps_value.
  unfold fadd. rewrite Rplus_0_l.
  pose proof eps64_pos. pose proof eps64_small. pose proof pow2_1024_large.
  rewrite of_real_finite; rewrite eps64_exact; [reflexivity | lra].
Qed.

Lemma exp_38_large : IZR (2 ^ 56) <= 3 * exp 38.
Proof.
  replace 38 with (INR 38 * 1) by (simpl; lra).
  rewrite exp_mult_nat.
  assert (H : 2.71 <= exp 1) by (pose proof exp_1_lower; lra).
  assert (Hpow : 2.71 ^ 38 <= exp 1 ^ 38) by (apply pow_incr; lra).
  assert (Hnum : IZR (2 ^ 56) <= 3 * 2.71 ^ 38) by (simpl; lra).
  lra.
Qed.

Lemma three_quarters_exact :
  round64 (3 * pow2 (-56)) = 3 * pow2 (-56).
Proof.
  apply (round64_exact _ (3 * 2 ^ 51)).
  rewrite (cexp_normal _ (-55)).
  - unfold pow2. simpl. lra.
  - rewrite Rabs_right by (unfold pow2; simpl; lra).
    unfold pow2. simpl. lra.
  - lia.
Qed.

Lemma below_one_rounds_to_one : round64 (1 - 3 * pow2 (-56)) = 1.
Proof.
  assert (Hc : cexp (1 - 3 * pow2 (-56)) = (-1)%Z).
  { apply cexp_normal; [| lia].
    rewrite Rabs_right by (unfold pow2; simpl; lra).
    unfold pow2. simpl. lra. }
  rewrite round64_eq by (unfold pow2; simpl; lra). rewrite Hc.
  rewrite (nearest_even_near _ (2 ^ 53)).
  - unfold pow2. simpl. lra.
  - unfold pow2. simpl. lra.
Qed.

(** Beyond an optical depth of 38 the opacity of a sample is not below 1
    but exactly 1: [exp] falls below half the spacing of the binary64
    numbers under 1. *)
Lemma alpha_saturates (p : R) :
  p <= -38 -> fsub (Finite 1) (fexp (Finite p)) = Finite 1.
Proof.
  intros Hp.
  assert (Hexp : exp p <= 3 * pow2 (-56)).
  { apply Rle_trans with (exp (-38)).
    - destruct Hp as [Hp | ->]; [left; apply exp_increasing; exact Hp | lra].
    - replace (-38) with (- (38)) by lra. rewrite exp_Ropp.
      pose proof exp_38_large as H38. pose proof (exp_pos 38) as Hpos.
      assert (H56 : pow2 (-56) = / IZR (2 ^ 56)) by (unfold pow2; simpl; lra).
      rewrite H56.
      apply Rmult_le_reg_r with (exp 38); [exact Hpos |].
      rewrite Rinv_l by lra.
      apply Rmult_le_reg_r with (IZR (2 ^ 56)); [simpl; lra |].
      replace (3 * / IZR (2 ^ 56) * exp 38 * IZR (2 ^ 56))
        with (3 * exp 38) by (field; simpl; lra).
      lra. }
  pose proof (round64_nonneg (exp p) (Rlt_le _ _ (exp_pos p))) as Hy0.
  assert (Hy1 : round64 (exp p) <= 3 * pow2 (-56)).
  { apply round64_le; [apply three_quarters_exact | | exact Hexp].
    unfold pow2. simpl. lra. }
  assert (H56 : 3 * pow2 (-56) < 1 / 2) by (unfold pow2; simpl; lra).
  pose proof pow2_1024_large as Hbig.
  unfold fexp. rewrite of_real_finite by lra.
  unfold fsub, fneg, fadd.
  assert (Hone : round64 (1 + - round64 (exp p)) = 1).
  { apply Rle_antisym.
    - apply round64_le; [apply round64_1 | lra | lra].
    - apply Rle_trans with (round64 (1 - 3 * pow2 (-56))).
      + rewrite below_one_rounds_to_one. lra.
      + apply round64_mono_pos; lra. }
  rewrite of_real_finite; rewrite Hone; [reflexivity | lra].
Qed.

(** Density 100 over a unit distance. *)
Lemma depth_100_exact : fmul (fneg (Finite 100)) (Finite 1) = Finite (-100).
Proof.
  unfold fneg, fmul. replace (- (100) * 1) with (-100) by lra.
  assert (Hr : round64 (-100) = -100).
  { apply (round64_exact _ (-100 * 2 ^ 46)).
    rewrite (cexp_normal _ 6).
    - unfold pow2. simpl. lra.
    - replace (Rabs (-100)) with 100 by (rewrite Rabs_left; lra).
      unfold pow2. simpl. lra.
    - lia. }
  pose proof pow2_1024_large as Hbig.
  assert (Hb : 128 <= pow2 1024).
  { apply Rle_trans with (pow2 7); [unfold pow2; simpl; lra |].
    apply pow2_le. lia. }
  rewrite of_real_finite; rewrite Hr; [reflexivity | lra].
Qed.

Lemma alpha_100 :
  fsub (Finite 1) (fexp (fmul (fneg (Finite 100)) (Finite 1))) = Finite 1.
Proof. rewrite depth_100_exact. apply alpha_saturates. lra. Qed.

(** Density 0 over an infinite distance. *)
Lemma alpha_zero_times_inf :
  fsub (Finite 1) (fexp (fmul (fneg (Finite 0)) PosInf)) = NaN.
Proof.
  unfold fneg, fmul, scale_inf.
  destruct (Req_EM_T (- 0) 0) as [_ | H]; [reflexivity | lra].
Qed.

End Rounding.

(** ** The kernel on well-shaped inputs, in binary64 arithmetic *)

Section Float64Kernel.

Import Float64.

Lemma fsum_upto_ext (n : nat) (f g : nat -> fval) :
  (forall j, (j < n)%nat -> f j = g j) -> fsum_upto n f = fsum_upto n g.
Proof.
  induction n as [| n IH]; intros H; simpl; [reflexivity |].
  rewrite IH by (intros j Hj; apply H; lia).
  rewrite H by lia. reflexivity.
Qed.

Lemma fprod_upto_ext (n : nat) (f g : nat -> fval) :
  (forall j, (j < n)%nat -> f j = g j) -> fprod_upto n f = fprod_upto n g.
Proof.
  induction n as [| n IH]; intros H; simpl; [reflexivity |].
  rewrite IH by (intros j Hj; apply H; lia).
  rewrite H by lia. reflexivity.
Qed.

Lemma f64_tf_expand_dims_last (t : Tensor) :
  exists u, tf_expand_dims t (-1) = Ok u /\
    shape u = shape t ++ [1%nat] /\
    forall idx x, length idx = rank t -> tget u (idx ++ [x]) = tget t idx.
Proof.
  unfold tf_expand_dims, rank.
  replace (S (length (shape t))) with (length (shape t ++ [1%nat]))
    by (rewrite length_app; simpl; lia).
  rewrite norm_axis_last. eexists. split; [reflexivity |]. simpl. split.
  - rewrite <- (app_nil_r (shape t)) at 2.
    rewrite insert_at_app by reflexivity. reflexivity.
  - intros idx x Hlen. rewrite remove_at_app by (symmetry; exact Hlen).
    rewrite app_nil_r. reflexivity.
Qed.

Lemma f64_tf_squeeze_last (t : Tensor) (X : list nat) :
  shape t = X ++ [1%nat] ->
  exists u, tf_squeeze t (-1) = Ok u /\
    shape u = X /\
    forall idx, length idx = length X -> tget u idx = tget t (idx ++ [O]).
Proof.
  intros Hs. unfold tf_squeeze, rank. rewrite Hs, norm_axis_last.
  rewrite nth_at_app by reflexivity. simpl.
  eexists. split; [reflexivity |]. simpl. split.
  - rewrite remove_at_app by reflexivity. apply app_nil_r.
  - intros idx Hlen. rewrite <- (app_nil_r idx) at 1.
    rewrite insert_at_app by (symmetry; exact Hlen). reflexivity.
Qed.

Lemma f64_tf_split_rgba (t : Tensor) (X : list nat) :
  shape t = X ++ [4%nat] ->
  exists rgb sigma_a, tf_split t [3; 1]%nat (-1) = Ok [rgb; sigma_a] /\
    shape rgb = X ++ [3%nat] /\ shape sigma_a = X ++ [1%nat] /\
    (forall idx c, length idx = length X ->
       tget rgb (idx ++ [c]) = tget t (idx ++ [c])) /\
    (forall idx c, length idx = length X ->
       tget sigma_a (idx ++ [c]) = tget t (idx ++ [(c + 3)%nat])).
Proof.
  intros Hs. unfold tf_split, rank. rewrite Hs, norm_axis_last.
  rewrite nth_at_app by reflexivity. simpl.
  do 2 eexists. split; [reflexivity |]. simpl. rewrite Hs.
  rewrite !set_at_app by reflexivity.
  split; [reflexivity |]. split; [reflexivity |].
  split; intros idx c Hlen;
    rewrite nth_at_app, set_at_app by (symmetry; exact Hlen).
  - rewrite Nat.add_0_r. reflexivity.
  - reflexivity.
Qed.

Lemma f64_tbinop_spec (f : fval -> fval -> fval) (a b : Tensor) (s : list nat) :
  broadcast_shape (shape a) (shape b) = Some s ->
  exists u, tbinop f a b = Ok u /\ shape u = s /\
    forall idx, tget u idx =
      f (tget a (bcast_index (shape a) idx)) (tget b (bcast_index (shape b) idx)).
Proof.
  intros Hb. unfold tbinop. rewrite Hb.
  eexists. split; [reflexivity |]. simpl. auto.
Qed.

Lemma f64_tf_cumprod_exclusive_last (t : Tensor) (X : list nat) (n : nat) :
  shape t = X ++ [n] ->
  exists u, tf_cumprod_exclusive t (-1) = Ok u /\
    shape u = X ++ [n] /\
    forall idx i, length idx = length X ->
      tget u (idx ++ [i]) = fprod_upto i (fun j => tget t (idx ++ [j])).
Proof.
  intros Hs. unfold tf_cumprod_exclusive, rank. rewrite Hs, norm_axis_last.
  eexists. split; [reflexivity |]. simpl. split; [reflexivity |].
  intros idx i Hlen. rewrite nth_at_app by (symmetry; exact Hlen).
  apply fprod_upto_ext. intros j _.
  rewrite set_at_app by (symmetry; exact Hlen). reflexivity.
Qed.

Lemma f64_tf_reduce_sum_last (t : Tensor) (X : list nat) (n : nat) :
  shape t = X ++ [n] ->
  exists u, tf_reduce_sum t (-1) = Ok u /\
    shape u = X /\
    forall idx, length idx = length X ->
      tget u idx = fsum_upto n (fun j => tget t (idx ++ [j])).
Proof.
  intros Hs. unfold tf_reduce_sum, rank. rewrite Hs, norm_axis_last.
  eexists. split; [reflexivity |]. simpl. split.
  - rewrite remove_at_app by reflexivity. apply app_nil_r.
  - intros idx Hlen. rewrite nth_at_app by reflexivity.
    apply fsum_upto_ext. intros j _.
    rewrite <- (app_nil_r idx) at 1.
    rewrite insert_at_app by (symmetry; exact Hlen). reflexivity.
Qed.

Lemma f64_tf_reduce_sum_last2 (t : Tensor) (X : list nat) (n m : nat) :
  shape t = X ++ [n; m] ->
  exists u, tf_reduce_sum t (-2) = Ok u /\
    shape u = X ++ [m] /\
    forall idx c, length idx = length X ->
      tget u (idx ++ [c]) = fsum_upto n (fun j => tget t (idx ++ [j; c])).
Proof.
  intros Hs. unfold tf_reduce_sum, rank. rewrite Hs, norm_axis_last2.
  eexists. split; [reflexivity |]. simpl. split.
  - rewrite remove_at_app by reflexivity. reflexivity.
  - intros idx c Hlen. rewrite nth_at_app by reflexivity.
    apply fsum_upto_ext. intros j _.
    rewrite insert_at_app by (symmetry; exact Hlen). reflexivity.
Qed.

Lemma f64_check_dim_last_ok (t : Tensor) (X : list nat) (v : nat) :
  shape t = X ++ [v] -> check_static_has_dim_equals t (-1) v = Ok tt.
Proof.
  intros Hs. unfold check_static_has_dim_equals, rank.
  rewrite Hs, norm_axis_last, nth_at_app by reflexivity.
  rewrite Nat.eqb_refl. reflexivity.
Qed.

Lemma f64_check_rank_ok (t : Tensor) (X : list nat) (x y : nat) :
  shape t = X ++ [x; y] -> check_static_has_rank_greater_than t 1 = Ok tt.
Proof.
  intros Hs. unfold check_static_has_rank_greater_than, rank.
  rewrite Hs, length_app. cbn [length].
  replace (1 <? length X + 2)%nat with true
    by (symmetry; apply Nat.ltb_lt; lia).
  reflexivity.
Qed.

Lemma f64_compare_batch_ok (t u : Tensor) (A B C : list nat) (x y x' y' : nat) :
  shape t = A ++ [x; y] -> shape u = B ++ [x'; y'] ->
  broadcast_shape A B = Some C ->
  compare_batch_dimensions t u (-3) = Ok tt.
Proof.
  intros Ht Hu Hb. unfold compare_batch_dimensions.
  rewrite Ht, Hu, !batch_shape_app2, Hb. reflexivity.
Qed.

Lemma f64_compare_dimensions_ok (t u : Tensor) (A B : list nat) (n y y' : nat) :
  shape t = A ++ [n; y] -> shape u = B ++ [n; y'] ->
  compare_dimensions t u (-2) = Ok tt.
Proof.
  intros Ht Hu. unfold compare_dimensions, rank.
  rewrite Ht, Hu, !norm_axis_last2, !nth_at_app by reflexivity.
  rewrite Nat.eqb_refl. reflexivity.
Qed.

Lemma f64_compute_radiance_spec (samples distances : Tensor)
    (A B C : list nat) (N : nat) :
  shape samples = A ++ [N; 4%nat] ->
  shape distances = B ++ [N] ->
  broadcast_shape A B = Some C ->
  exists out, compute_radiance samples distances = Ok out /\
    radiance_output samples distances A B C N out.
Proof.
  intros Hs Hd HAB.
  destruct (broadcast_shape_absorb _ _ _ HAB) as [HCA HCB].
  unfold compute_radiance.
  (* distances = tf.expand_dims(distances, -1) *)
  destruct (f64_tf_expand_dims_last distances) as (d1 & Hrun & Hd1s & Hd1v).
  run_step Hrun. clear Hrun.
  rewrite Hd, <- app_assoc in Hd1s. cbn [app] in Hd1s.
  (* the five shape checks *)
  rewrite (f64_check_dim_last_ok samples (A ++ [N]) 4)
    by (rewrite Hs, <- app_assoc; reflexivity).
  cbn [bind].
  run_step (f64_check_rank_ok _ _ _ _ Hs).
  run_step (f64_check_rank_ok _ _ _ _ Hd1s).
  run_step (f64_compare_batch_ok _ _ _ _ _ _ _ _ _ Hs Hd1s HAB).
  run_step (f64_compare_dimensions_ok _ _ _ _ _ _ _ Hs Hd1s).
  (* rgb, sigma_a = tf.split(rgba_values, [3, 1], axis=-1) *)
  destruct (f64_tf_split_rgba samples (A ++ [N]))
    as (rgb & sigma_a & Hrun & Hrgbs & Hsigs & Hrgbv & Hsigv).
  { rewrite Hs, <- app_assoc. reflexivity. }
  run_step Hrun. clear Hrun. cbn [unpack2 bind fst snd].
  (* -sigma_a * distances *)
  destruct (f64_tbinop_spec fmul (tf_negative sigma_a) d1 ((C ++ [N]) ++ [1%nat]))
    as (prod & Hrun & Hprods & Hprodv).
  { cbn [tf_negative tmap shape]. rewrite Hsigs, Hd1s.
    change (B ++ [N; 1%nat]) with (B ++ [N] ++ [1%nat]). rewrite app_assoc.
    rewrite !broadcast_shape_app, !broadcast_dim_refl, HAB. reflexivity. }
  unfold tf_multiply at 1. run_step Hrun. clear Hrun.
  (* alpha = 1. - tf.exp(...) *)
  destruct (f64_tbinop_spec fsub (scalar (Finite 1)) (tf_exp prod) ((C ++ [N]) ++ [1%nat]))
    as (alpha0 & Hrun & Ha0s & Ha0v).
  { cbn [tf_exp tmap scalar shape]. rewrite Hprods. apply broadcast_shape_nil_l. }
  unfold tf_subtract at 1. run_step Hrun. clear Hrun.
  (* alpha = tf.squeeze(alpha, -1) *)
  destruct (f64_tf_squeeze_last alpha0 (C ++ [N]) Ha0s)
    as (alpha & Hrun & Has & Hav).
  run_step Hrun. clear Hrun.
  (* 1. - alpha + 1e-10 *)
  destruct (f64_tbinop_spec fsub (scalar (Finite 1)) alpha (C ++ [N]))
    as (oma & Hrun & Homas & Homav).
  { cbn [scalar shape]. rewrite Has. apply broadcast_shape_nil_l. }
  unfold tf_subtract at 1. run_step Hrun. clear Hrun.
  destruct (f64_tbinop_spec fadd oma (scalar feps) (C ++ [N]))
    as (factors & Hrun & Hfs & Hfv).
  { cbn [scalar shape]. rewrite Homas. apply broadcast_shape_nil_r. }
  unfold tf_add at 1. run_step Hrun. clear Hrun.
  (* tf.math.cumprod(..., -1, exclusive=True) *)
  destruct (f64_tf_cumprod_exclusive_last factors C N Hfs)
    as (trans & Hrun & Hts & Htv).
  run_step Hrun. clear Hrun.
  (* weights = alpha * ... *)
  destruct (f64_tbinop_spec fmul alpha trans (C ++ [N]))
    as (weights & Hrun & Hws & Hwv).
  { rewrite Has, Hts. apply broadcast_shape_refl. }
  unfold tf_multiply at 1. run_step Hrun. clear Hrun.
  (* tf.expand_dims(weights, -1) * rgb *)
  destruct (f64_tf_expand_dims_last weights) as (we & Hrun & Hwes & Hwev).
  run_step Hrun. clear Hrun. rewrite Hws in Hwes.
  destruct (f64_tbinop_spec fmul we rgb ((C ++ [N]) ++ [3%nat]))
    as (weighted & Hrun & Hwds & Hwdv).
  { rewrite Hwes, Hrgbs, !broadcast_shape_app, broadcast_dim_refl, HCA.
    reflexivity. }
  unfold tf_multiply at 1. run_step Hrun. clear Hrun.
  (* rgb_map = tf.reduce_sum(..., -2) *)
  destruct (f64_tf_reduce_sum_last2 weighted C N 3)
    as (rgb_map & Hrun & Hrms & Hrmv).
  { rewrite Hwds, <- app_assoc. reflexivity. }
  run_step Hrun. clear Hrun.
  (* acc_map = tf.reduce_sum(weights, -1) *)
  destruct (f64_tf_reduce_sum_last weights C N Hws)
    as (acc_map & Hrun & Hams & Hamv).
  run_step Hrun. clear Hrun.
  destruct (f64_tf_expand_dims_last acc_map) as (acc_e & Hrun & Haes & Haev).
  run_step Hrun. clear Hrun. rewrite Hams in Haes.
  eexists. split; [reflexivity |].
  (* values *)
  assert (Halpha : forall c i, valid_index C c -> (i < N)%nat ->
            tget alpha (c ++ [i]) = ray_alpha samples distances A B c i).
  { intros c i Hc Hi.
    destruct (bcast_index_operand _ _ _ _ HAB Hc) as [HcA HcB].
    apply valid_index_length in HcA, HcB.
    pose proof (valid_index_length _ _ Hc) as HcC.
    rewrite Hav by (rewrite !length_app; simpl; lia).
    rewrite Ha0v. cbn [scalar tf_exp tmap tget shape].
    rewrite Hprods, bcast_index_valid.
    2:{ repeat apply valid_index_app; try assumption;
        repeat constructor; assumption. }
    rewrite Hprodv. cbn [tf_negative tmap tget shape].
    rewrite Hsigs, Hd1s.
    change (B ++ [N; 1%nat]) with (B ++ [N] ++ [1%nat]). rewrite (app_assoc B).
    rewrite !(bcast_index_app_lt _ _ 1 0) by lia.
    rewrite !(bcast_index_app_lt _ _ N i) by assumption.
    rewrite Hsigv by (rewrite !length_app; simpl; lia).
    rewrite Hd1v by (unfold rank; rewrite Hd, !length_app; simpl; lia).
    unfold ray_alpha, alpha_of, ray_sigma, ray_channel, ray_dist.
    rewrite <- app_assoc. reflexivity. }
  assert (Hweight : forall c i, valid_index C c -> (i < N)%nat ->
            tget weights (c ++ [i]) =
            weight_of (ray_alpha samples distances A B c) i).
  { intros c i Hc Hi.
    pose proof (valid_index_length _ _ Hc) as HcC.
    rewrite Hwv, Has, Hts, bcast_index_valid.
    2:{ apply valid_index_app; [assumption | repeat constructor; assumption]. }
    rewrite Halpha, Htv by assumption.
    unfold weight_of, transmittance_of. f_equal.
    apply fprod_upto_ext. intros j Hj.
    rewrite Hfv, Homas. cbn [scalar tget shape].
    rewrite bcast_index_valid.
    2:{ apply valid_index_app; [assumption | repeat constructor; lia]. }
    rewrite Homav, Has. cbn [scalar tget shape].
    rewrite bcast_index_valid.
    2:{ apply valid_index_app; [assumption | repeat constructor; lia]. }
    rewrite Halpha by (assumption || lia). reflexivity. }
  cbv beta iota delta [radiance_output].
  split; [exact Hrms |]. split; [exact Haes |]. split; [exact Hws |].
  split; [exact Hweight |]. split.
  - intros c Hc. pose proof (valid_index_length _ _ Hc) as HcC.
    rewrite Haev by (unfold rank; rewrite Hams; assumption).
    rewrite Hamv by assumption. unfold opacity_of.
    apply fsum_upto_ext. intros j Hj. apply Hweight; assumption.
  - intros c ch Hc Hch. pose proof (valid_index_length _ _ Hc) as HcC.
    destruct (bcast_index_operand _ _ _ _ HAB Hc) as [HcA _].
    apply valid_index_length in HcA.
    rewrite Hrmv by assumption. unfold color_of.
    apply fsum_upto_ext. intros j Hj.
    rewrite Hwdv, Hwes, Hrgbs.
    change (c ++ [j; ch]) with (c ++ [j] ++ [ch]). rewrite (app_assoc c).
    rewrite (bcast_index_app (C ++ [N]) (c ++ [j]) 1 ch). cbn [Nat.eqb].
    rewrite (bcast_index_valid (C ++ [N])).
    2:{ apply valid_index_app; [assumption | repeat constructor; assumption]. }
    rewrite Hwev by (unfold rank; rewrite Hws, !length_app; simpl; lia).
    rewrite Hweight by assumption.
    rewrite (bcast_index_app_lt _ _ 3 ch) by assumption.
    rewrite (bcast_index_app_lt _ _ N j) by assumption.
    rewrite Hrgbv by (rewrite !length_app; simpl; lia).
    unfold ray_channel. rewrite <- app_assoc. reflexivity.
Qed.

(** A call without batch axes: one ray. *)
Lemma f64_compute_radiance_single_ray (samples distances : Tensor) (N : nat) :
  shape samples = [N; 4%nat] -> shape distances = [N] ->
  exists color opacity weights,
    compute_radiance samples distances = Ok (color, opacity, weights) /\
    shape color = [3%nat] /\ shape opacity = [1%nat] /\
    shape weights = [N] /\
    let alpha := alpha_of (fun i => tget samples [i; 3%nat])
                          (fun i => tget distances [i]) in
    (forall i, (i < N)%nat -> tget weights [i] = weight_of alpha i) /\
    tget opacity [O] = opacity_of alpha N /\
    (forall ch, (ch < 3)%nat ->
       tget color [ch] =
       color_of alpha (fun i => tget samples [i; ch]) N).
Proof.
  intros Hs Hd.
  destruct (f64_compute_radiance_spec samples distances [] [] [] N Hs Hd
              eq_refl)
    as ([[color opacity] weights] & Hrun & Hcs & Hos & Hws & Hw & Ho & Hc).
  exists color, opacity, weights.
  split; [exact Hrun |]. split; [exact Hcs |]. split; [exact Hos |].
  split; [exact Hws |]. cbv zeta. split; [| split].
  - intros i Hi. apply (Hw [] i); [constructor | exact Hi].
  - apply (Ho []). constructor.
  - intros ch Hch. apply (Hc [] ch); [constructor | exact Hch].
Qed.

(** Every call on float64 tensors either is well shaped and returns the
    compositing result, or is rejected with a ShapeError. *)
Lemma f64_compute_radiance_cases (samples distances : Tensor) :
  (exists A B C N,
     well_shaped (shape samples) (shape distances) A B C N /\
     exists out, compute_radiance samples distances = Ok out /\
       radiance_output samples distances A B C N out) \/
  ((forall A B C N,
      ~ well_shaped (shape samples) (shape distances) A B C N) /\
   compute_radiance samples distances = Err ShapeError).
Proof.
  destruct (f64_tf_expand_dims_last distances) as (d1 & Hrun & Hd1s & _).
  destruct (shape_cases (shape samples))
    as [Hs | [[c Hs] | (A & n & c & Hs)]].
  - right. split.
    + intros A B C N (H & _). rewrite Hs in H.
      destruct A; discriminate.
    + unfold compute_radiance. run_step Hrun.
      unfold check_static_has_dim_equals, rank. rewrite Hs. reflexivity.
  - right. split.
    + intros A B C N (H & _). rewrite Hs in H.
      destruct A as [| a [| a' A]]; discriminate.
    + unfold compute_radiance. run_step Hrun.
      unfold check_static_has_dim_equals, check_static_has_rank_greater_than,
        rank.
      rewrite Hs. cbn [length nth]. change (norm_axis 1 (-1)) with (Some O).
      cbv iota beta. destruct (c =? 4)%nat; reflexivity.
  - destruct (Nat.eqb_spec c 4) as [-> | Hc].
    2:{ right. split.
        - intros A' B C N (H & _). rewrite Hs in H.
          apply app2_inj in H. destruct H as (_ & _ & H). contradiction.
        - unfold compute_radiance. run_step Hrun.
          unfold check_static_has_dim_equals, rank. rewrite Hs.
          change (A ++ [n; c]) with (A ++ [n] ++ [c]). rewrite app_assoc.
          rewrite norm_axis_last, nth_at_app by reflexivity.
          destruct (Nat.eqb_spec c 4); [contradiction | reflexivity]. }
    assert (Hc1 : check_static_has_dim_equals samples (-1) 4 = Ok tt).
    { apply (f64_check_dim_last_ok samples (A ++ [n])).
      rewrite Hs, <- app_assoc. reflexivity. }
    pose proof (f64_check_rank_ok _ _ _ _ Hs) as Hc2.
    destruct (shape_cases1 (shape distances)) as [Hd | (B & m & Hd)].
    { right. split.
      - intros A' B C N (_ & H & _). rewrite Hd in H.
        destruct B; discriminate.
      - unfold compute_radiance. run_step Hrun. run_step Hc1. run_step Hc2.
        unfold check_static_has_rank_greater_than, rank.
        rewrite Hd1s, Hd. reflexivity. }
    rewrite Hd, <- app_assoc in Hd1s. cbn [app] in Hd1s.
    pose proof (f64_check_rank_ok _ _ _ _ Hd1s) as Hc3.
    destruct (broadcast_shape A B) as [C |] eqn:HAB.
    2:{ right. split.
        - intros A' B' C N (H1 & H2 & H3). rewrite Hs in H1. rewrite Hd in H2.
          apply app2_inj in H1. destruct H1 as (<- & _ & _).
          apply app_inj_tail in H2. destruct H2 as (<- & _). congruence.
        - unfold compute_radiance. run_step Hrun.
          run_step Hc1. run_step Hc2. run_step Hc3.
          unfold compare_batch_dimensions.
          rewrite Hs, Hd1s, !batch_shape_app2, HAB. reflexivity. }
    pose proof (f64_compare_batch_ok _ _ _ _ _ _ _ _ _ Hs Hd1s HAB) as Hc4.
    destruct (Nat.eqb_spec n m) as [<- | Hnm].
    2:{ right. split.
        - intros A' B' C' N (H1 & H2 & _). rewrite Hs in H1. rewrite Hd in H2.
          apply app2_inj in H1. destruct H1 as (_ & <- & _).
          apply app_inj_tail in H2. destruct H2 as (_ & <-). contradiction.
        - unfold compute_radiance. run_step Hrun.
          run_step Hc1. run_step Hc2. run_step Hc3. run_step Hc4.
          unfold compare_dimensions, rank.
          rewrite Hs, Hd1s, !norm_axis_last2, !nth_at_app by reflexivity.
          destruct (Nat.eqb_spec n m); [contradiction | reflexivity]. }
    left. exists A, B, C, n. split; [repeat split; assumption |].
    apply f64_compute_radiance_spec; assumption.
Qed.

(** *** Rays of zero density *)

Lemma zero_density_alpha (sigma dist : nat -> fval) (i : nat) :
  sigma i = Finite 0 -> is_finite (dist i) ->
  alpha_of sigma dist i = Finite 0.
Proof.
  intros Hs Hd. unfold alpha_of. rewrite Hs.
  destruct (dist i) as [d | | |]; try contradiction.
  unfold fneg, fmul. replace (- 0 * d) with 0 by ring. rewrite of_real_0.
  unfold fexp. rewrite exp_0, of_real_1.
  unfold fsub, fneg, fadd. replace (1 + - (1)) with 0 by ring.
  exact of_real_0.
Qed.

Lemma fmul_0_l (v : fval) : is_finite v -> fmul (Finite 0) v = Finite 0.
Proof.
  destruct v as [r | | |]; try contradiction. intros _.
  unfold fmul. rewrite Rmult_0_l. exact of_real_0.
Qed.

Lemma fsum_upto_zero (n : nat) (f : nat -> fval) :
  (forall j, (j < n)%nat -> f j = Finite 0) -> fsum_upto n f = Finite 0.
Proof.
  induction n as [| n IH]; intros H; [reflexivity |].
  cbn [fsum_upto]. rewrite IH by (intros j Hj; apply H; lia).
  rewrite H by lia. unfold fadd. rewrite Rplus_0_l. exact of_real_0.
Qed.

(** The numbers [1 + k / 2 ^ 31] below 2 are binary64 numbers. *)
Lemma round64_one_plus (k : Z) :
  (0 <= k < 2 ^ 31)%Z ->
  round64 (1 + IZR k * pow2 (-31)) = 1 + IZR k * pow2 (-31).
Proof.
  intros [Hk0 Hk1].
  assert (H31 : pow2 (-31) = / IZR (2 ^ 31)) by (unfold pow2; simpl; lra).
  assert (Hk : 0 <= IZR k * pow2 (-31) < 1).
  { apply IZR_le in Hk0. apply IZR_lt in Hk1. rewrite H31.
    assert (Hp : 0 < IZR (2 ^ 31)) by (simpl; lra).
    split.
    - apply Rmult_le_pos; [exact Hk0 | left; apply Rinv_0_lt_compat, Hp].
    - apply Rmult_lt_reg_r with (IZR (2 ^ 31)); [exact Hp |].
      rewrite Rmult_assoc, Rinv_l by lra. lra. }
  apply (round64_exact _ (2 ^ 52 + k * 2 ^ 21)).
  rewrite (cexp_normal _ 0).
  - assert (H52 : pow2 (52 - 0) = IZR (2 ^ 52)) by (unfold pow2; simpl; lra).
    assert (H21 : pow2 (-31) * IZR (2 ^ 52) = IZR (2 ^ 21))
      by (unfold pow2; simpl; lra).
    rewrite H52, plus_IZR, mult_IZR.
    replace ((1 + IZR k * pow2 (-31)) * IZR (2 ^ 52))
      with (IZR (2 ^ 52) + IZR k * (pow2 (-31) * IZR (2 ^ 52))) by ring.
    rewrite H21. reflexivity.
  - rewrite Rabs_right by lra.
    assert (H1 : pow2 (0 + 1) = 2) by (unfold pow2; simpl; lra).
    rewrite H1, pow2_0. lra.
  - lia.
Qed.

(** The factor of a transparent sample is a little above 1 ... *)
Lemma factor_of_zero :
  exists f, factor_of (Finite 0) = Finite f /\ 0 <= f <= 1 + pow2 (-33).
Proof.
  pose proof eps64_pos as He. pose proof eps64_bounds as [_ He1].
  pose proof pow2_1024_large as Hbig.
  assert (H33 : pow2 (-33) = / 4 * pow2 (-31)) by (unfold pow2; simpl; lra).
  assert (H31 : 0 < pow2 (-31) < 1) by (unfold pow2; simpl; lra).
  unfold factor_of, fsub, fneg, fadd at 2.
  replace (1 + - 0) with 1 by ring. rewrite of_real_1, feps_value.
  unfold fadd.
  assert (Hr : round64 (1 + round64 1e-10) <= 1 + pow2 (-33)).
  { apply round64_le; [| lra | lra].
    apply (round64_exact _ (2 ^ 52 + 2 ^ 19)).
    rewrite (cexp_normal _ 0).
    - unfold pow2. simpl. lra.
    - rewrite Rabs_right by lra.
      assert (H1 : pow2 (0 + 1) = 2) by (unfold pow2; simpl; lra).
      rewrite H1, pow2_0. lra.
    - lia. }
  assert (Hr0 : 0 <= round64 (1 + round64 1e-10))
    by (apply round64_nonneg; lra).
  exists (round64 (1 + round64 1e-10)). split; [| lra].
  apply of_real_finite. lra.
Qed.

(** ... and the product of up to [2 ^ 31] such factors stays below 2. *)
Lemma clear_product_bound (f : R) (k : nat) :
  0 <= f <= 1 + pow2 (-33) ->
  (Z.of_nat k < 2 ^ 31)%Z ->
  exists t, fprod_upto k (fun _ => Finite f) = Finite t /\
            0 <= t <= 1 + IZR (Z.of_nat k) * pow2 (-31).
Proof.
  intros Hf. induction k as [| k IH]; intros Hk.
  - exists 1. split; [reflexivity |]. simpl. lra.
  - destruct IH as (t & Ht & Ht0 & Ht1); [lia |].
    assert (H33 : pow2 (-33) = / 4 * pow2 (-31)) by (unfold pow2; simpl; lra).
    assert (H31 : pow2 (-31) = / IZR (2 ^ 31)) by (unfold pow2; simpl; lra).
    assert (Hp : 0 < pow2 (-31)) by apply pow2_pos.
    assert (Hk1 : IZR (Z.of_nat k) * pow2 (-31) < 1).
    { assert (Hlt : IZR (Z.of_nat k) < IZR (2 ^ 31)) by (apply IZR_lt; lia).
      rewrite H31.
      apply Rmult_lt_reg_r with (IZR (2 ^ 31)); [simpl; lra |].
      rewrite Rmult_assoc, Rinv_l by (simpl; lra). lra. }
    assert (Hk0 : 0 <= IZR (Z.of_nat k)) by (apply IZR_le; lia).
    assert (HS : IZR (Z.of_nat (S k)) = IZR (Z.of_nat k) + 1)
      by (rewrite Nat2Z.inj_succ, succ_IZR; reflexivity).
    assert (Hup : t * f <= 1 + IZR (Z.of_nat (S k)) * pow2 (-31)).
    { rewrite HS.
      apply Rle_trans with
        ((1 + IZR (Z.of_nat k) * pow2 (-31)) * (1 + pow2 (-33))).
      - apply Rmult_le_compat; lra.
      - assert (0 <= IZR (Z.of_nat k) * pow2 (-31))
          by (apply Rmult_le_pos; lra).
        nra. }
    assert (Hr : round64 (t * f) <= 1 + IZR (Z.of_nat (S k)) * pow2 (-31)).
    { apply round64_le; [apply round64_one_plus; lia | | exact Hup].
      rewrite HS. nra. }
    assert (Hr0 : 0 <= round64 (t * f))
      by (apply round64_nonneg, Rmult_le_pos; lra).
    assert (Hlt2 : IZR (Z.of_nat (S k)) * pow2 (-31) < 1).
    { assert (Hlt : IZR (Z.of_nat (S k)) < IZR (2 ^ 31)) by (apply IZR_lt; lia).
      rewrite H31.
      apply Rmult_lt_reg_r with (IZR (2 ^ 31)); [simpl; lra |].
      rewrite Rmult_assoc, Rinv_l by (simpl; lra). lra. }
    pose proof pow2_1024_large as Hbig.
    exists (round64 (t * f)). split; [| lra].
    cbn [fprod_upto]. rewrite Ht. unfold fmul. apply of_real_finite. lra.
Qed.

(** Zero density in binary64: for finite distances and colours, and rays
    of at most [2 ^ 31] samples, every output entry is 0. *)
Lemma f64_zero_density_all_zero
    (samples distances : Tensor) (A B C : list nat) (N : nat) :
  shape samples = A ++ [N; 4%nat] ->
  shape distances = B ++ [N] ->
  broadcast_shape A B = Some C ->
  (Z.of_nat N <= 2 ^ 31)%Z ->
  zero_density samples A N ->
  finite_distances distances B N ->
  finite_colors samples A N ->
  exists color opacity weights,
    compute_radiance samples distances = Ok (color, opacity, weights) /\
    shape color = C ++ [3%nat] /\ shape opacity = C ++ [1%nat] /\
    shape weights = C ++ [N] /\
    all_zero weights /\ all_zero opacity /\ all_zero color.
Proof.
  intros Hs Hd HAB HN Hz Hfd Hfc.
  destruct (f64_compute_radiance_spec samples distances A B C N Hs Hd HAB)
    as ([[color opacity] weights] & Hrun & Hcs & Hos & Hws & Hw & Ho & Hc).
  exists color, opacity, weights.
  repeat (split; [assumption |]).
  assert (Haz : forall c i, valid_index C c -> (i < N)%nat ->
            ray_alpha samples distances A B c i = Finite 0).
  { intros c i Hc' Hi.
    destruct (bcast_index_operand _ _ _ _ HAB Hc') as [HcA HcB].
    unfold ray_alpha. apply zero_density_alpha.
    - unfold ray_sigma, ray_channel. apply Hz; assumption.
    - unfold ray_dist. apply Hfd; assumption. }
  assert (Hwz : forall c i, valid_index C c -> (i < N)%nat ->
            weight_of (ray_alpha samples distances A B c) i = Finite 0).
  { intros c i Hc' Hi. unfold weight_of. rewrite Haz by assumption.
    apply fmul_0_l. unfold transmittance_of.
    destruct factor_of_zero as (f & Hf & Hfb).
    rewrite (fprod_upto_ext i _ (fun _ => Finite f)).
    - destruct (clear_product_bound f i Hfb) as (t & -> & _); [lia |].
      exact I.
    - intros j Hj. rewrite Haz by (assumption || lia). exact Hf. }
  unfold all_zero. split; [| split].
  - intros idx Hidx. rewrite Hws in Hidx.
    apply valid_index_app_inv in Hidx. destruct Hidx as (c & i & -> & Hc' & Hi).
    rewrite Hw by assumption. apply Hwz; assumption.
  - intros idx Hidx. rewrite Hos in Hidx.
    apply valid_index_app_inv in Hidx. destruct Hidx as (c & i & -> & Hc' & Hi).
    replace i with O by lia. rewrite Ho by assumption.
    unfold opacity_of. apply fsum_upto_zero. intros j Hj. apply Hwz; assumption.
  - intros idx Hidx. rewrite Hcs in Hidx.
    apply valid_index_app_inv in Hidx. destruct Hidx as (c & ch & -> & Hc' & Hch).
    rewrite Hc by assumption.
    destruct (bcast_index_operand _ _ _ _ HAB Hc') as [HcA _].
    unfold color_of. apply fsum_upto_zero. intros j Hj.
    rewrite Hwz by assumption. apply fmul_0_l.
    unfold ray_channel. apply Hfc; assumption.
Qed.

(** *** A ray of fully absorbing samples *)

Lemma opaque_ray_alpha (n j : nat) :
  alpha_of (fun i => tget (opaque_ray n) [i; 3%nat])
           (fun i => tget (unit_spacing n) [i]) j = Finite 1.
Proof.
  unfold alpha_of. cbn [opaque_ray unit_spacing tget]. apply alpha_100.
Qed.

Lemma fmul_1_1 : fmul (Finite 1) (Finite 1) = Finite 1.
Proof. unfold fmul. rewrite Rmult_1_l. exact of_real_1. Qed.

Lemma fmul_1_0 : fmul (Finite 1) (Finite 0) = Finite 0.
Proof. unfold fmul. rewrite Rmult_0_r. exact of_real_0. Qed.

Lemma fmul_1_eps : fmul (Finite 1) feps = feps.
Proof.
  rewrite feps_value. unfold fmul. rewrite Rmult_1_l.
  pose proof eps64_pos. pose proof eps64_small. pose proof pow2_1024_large.
  rewrite of_real_finite; rewrite eps64_exact; [reflexivity | lra].
Qed.

(** The product of [k] factors [1e-10] is at most [2 ^ (-33 k)] ... *)
Lemma eps_product_bound (k : nat) :
  (k <= 32)%nat ->
  exists t, fprod_upto k (fun _ => feps) = Finite t /\
            0 <= t <= pow2 (-33 * Z.of_nat k).
Proof.
  induction k as [| k IH]; intros Hk.
  - exists 1. split; [reflexivity |].
    change (-33 * Z.of_nat 0)%Z with 0%Z. rewrite pow2_0. lra.
  - destruct IH as (t & Ht & Ht0 & Ht1); [lia |].
    pose proof eps64_pos as He. pose proof eps64_bounds as [_ He1].
    pose proof pow2_1024_large as Hbig.
    assert (Hprod : 0 <= t * round64 1e-10) by (apply Rmult_le_pos; lra).
    assert (Hup : t * round64 1e-10 <= pow2 (-33 * Z.of_nat (S k))).
    { replace (-33 * Z.of_nat (S k))%Z with (-33 * Z.of_nat k + -33)%Z by lia.
      rewrite pow2_add. apply Rmult_le_compat; lra. }
    assert (Hr : round64 (t * round64 1e-10) <= pow2 (-33 * Z.of_nat (S k))).
    { apply round64_le; [apply round64_pow2_subnormal; lia | | exact Hup].
      left. apply pow2_pos. }
    assert (Hone : pow2 (-33 * Z.of_nat (S k)) <= 1).
    { rewrite <- pow2_0. apply pow2_le. lia. }
    pose proof (round64_nonneg _ Hprod) as Hr0.
    exists (round64 (t * round64 1e-10)). split; [| lra].
    cbn [fprod_upto]. rewrite Ht, feps_value. unfold fmul.
    apply of_real_finite. lra.
Qed.

(** ... and underflows to 0 at the 33rd factor. *)
Lemma eps_product_underflow : fprod_upto 33 (fun _ => feps) = Finite 0.
Proof.
  destruct (eps_product_bound 32) as (t & Ht & Ht0 & Ht1); [lia |].
  change (fprod_upto 33 (fun _ => feps))
    with (fmul (fprod_upto 32 (fun _ => feps)) feps).
  rewrite Ht, feps_value. unfold fmul.
  pose proof eps64_pos as He. pose proof eps64_bounds as [_ He1].
  assert (Hprod : 0 <= t * round64 1e-10) by (apply Rmult_le_pos; lra).
  assert (Hup : t * round64 1e-10 <= pow2 (-1076)).
  { apply Rle_trans with (pow2 (-33 * Z.of_nat 32) * pow2 (-33)).
    - apply Rmult_le_compat; lra.
    - rewrite <- pow2_add. apply pow2_le. lia. }
  pose proof pow2_1024_large as Hbig.
  rewrite of_real_finite; rewrite round64_underflow by lra;
    [reflexivity | lra].
Qed.

(** The transmittance along a ray of fully absorbing samples. *)
Lemma opaque_ray_transmittance (n i : nat) :
  transmittance_of
    (alpha_of (fun i => tget (opaque_ray n) [i; 3%nat])
              (fun i => tget (unit_spacing n) [i])) i =
  fprod_upto i (fun _ => feps).
Proof.
  unfold transmittance_of. apply fprod_upto_ext. intros j _.
  rewrite opaque_ray_alpha. apply factor_of_one.
Qed.

End Float64Kernel.

(** ** The claims *)

(** C1: for samples of shape [Bs ++ [N; 4]] and distances of shape
    [Bs ++ [N]] the call returns, and what it returns is given by the
    formulas of the specification: with [alpha_i = 1 - exp (- sigma_i *
    distance_i)] and [T_i] the exclusive prefix product of
    [1 - alpha_j + 1e-10], the weights are [alpha_i * T_i] with shape
    [Bs ++ [N]], the opacity is their sum kept with a trailing axis of size
    1, and each colour channel is the sum of [weight_i * rgb_i]. *)
Theorem compute_radiance_formula
    (samples distances : Tensor) (Bs : list nat) (N : nat) :
  shape samples = Bs ++ [N; 4%nat] ->
  shape distances = Bs ++ [N] ->
  exists color opacity weights,
    compute_radiance samples distances = Ok (color, opacity, weights) /\
    shape color = Bs ++ [3%nat] /\
    shape opacity = Bs ++ [1%nat] /\
    shape weights = Bs ++ [N] /\
    forall b, valid_index Bs b ->
      let alpha := alpha_of (fun i => tget samples (b ++ [i; 3%nat]))
                            (fun i => tget distances (b ++ [i])) in
      (forall i, (i < N)%nat -> tget weights (b ++ [i]) = weight_of alpha i) /\
      tget opacity (b ++ [O]) = opacity_of alpha N /\
      (forall ch, (ch < 3)%nat ->
         tget color (b ++ [ch]) =
         color_of alpha (fun i => tget samples (b ++ [i; ch])) N).
Proof.
  intros Hs Hd.
  destruct (compute_radiance_spec samples distances Bs Bs Bs N Hs Hd
              (broadcast_shape_refl Bs))
    as ([[color opacity] weights] & Hrun & Hcs & Hos & Hws & Hw & Ho & Hc).
  exists color, opacity, weights.
  repeat (split; [assumption |]).
  intros b Hb. cbv zeta.
  pose proof (bcast_index_valid Bs b Hb) as Hbb.
  unfold ray_alpha, ray_sigma, ray_dist, ray_channel in Hw, Ho, Hc.
  split; [| split].
  - intros i Hi. rewrite (Hw b i Hb Hi), Hbb. reflexivity.
  - rewrite (Ho b Hb), Hbb. reflexivity.
  - intros ch Hch. rewrite (Hc b ch Hb Hch), Hbb. reflexivity.
Qed.

Lemma compute_radiance_formula_witness :
  shape example_samples = [] ++ [2%nat; 4%nat] /\
  shape example_distances = [] ++ [2%nat] /\
  exists color opacity weights,
    compute_radiance example_samples example_distances =
      Ok (color, opacity, weights) /\
    shape color = [] ++ [3%nat] /\
    shape opacity = [] ++ [1%nat] /\
    shape weights = [] ++ [2%nat] /\
    forall b, valid_index [] b ->
      let alpha := alpha_of (fun i => tget example_samples (b ++ [i; 3%nat]))
                            (fun i => tget example_distances (b ++ [i])) in
      (forall i, (i < 2)%nat -> tget weights (b ++ [i]) = weight_of alpha i) /\
      tget opacity (b ++ [O]) = opacity_of alpha 2 /\
      (forall ch, (ch < 3)%nat ->
         tget color (b ++ [ch]) =
         color_of alpha (fun i => tget example_samples (b ++ [i; ch])) 2).
Proof.
  split; [reflexivity |]. split; [reflexivity |].
  apply (compute_radiance_formula example_samples example_distances [] 2);
    reflexivity.
Defined.

(** C2: whenever a shape precondition is violated (last axis of the
    samples not 4, rank of the samples not above 1, rank of the distances
    with their trailing unit axis not above 1, a batch axis neither equal
    nor 1 on one side, different sample counts) the call returns no output
    and fails with a ShapeError; the failure is that of the shape checks,
    never the [InvalidArgument] of a numeric primitive, whatever the values
    of the tensors are. *)
Theorem compute_radiance_shape_error (samples distances : Tensor) :
  shape_violation (shape samples) (shape distances) ->
  compute_radiance samples distances = Err ShapeError.
Proof.
  intros Hv.
  destruct (compute_radiance_cases samples distances)
    as [(A & B & C & N & Hw & _) | [_ Herr]].
  - exfalso. exact (well_shaped_no_violation _ _ _ _ _ _ Hw Hv).
  - exact Herr.
Qed.

Lemma compute_radiance_shape_error_witness :
  shape_violation (shape three_channel_samples) (shape some_distances) /\
  compute_radiance three_channel_samples some_distances = Err ShapeError.
Proof.
  assert (Hv : shape_violation (shape three_channel_samples)
                               (shape some_distances)).
  { apply bad_channel_axis. simpl. discriminate. }
  split; [exact Hv |].
  exact (compute_radiance_shape_error three_channel_samples some_distances Hv).
Defined.

Lemma compute_radiance_error_kind (samples distances : Tensor) (e : error) :
  compute_radiance samples distances = Err e -> e = ShapeError.
Proof.
  intros He.
  destruct (compute_radiance_cases samples distances)
    as [(A & B & C & N & _ & out & Hrun & _) | [_ Herr]]; congruence.
Qed.

Lemma compute_radiance_succeeds_iff (samples distances : Tensor) :
  (exists out, compute_radiance samples distances = Ok out) <->
  ~ shape_violation (shape samples) (shape distances).
Proof.
  destruct (compute_radiance_cases samples distances)
    as [(A & B & C & N & Hw & out & Hrun & _) | [Hn Herr]].
  - split; [intros _ | intros _; eauto].
    exact (well_shaped_no_violation _ _ _ _ _ _ Hw).
  - split.
    + intros [out Hrun]. congruence.
    + intros Hv. exfalso. apply Hv. apply not_well_shaped_violation. exact Hn.
Qed.

(** *** Zero density *)

Lemma sum_upto_zero (n : nat) (f : nat -> R) :
  (forall j, (j < n)%nat -> f j = 0) -> sum_upto n f = 0.
Proof.
  induction n as [| n IH]; intros H; simpl; [reflexivity |].
  rewrite IH by (intros j Hj; apply H; lia).
  rewrite H by lia. ring.
Qed.

Lemma weight_of_zero (alpha : nat -> R) (i : nat) :
  alpha i = 0 -> weight_of alpha i = 0.
Proof. intros H. unfold weight_of. rewrite H. ring. Qed.

Section Rays.

Variables (samples distances : Tensor) (A B C : list nat) (N : nat).
Hypothesis HAB : broadcast_shape A B = Some C.

Lemma ray_alpha_zero (c : list nat) (i : nat) :
  zero_density samples A N -> valid_index C c -> (i < N)%nat ->
  ray_alpha samples distances A B c i = 0.
Proof.
  intros Hz Hc Hi.
  destruct (bcast_index_operand _ _ _ _ HAB Hc) as [HcA _].
  unfold ray_alpha. apply alpha_of_zero_density.
  unfold ray_sigma, ray_channel. apply Hz; assumption.
Qed.


End Rays.

Lemma zero_density_all_zero
    (samples distances : Tensor) (A B C : list nat) (N : nat) :
  shape samples = A ++ [N; 4%nat] ->
  shape distances = B ++ [N] ->
  broadcast_shape A B = Some C ->
  zero_density samples A N ->
  exists color opacity weights,
    compute_radiance samples distances = Ok (color, opacity, weights) /\
    shape color = C ++ [3%nat] /\ shape opacity = C ++ [1%nat] /\
    shape weights = C ++ [N] /\
    all_zero weights /\ all_zero opacity /\ all_zero color.
Proof.
  intros Hs Hd HAB Hz.
  destruct (compute_radiance_spec samples distances A B C N Hs Hd HAB)
    as ([[color opacity] weights] & Hrun & Hcs & Hos & Hws & Hw & Ho & Hc).
  exists color, opacity, weights.
  repeat (split; [assumption |]).
  assert (Hwz : forall c i, valid_index C c -> (i < N)%nat ->
            weight_of (ray_alpha samples distances A B c) i = 0).
  { intros c i Hc' Hi. apply weight_of_zero.
    apply (ray_alpha_zero samples distances A B C N HAB); assumption. }
  unfold all_zero. split; [| split].
  - intros idx Hidx. rewrite Hws in Hidx.
    apply valid_index_app_inv in Hidx. destruct Hidx as (c & i & -> & Hc' & Hi).
    rewrite Hw by assumption. apply Hwz; assumption.
  - intros idx Hidx. rewrite Hos in Hidx.
    apply valid_index_app_inv in Hidx. destruct Hidx as (c & i & -> & Hc' & Hi).
    replace i with O by lia. rewrite Ho by assumption.
    unfold opacity_of. apply sum_upto_zero. intros j Hj. apply Hwz; assumption.
  - intros idx Hidx. rewrite Hcs in Hidx.
    apply valid_index_app_inv in Hidx. destruct Hidx as (c & ch & -> & Hc' & Hch).
    rewrite Hc by assumption.
    unfold color_of. apply sum_upto_zero. intros j Hj.
    rewrite Hwz by assumption. ring.
Qed.

(** C3, as the code has it: when every density is zero and the distances
    and colours are finite numbers, as all entries of a [Tensor] are,
    the call returns weights of shape [C ++ [N]] that are all 0, an
    opacity of shape [C ++ [1]] that is 0 and a colour of shape
    [C ++ [3]] that is the zero vector, whatever the finite distances of
    a compatible shape are. *)
Theorem zero_density_outputs
    (samples distances : Tensor) (A B C : list nat) (N : nat) :
  shape samples = A ++ [N; 4%nat] ->
  shape distances = B ++ [N] ->
  broadcast_shape A B = Some C ->
  zero_density samples A N ->
  exists color opacity weights,
    compute_radiance samples distances = Ok (color, opacity, weights) /\
    shape color = C ++ [3%nat] /\ shape opacity = C ++ [1%nat] /\
    shape weights = C ++ [N] /\
    all_zero weights /\ all_zero opacity /\ all_zero color.
Proof.
  intros Hs Hd HAB Hz.
  exact (zero_density_all_zero samples distances A B C N Hs Hd HAB Hz).
Qed.

Lemma transparent_samples_zero_density :
  zero_density transparent_samples [] 2.
Proof.
  intros a i Ha Hi. inversion Ha; subst.
  destruct i as [| [| i]]; [reflexivity | reflexivity | lia].
Qed.

Lemma zero_density_outputs_witness :
  zero_density transparent_samples [] 2 /\
  exists color opacity weights,
    compute_radiance transparent_samples far_distances =
      Ok (color, opacity, weights) /\
    shape color = [] ++ [3%nat] /\ shape opacity = [] ++ [1%nat] /\
    shape weights = [] ++ [2%nat] /\
    all_zero weights /\ all_zero opacity /\ all_zero color.
Proof.
  split; [exact transparent_samples_zero_density |].
  apply (zero_density_outputs transparent_samples far_distances [] [] [] 2).
  - reflexivity.
  - reflexivity.
  - reflexivity.
  - exact transparent_samples_zero_density.
Defined.

Lemma clear_sample_zero_density :
  Float64.zero_density Float64.clear_sample [] 1.
Proof.
  intros a i Ha Hi. inversion Ha; subst.
  destruct i as [| i]; [reflexivity | lia].
Qed.

(** C3 fails as stated, "regardless of the values in distances": on
    float64 tensors one sample of density 0 over the distance [inf] has
    the optical depth [0 * inf], which is nan, and the weight, the opacity
    and the colour that are returned are nan, not 0. *)
Lemma zero_density_outputs_counterexample :
  Float64.zero_density Float64.clear_sample [] 1 /\
  exists color opacity weights,
    Float64.compute_radiance Float64.clear_sample Float64.infinite_distance =
      Ok (color, opacity, weights) /\
    Float64.tget weights [O] = Float64.NaN /\
    Float64.tget opacity [O] = Float64.NaN /\
    Float64.tget color [O] = Float64.NaN.
Proof.
  split; [exact clear_sample_zero_density |].
  destruct (f64_compute_radiance_single_ray
              Float64.clear_sample Float64.infinite_distance 1
              eq_refl eq_refl)
    as (color & opacity & weights & Hrun & _ & _ & _ & Hw & Ho & Hc).
  exists color, opacity, weights. split; [exact Hrun |].
  cbv zeta in Hw, Ho, Hc. rewrite Ho, Hw, Hc by lia.
  unfold Float64.opacity_of, Float64.color_of, Float64.weight_of,
    Float64.transmittance_of, Float64.alpha_of.
  cbn [Float64.fsum_upto Float64.fprod_upto Float64.clear_sample
       Float64.infinite_distance Float64.tensor2 Float64.tensor1
       Float64.tget nth].
  rewrite alpha_zero_times_inf. repeat split.
Qed.

(** *** Weight and opacity bounds *)




(** C10, as the code has it on float64 tensors with finite densities and
    distances of either sign: every per-sample alpha is at most 1 (or
    [-inf], when [exp] overflows) and reaches 1 itself on a fully
    absorbing sample; every factor [1 - alpha_i + 1e-10] of the
    cumulative product is at least the binary64 value of [1e-10], which
    is positive, and is that very value for a fully absorbing sample; the
    returned weight is alpha times the product of the factors of the
    samples before it. *)
Theorem factors_bounded_below
    (samples distances : Float64.Tensor) (A B C : list nat) (N : nat) :
  Float64.shape samples = A ++ [N; 4%nat] ->
  Float64.shape distances = B ++ [N] ->
  broadcast_shape A B = Some C ->
  Float64.finite_density samples A N ->
  Float64.finite_distances distances B N ->
  0 < Float64.round64 1e-10 /\
  Float64.factor_of (Float64.Finite 1) =
    Float64.Finite (Float64.round64 1e-10) /\
  exists color opacity weights,
    Float64.compute_radiance samples distances =
      Ok (color, opacity, weights) /\
    Float64.shape weights = C ++ [N] /\
    forall c i, valid_index C c -> (i < N)%nat ->
      let alpha := Float64.ray_alpha samples distances A B c in
      Float64.at_most_one (alpha i) /\
      Float64.at_least_eps (Float64.factor_of (alpha i)) /\
      Float64.tget weights (c ++ [i]) =
        Float64.fmul (alpha i)
          (Float64.fprod_upto i (fun j => Float64.factor_of (alpha j))).
Proof.
  intros Hs Hd HAB Hsig Hdist.
  split; [exact eps64_pos |].
  split; [rewrite factor_of_one; exact feps_value |].
  destruct (f64_compute_radiance_spec samples distances A B C N Hs Hd HAB)
    as ([[color opacity] weights] & Hrun & _ & _ & Hws & Hw & _ & _).
  exists color, opacity, weights. split; [exact Hrun |].
  split; [exact Hws |].
  intros c i Hc Hi. cbv zeta.
  destruct (bcast_index_operand _ _ _ _ HAB Hc) as [HcA HcB].
  assert (Ha : Float64.at_most_one
                 (Float64.ray_alpha samples distances A B c i)).
  { unfold Float64.ray_alpha. apply alpha_at_most_one.
    - unfold Float64.ray_sigma, Float64.ray_channel. apply Hsig; assumption.
    - unfold Float64.ray_dist. apply Hdist; assumption. }
  split; [exact Ha |]. split; [apply factor_at_least_eps; exact Ha |].
  rewrite Hw by assumption. reflexivity.
Qed.

(** *** Rays on which the stabilising constant shows *)










(** The upper end of the interval is reached: on float64 tensors a single
    sample of density 100 over a unit distance has a weight and an opacity
    of exactly 1. *)
Lemma dense_sample_opacity_one :
  exists color opacity weights,
    Float64.compute_radiance (Float64.opaque_ray 1) (Float64.unit_spacing 1) =
      Ok (color, opacity, weights) /\
    Float64.tget weights [O] = Float64.Finite 1 /\
    Float64.tget opacity [O] = Float64.Finite 1.
Proof.
  destruct (f64_compute_radiance_single_ray
              (Float64.opaque_ray 1) (Float64.unit_spacing 1) 1
              eq_refl eq_refl)
    as (color & opacity & weights & Hrun & _ & _ & _ & Hw & Ho & _).
  exists color, opacity, weights. split; [exact Hrun |].
  cbv zeta in Hw, Ho. rewrite Ho, Hw by lia.
  unfold Float64.opacity_of, Float64.weight_of.
  cbn [Float64.fsum_upto].
  rewrite opaque_ray_transmittance, opaque_ray_alpha.
  cbn [Float64.fprod_upto]. rewrite fmul_1_1. split; [reflexivity |].
  unfold Float64.fadd. rewrite Rplus_0_l. exact of_real_1.
Qed.

Lemma opaque_ray_finite (n : nat) :
  Float64.finite_density (Float64.opaque_ray n) [] n.
Proof. intros a i Ha Hi. inversion Ha; subst. exact I. Qed.

Lemma unit_spacing_finite (n : nat) :
  Float64.finite_distances (Float64.unit_spacing n) [] n.
Proof. intros b i Hb Hi. exact I. Qed.

(** C10 fails as stated: on float64 tensors, along a ray of 34 samples of
    density 100 at unit distances, every alpha is exactly 1, not below
    it; the first weight is 1 and the second [1e-10], but the
    transmittance before the last sample, the product of 33 factors
    [1e-10], is exactly 0 and so is the last weight. *)
Lemma transmittance_positive_counterexample :
  Float64.finite_density (Float64.opaque_ray 34) [] 34 /\
  Float64.finite_distances (Float64.unit_spacing 34) [] 34 /\
  exists color opacity weights,
    Float64.compute_radiance (Float64.opaque_ray 34)
                             (Float64.unit_spacing 34) =
      Ok (color, opacity, weights) /\
    let alpha :=
      Float64.ray_alpha (Float64.opaque_ray 34) (Float64.unit_spacing 34)
        [] [] [] in
    (forall i, (i < 34)%nat -> alpha i = Float64.Finite 1) /\
    Float64.transmittance_of alpha 33 = Float64.Finite 0 /\
    Float64.tget weights [O] = Float64.Finite 1 /\
    Float64.tget weights [1%nat] = Float64.Finite (Float64.round64 1e-10) /\
    Float64.tget weights [33%nat] = Float64.Finite 0.
Proof.
  split; [apply opaque_ray_finite |].
  split; [apply unit_spacing_finite |].
  destruct (f64_compute_radiance_single_ray
              (Float64.opaque_ray 34) (Float64.unit_spacing 34) 34
              eq_refl eq_refl)
    as (color & opacity & weights & Hrun & _ & _ & _ & Hw & _ & _).
  exists color, opacity, weights. split; [exact Hrun |].
  cbv zeta in Hw. cbv zeta. rewrite !Hw by lia.
  unfold Float64.ray_alpha, Float64.ray_sigma, Float64.ray_channel,
    Float64.ray_dist.
  change (bcast_index [] []) with (@nil nat). cbn [app].
  unfold Float64.weight_of.
  rewrite !opaque_ray_transmittance, !opaque_ray_alpha.
  rewrite eps_product_underflow.
  cbn [Float64.fprod_upto].
  rewrite fmul_1_1, fmul_1_0, !fmul_1_eps, feps_value.
  split; [intros i _; apply opaque_ray_alpha |]. repeat split.
Qed.

Lemma factors_bounded_below_witness :
  Float64.finite_density (Float64.opaque_ray 34) [] 34 /\
  Float64.finite_distances (Float64.unit_spacing 34) [] 34 /\
  0 < Float64.round64 1e-10 /\
  Float64.factor_of (Float64.Finite 1) =
    Float64.Finite (Float64.round64 1e-10) /\
  exists color opacity weights,
    Float64.compute_radiance (Float64.opaque_ray 34)
                             (Float64.unit_spacing 34) =
      Ok (color, opacity, weights) /\
    Float64.shape weights = [] ++ [34%nat] /\
    forall c i, valid_index [] c -> (i < 34)%nat ->
      let alpha :=
        Float64.ray_alpha (Float64.opaque_ray 34) (Float64.unit_spacing 34)
          [] [] c in
      Float64.at_most_one (alpha i) /\
      Float64.at_least_eps (Float64.factor_of (alpha i)) /\
      Float64.tget weights (c ++ [i]) =
        Float64.fmul (alpha i)
          (Float64.fprod_upto i (fun j => Float64.factor_of (alpha j))).
Proof.
  split; [apply opaque_ray_finite |].
  split; [apply unit_spacing_finite |].
  apply (factors_bounded_below (Float64.opaque_ray 34)
           (Float64.unit_spacing 34) [] [] [] 34).
  - reflexivity.
  - reflexivity.
  - reflexivity.
  - apply opaque_ray_finite.
  - apply unit_spacing_finite.
Defined.

(** *** Monotonicity in one density *)






(** *** The end-to-end example *)

Lemma exp_m1_bounds :
  0.36775 < exp (- (1) * 1) < 0.3681.
Proof.
  replace (- (1) * 1) with (- 1) by lra.
  pose proof exp_m1_lower as Hlo.
  pose proof exp_1_lower as Hhi.
  assert (Hinv : exp (- 1) * exp 1 = 1).
  { rewrite <- exp_plus. replace (- 1 + 1) with 0 by lra. apply exp_0. }
  split; nra.
Qed.

(** C7: on the ray with colours [[1,0,0]], [[0,1,0]], densities [[1, 1]]
    and distances [[1, 1]] both alphas are 0.632, the weights are 0.632
    and 0.233, the opacity is 0.865 and the colour is
    [[0.632, 0.233, 0]], all to three decimal places. *)
Theorem end_to_end_example :
  exists color opacity weights,
    compute_radiance example_samples example_distances =
      Ok (color, opacity, weights) /\
    let alpha := alpha_of (fun i => tget example_samples [i; 3%nat])
                          (fun i => tget example_distances [i]) in
    Rabs (alpha O - 0.632) < 0.0005 /\
    Rabs (alpha 1%nat - 0.632) < 0.0005 /\
    Rabs (tget weights [O] - 0.632) < 0.0005 /\
    Rabs (tget weights [1%nat] - 0.233) < 0.0005 /\
    Rabs (tget opacity [O] - 0.865) < 0.0005 /\
    Rabs (tget color [O] - 0.632) < 0.0005 /\
    Rabs (tget color [1%nat] - 0.233) < 0.0005 /\
    tget color [2%nat] = 0.
Proof.
  destruct (compute_radiance_single_ray example_samples example_distances 2
              eq_refl eq_refl)
    as (color & opacity & weights & Hrun & Hw & Ho & Hc).
  exists color, opacity, weights. split; [exact Hrun |].
  cbv zeta in *.
  rewrite !Hw, Ho, !Hc by lia.
  unfold color_of, opacity_of, weight_of, transmittance_of, alpha_of.
  cbn [sum_upto prod_upto example_samples example_distances
       tensor2 tensor1 tget nth].
  pose proof exp_m1_bounds as [Hlo Hhi].
  pose proof epsilon_pos as He.
  assert (He' : epsilon < 0.000001) by (unfold epsilon; lra).
  set (q := exp (- (1) * 1)) in *.
  repeat split; try (apply Rabs_def1; nra).
  ring.
Qed.

(** *** Broadcasting one batch axis *)

Lemma broadcast_shape_app_suffix (a b Q : list nat) :
  broadcast_shape (a ++ Q) (b ++ Q) =
  option_map (fun c => c ++ Q) (broadcast_shape a b).
Proof.
  induction Q as [| x Q IH] using rev_ind.
  - rewrite !app_nil_r. destruct (broadcast_shape a b); simpl;
      [rewrite app_nil_r |]; reflexivity.
  - rewrite !app_assoc, broadcast_shape_app, broadcast_dim_refl, IH.
    destruct (broadcast_shape a b); simpl; [| reflexivity].
    rewrite <- app_assoc. reflexivity.
Qed.

Lemma bcast_index_rev_app_valid (s1 s2 i1 i2 : list nat) :
  Forall2 lt i1 s1 ->
  bcast_index_rev (s1 ++ s2) (i1 ++ i2) = i1 ++ bcast_index_rev s2 i2.
Proof.
  induction 1 as [| i d i1 s1 Hid _ IH]; simpl; [reflexivity |].
  rewrite IH. destruct (Nat.eqb_spec d 1) as [-> | _]; [| reflexivity].
  f_equal. lia.
Qed.

Lemma bcast_index_app_suffix (s Q i q : list nat) :
  valid_index Q q -> bcast_index (s ++ Q) (i ++ q) = bcast_index s i ++ q.
Proof.
  intros Hq. apply valid_index_rev in Hq. unfold bcast_index.
  rewrite !rev_app_distr, bcast_index_rev_app_valid by exact Hq.
  rewrite rev_app_distr, rev_involutive. reflexivity.
Qed.

Lemma cons_middle (P Q l : list nat) (x : nat) :
  P ++ x :: Q ++ l = (P ++ x :: Q) ++ l.
Proof. rewrite <- app_assoc. reflexivity. Qed.

Lemma cons_split (P Q : list nat) (x : nat) :
  P ++ x :: Q = (P ++ [x]) ++ Q.
Proof. rewrite <- app_assoc. reflexivity. Qed.

(** C8: distances with a batch axis of size 1 against samples with that
    axis of size 5 are accepted and the outputs have that axis of size 5,
    every one of the 5 positions reading the distances at position 0;
    distances with that axis of size 2 are rejected with a ShapeError. *)
Theorem broadcast_batch_axis
    (samples distances distances2 : Tensor) (P Q : list nat) (N : nat) :
  shape samples = P ++ 5%nat :: Q ++ [N; 4%nat] ->
  shape distances = P ++ 1%nat :: Q ++ [N] ->
  shape distances2 = P ++ 2%nat :: Q ++ [N] ->
  (exists color opacity weights,
     compute_radiance samples distances = Ok (color, opacity, weights) /\
     shape color = P ++ 5%nat :: Q ++ [3%nat] /\
     shape opacity = P ++ 5%nat :: Q ++ [1%nat] /\
     shape weights = P ++ 5%nat :: Q ++ [N] /\
     forall p b q, valid_index P p -> (b < 5)%nat -> valid_index Q q ->
       let alpha :=
         alpha_of (fun i => tget samples (p ++ b :: q ++ [i; 3%nat]))
                  (fun i => tget distances (p ++ O :: q ++ [i])) in
       (forall i, (i < N)%nat ->
          tget weights (p ++ b :: q ++ [i]) = weight_of alpha i) /\
       tget opacity (p ++ b :: q ++ [O]) = opacity_of alpha N /\
       (forall ch, (ch < 3)%nat ->
          tget color (p ++ b :: q ++ [ch]) =
          color_of alpha
            (fun i => tget samples (p ++ b :: q ++ [i; ch])) N)) /\
  compute_radiance samples distances2 = Err ShapeError.
Proof.
  intros Hs Hd Hd2. rewrite cons_middle in Hs, Hd, Hd2.
  assert (HAB : broadcast_shape (P ++ 5%nat :: Q) (P ++ 1%nat :: Q)
                = Some (P ++ 5%nat :: Q)).
  { rewrite !(cons_split P Q), broadcast_shape_app_suffix.
    rewrite broadcast_shape_app, broadcast_shape_refl. reflexivity. }
  assert (HAB2 : broadcast_shape (P ++ 5%nat :: Q) (P ++ 2%nat :: Q) = None).
  { rewrite !(cons_split P Q), broadcast_shape_app_suffix.
    rewrite broadcast_shape_app. reflexivity. }
  split.
  - destruct (compute_radiance_spec samples distances _ _ _ N Hs Hd HAB)
      as ([[color opacity] weights] & Hrun & Hcs & Hos & Hws & Hw & Ho & Hc).
    exists color, opacity, weights. split; [exact Hrun |].
    rewrite !cons_middle.
    repeat (split; [assumption |]).
    intros p b q Hp Hb Hq. cbv zeta.
    assert (Hv : valid_index (P ++ 5%nat :: Q) (p ++ b :: q)).
    { apply valid_index_app; [exact Hp |]. constructor; assumption. }
    assert (HiA : bcast_index (P ++ 5%nat :: Q) (p ++ b :: q) = p ++ b :: q)
      by (apply bcast_index_valid; exact Hv).
    assert (HiB : bcast_index (P ++ 1%nat :: Q) (p ++ b :: q) = p ++ O :: q).
    { rewrite (cons_split P Q), (cons_split p q), (cons_split p q O).
      rewrite bcast_index_app_suffix by exact Hq.
      rewrite bcast_index_app, bcast_index_valid by exact Hp. reflexivity. }
    assert (Halpha : forall j,
      ray_alpha samples distances (P ++ 5%nat :: Q) (P ++ 1%nat :: Q)
        (p ++ b :: q) j =
      alpha_of (fun i => tget samples (p ++ b :: q ++ [i; 3%nat]))
               (fun i => tget distances (p ++ O :: q ++ [i])) j).
    { intros j. unfold ray_alpha, alpha_of, ray_sigma, ray_channel, ray_dist.
      rewrite HiA, HiB, !cons_middle. reflexivity. }
    split; [| split].
    + intros i Hi. rewrite cons_middle, (Hw _ i Hv Hi).
      apply weight_ext. intros j. apply Halpha.
    + rewrite cons_middle, (Ho _ Hv).
      apply opacity_ext. intros j _. apply Halpha.
    + intros ch Hch. rewrite cons_middle, (Hc _ ch Hv Hch).
      apply color_ext; intros j; [apply Halpha |].
      unfold ray_channel. rewrite HiA, cons_middle. reflexivity.
  - destruct (compute_radiance_cases samples distances2)
      as [(A & B & C & M & (H1 & H2 & H3) & _) | [_ Herr]]; [| exact Herr].
    rewrite Hs in H1. rewrite Hd2 in H2.
    apply app2_inj in H1. destruct H1 as (<- & _ & _).
    apply app_inj_tail in H2. destruct H2 as (<- & _). congruence.
Qed.

Lemma broadcast_batch_axis_witness :
  shape five_rays = [] ++ 5%nat :: [] ++ [2%nat; 4%nat] /\
  shape shared_distances = [] ++ 1%nat :: [] ++ [2%nat] /\
  shape two_ray_distances = [] ++ 2%nat :: [] ++ [2%nat] /\
  (exists color opacity weights,
     compute_radiance five_rays shared_distances =
       Ok (color, opacity, weights) /\
     shape color = [] ++ 5%nat :: [] ++ [3%nat] /\
     shape opacity = [] ++ 5%nat :: [] ++ [1%nat] /\
     shape weights = [] ++ 5%nat :: [] ++ [2%nat] /\
     forall p b q, valid_index [] p -> (b < 5)%nat -> valid_index [] q ->
       let alpha :=
         alpha_of (fun i => tget five_rays (p ++ b :: q ++ [i; 3%nat]))
                  (fun i => tget shared_distances (p ++ O :: q ++ [i])) in
       (forall i, (i < 2)%nat ->
          tget weights (p ++ b :: q ++ [i]) = weight_of alpha i) /\
       tget opacity (p ++ b :: q ++ [O]) = opacity_of alpha 2 /\
       (forall ch, (ch < 3)%nat ->
          tget color (p ++ b :: q ++ [ch]) =
          color_of alpha
            (fun i => tget five_rays (p ++ b :: q ++ [i; ch])) 2)) /\
  compute_radiance five_rays two_ray_distances = Err ShapeError.
Proof.
  split; [reflexivity |]. split; [reflexivity |]. split; [reflexivity |].
  apply (broadcast_batch_axis five_rays shared_distances two_ray_distances
           [] [] 2); reflexivity.
Defined.

(** *** Permuting the samples of a ray *)









(** * Further properties of the kernel *)

(** ** One ray *)

Lemma sum_upto_scale (n : nat) (f : nat -> R) (k : R) :
  sum_upto n (fun i => k * f i) = k * sum_upto n f.
Proof.
  induction n as [| n IH]; simpl; [ring |]. rewrite IH. ring.
Qed.





Lemma weight_prefix (alpha alpha' : nat -> R) (i : nat) :
  (forall j, (j <= i)%nat -> alpha' j = alpha j) ->
  weight_of alpha' i = weight_of alpha i.
Proof.
  intros H. unfold weight_of. rewrite H by lia.
  rewrite (transmittance_ext alpha alpha' i) by (intros j Hj; apply H; lia).
  reflexivity.
Qed.

Lemma alpha_of_product (sigma sigma' dist dist' : nat -> R) (i : nat) :
  sigma' i * dist' i = sigma i * dist i ->
  alpha_of sigma' dist' i = alpha_of sigma dist i.
Proof.
  intros H. unfold alpha_of. f_equal. f_equal.
  replace (- sigma' i * dist' i) with (- (sigma' i * dist' i)) by ring.
  rewrite H. ring.
Qed.

Lemma alpha_of_sign (sigma dist : nat -> R) (i : nat) :
  (0 < sigma i * dist i -> 0 < alpha_of sigma dist i) /\
  (sigma i * dist i = 0 -> alpha_of sigma dist i = 0) /\
  (sigma i * dist i < 0 -> alpha_of sigma dist i < 0).
Proof.
  unfold alpha_of.
  replace (- sigma i * dist i) with (- (sigma i * dist i)) by ring.
  set (x := sigma i * dist i).
  split; [| split]; intros Hx.
  - assert (H : - x < 0) by lra.
    apply exp_increasing in H. rewrite exp_0 in H. lra.
  - rewrite Hx, Ropp_0, exp_0. ring.
  - assert (H : 0 < - x) by lra.
    apply exp_increasing in H. rewrite exp_0 in H. lra.
Qed.

Lemma exp_neg_le_inv (x : R) : 0 <= x -> exp (- x) <= / (1 + x).
Proof.
  intros Hx. rewrite exp_Ropp.
  pose proof (exp_ineq1_le x) as H.
  apply Rinv_le_contravar; lra.
Qed.

(** ** Shapes and outcomes *)

(** X1: for batch shapes [A] and [B] that broadcast to [C], of equal or of
    different rank, the call returns outputs of batch shape [C], and the
    ray composited at a batch position reads samples and distances at the
    positions broadcasting assigns to it. *)
Theorem compute_radiance_broadcast
    (samples distances : Tensor) (A B C : list nat) (N : nat) :
  shape samples = A ++ [N; 4%nat] ->
  shape distances = B ++ [N] ->
  broadcast_shape A B = Some C ->
  exists color opacity weights,
    compute_radiance samples distances = Ok (color, opacity, weights) /\
    shape color = C ++ [3%nat] /\
    shape opacity = C ++ [1%nat] /\
    shape weights = C ++ [N] /\
    forall c, valid_index C c ->
      valid_index A (bcast_index A c) /\
      valid_index B (bcast_index B c) /\
      let alpha :=
        alpha_of (fun i => tget samples (bcast_index A c ++ [i; 3%nat]))
                 (fun i => tget distances (bcast_index B c ++ [i])) in
      (forall i, (i < N)%nat -> tget weights (c ++ [i]) = weight_of alpha i) /\
      tget opacity (c ++ [O]) = opacity_of alpha N /\
      (forall ch, (ch < 3)%nat ->
         tget color (c ++ [ch]) =
         color_of alpha
           (fun i => tget samples (bcast_index A c ++ [i; ch])) N).
Proof.
  intros Hs Hd HAB.
  destruct (compute_radiance_spec samples distances A B C N Hs Hd HAB)
    as ([[color opacity] weights] & Hrun & Hcs & Hos & Hws & Hw & Ho & Hc).
  exists color, opacity, weights.
  repeat (split; [assumption |]).
  intros c Hc'.
  destruct (bcast_index_operand _ _ _ _ HAB Hc') as [HcA HcB].
  split; [exact HcA |]. split; [exact HcB |]. cbv zeta.
  split; [| split].
  - intros i Hi. exact (Hw c i Hc' Hi).
  - exact (Ho c Hc').
  - intros ch Hch. exact (Hc c ch Hc' Hch).
Qed.

Lemma compute_radiance_broadcast_witness :
  shape example_samples = [] ++ [2%nat; 4%nat] /\
  shape three_ray_distances = [3%nat] ++ [2%nat] /\
  broadcast_shape [] [3%nat] = Some [3%nat] /\
  exists color opacity weights,
    compute_radiance example_samples three_ray_distances =
      Ok (color, opacity, weights) /\
    shape color = [3%nat] ++ [3%nat] /\
    shape opacity = [3%nat] ++ [1%nat] /\
    shape weights = [3%nat] ++ [2%nat] /\
    forall c, valid_index [3%nat] c ->
      valid_index [] (bcast_index [] c) /\
      valid_index [3%nat] (bcast_index [3%nat] c) /\
      let alpha :=
        alpha_of
          (fun i => tget example_samples (bcast_index [] c ++ [i; 3%nat]))
          (fun i => tget three_ray_distances (bcast_index [3%nat] c ++ [i])) in
      (forall i, (i < 2)%nat -> tget weights (c ++ [i]) = weight_of alpha i) /\
      tget opacity (c ++ [O]) = opacity_of alpha 2 /\
      (forall ch, (ch < 3)%nat ->
         tget color (c ++ [ch]) =
         color_of alpha
           (fun i => tget example_samples (bcast_index [] c ++ [i; ch])) 2).
Proof.
  split; [reflexivity |]. split; [reflexivity |]. split; [reflexivity |].
  apply (compute_radiance_broadcast example_samples three_ray_distances
           [] [3%nat] [3%nat] 2); reflexivity.
Defined.

(** X2: on tensors that are both of dtype float64 the call returns an
    output exactly when no shape precondition is violated, and every
    failure is a ShapeError: once the five checks have passed, none of
    [split], the broadcasting products, [squeeze], [cumprod] and
    [reduce_sum] can fail on the shapes that are left. *)
Theorem compute_radiance_outcome (samples distances : Float64.Tensor) :
  ((exists out, Float64.compute_radiance samples distances = Ok out) <->
   ~ shape_violation (Float64.shape samples) (Float64.shape distances)) /\
  (forall e, Float64.compute_radiance samples distances = Err e ->
             e = ShapeError).
Proof.
  destruct (f64_compute_radiance_cases samples distances)
    as [(A & B & C & N & Hw & out & Hrun & _) | [Hn Herr]].
  - split.
    + split; [intros _ | intros _; eauto].
      exact (well_shaped_no_violation _ _ _ _ _ _ Hw).
    + intros e He. congruence.
  - split.
    + split.
      * intros [out Hrun]. congruence.
      * intros Hv. exfalso. apply Hv.
        apply not_well_shaped_violation. exact Hn.
    + intros e He. congruence.
Qed.

(** ** Degenerate rays *)

Lemma zero_alpha_all_zero
    (samples distances : Tensor) (A B C : list nat) (N : nat) :
  shape samples = A ++ [N; 4%nat] ->
  shape distances = B ++ [N] ->
  broadcast_shape A B = Some C ->
  (forall c i, valid_index C c -> (i < N)%nat ->
     ray_alpha samples distances A B c i = 0) ->
  exists color opacity weights,
    compute_radiance samples distances = Ok (color, opacity, weights) /\
    shape color = C ++ [3%nat] /\ shape opacity = C ++ [1%nat] /\
    shape weights = C ++ [N] /\
    all_zero weights /\ all_zero opacity /\ all_zero color.
Proof.
  intros Hs Hd HAB Hz.
  destruct (compute_radiance_spec samples distances A B C N Hs Hd HAB)
    as ([[color opacity] weights] & Hrun & Hcs & Hos & Hws & Hw & Ho & Hc).
  exists color, opacity, weights.
  repeat (split; [assumption |]).
  assert (Hwz : forall c i, valid_index C c -> (i < N)%nat ->
            weight_of (ray_alpha samples distances A B c) i = 0)
    by (intros c i Hc' Hi; apply weight_of_zero, Hz; assumption).
  unfold all_zero. split; [| split].
  - intros idx Hidx. rewrite Hws in Hidx.
    apply valid_index_app_inv in Hidx. destruct Hidx as (c & i & -> & Hc' & Hi).
    rewrite Hw by assumption. apply Hwz; assumption.
  - intros idx Hidx. rewrite Hos in Hidx.
    apply valid_index_app_inv in Hidx. destruct Hidx as (c & i & -> & Hc' & Hi).
    replace i with O by lia. rewrite Ho by assumption.
    unfold opacity_of. apply sum_upto_zero. intros j Hj. apply Hwz; assumption.
  - intros idx Hidx. rewrite Hcs in Hidx.
    apply valid_index_app_inv in Hidx. destruct Hidx as (c & ch & -> & Hc' & Hch).
    rewrite Hc by assumption.
    unfold color_of. apply sum_upto_zero. intros j Hj.
    rewrite Hwz by assumption. ring.
Qed.

(** X3: rays without samples are accepted: the weights are an empty tensor
    and the opacity and the colour of every ray are 0. *)
Theorem empty_ray_outputs
    (samples distances : Tensor) (A B C : list nat) :
  shape samples = A ++ [O; 4%nat] ->
  shape distances = B ++ [O] ->
  broadcast_shape A B = Some C ->
  exists color opacity weights,
    compute_radiance samples distances = Ok (color, opacity, weights) /\
    shape color = C ++ [3%nat] /\ shape opacity = C ++ [1%nat] /\
    shape weights = C ++ [O] /\
    (forall idx, ~ valid_index (shape weights) idx) /\
    all_zero opacity /\ all_zero color.
Proof.
  intros Hs Hd HAB.
  destruct (zero_alpha_all_zero samples distances A B C 0 Hs Hd HAB)
    as (color & opacity & weights & Hrun & Hcs & Hos & Hws & _ & Hoz & Hcz).
  { intros c i _ Hi. lia. }
  exists color, opacity, weights.
  repeat (split; [assumption |]).
  split; [| split; assumption].
  intros idx Hidx. rewrite Hws in Hidx.
  apply valid_index_app_inv in Hidx. destruct Hidx as (c & i & _ & _ & Hi). lia.
Qed.

Lemma empty_ray_outputs_witness :
  shape empty_samples = [] ++ [O; 4%nat] /\
  shape empty_distances = [] ++ [O] /\
  exists color opacity weights,
    compute_radiance empty_samples empty_distances =
      Ok (color, opacity, weights) /\
    shape color = [] ++ [3%nat] /\ shape opacity = [] ++ [1%nat] /\
    shape weights = [] ++ [O] /\
    (forall idx, ~ valid_index (shape weights) idx) /\
    all_zero opacity /\ all_zero color.
Proof.
  split; [reflexivity |]. split; [reflexivity |].
  apply (empty_ray_outputs empty_samples empty_distances [] [] []);
    reflexivity.
Defined.

(** X4: on rays of a single sample the stabilising constant plays no part:
    weight and opacity are both [1 - exp (- sigma * distance)], the colour
    is the sample colour scaled by it, and for a non-negative optical
    depth [sigma * distance] the opacity lies in [[0, 1]] and misses 1 by
    at most [1 / (1 + sigma * distance)]. *)
Theorem single_sample_outputs
    (samples distances : Tensor) (A B C : list nat) :
  shape samples = A ++ [1%nat; 4%nat] ->
  shape distances = B ++ [1%nat] ->
  broadcast_shape A B = Some C ->
  exists color opacity weights,
    compute_radiance samples distances = Ok (color, opacity, weights) /\
    forall c, valid_index C c ->
      let sigma := tget samples (bcast_index A c ++ [O; 3%nat]) in
      let dist := tget distances (bcast_index B c ++ [O]) in
      tget weights (c ++ [O]) = 1 - exp (- (sigma * dist)) /\
      tget opacity (c ++ [O]) = 1 - exp (- (sigma * dist)) /\
      (forall ch, (ch < 3)%nat ->
         tget color (c ++ [ch]) =
         (1 - exp (- (sigma * dist))) *
         tget samples (bcast_index A c ++ [O; ch])) /\
      (0 <= sigma * dist ->
       0 <= tget opacity (c ++ [O]) <= 1 /\
       1 - tget opacity (c ++ [O]) <= / (1 + sigma * dist)).
Proof.
  intros Hs Hd HAB.
  destruct (compute_radiance_spec samples distances A B C 1 Hs Hd HAB)
    as ([[color opacity] weights] & Hrun & _ & _ & _ & Hw & Ho & Hc).
  exists color, opacity, weights. split; [exact Hrun |].
  intros c Hc'. cbv zeta.
  rewrite (Hw c O Hc') by lia. rewrite (Ho c Hc').
  unfold opacity_of, weight_of, transmittance_of, ray_alpha, alpha_of,
    ray_sigma, ray_channel, ray_dist.
  cbn [sum_upto prod_upto].
  set (sigma := tget samples (bcast_index A c ++ [O; 3%nat])).
  set (dist := tget distances (bcast_index B c ++ [O])).
  replace (- sigma * dist) with (- (sigma * dist)) by ring.
  split; [ring |]. split; [ring |]. split.
  - intros ch Hch. rewrite (Hc c ch Hc' Hch).
    unfold color_of, weight_of, transmittance_of, ray_alpha, alpha_of,
      ray_sigma, ray_channel, ray_dist.
    cbn [sum_upto prod_upto]. fold sigma. fold dist.
    replace (- sigma * dist) with (- (sigma * dist)) by ring. ring.
  - intros Hx.
    pose proof (exp_neg_le_inv _ Hx) as Hup.
    pose proof (exp_pos (- (sigma * dist))) as Hpos.
    assert (Hle : exp (- (sigma * dist)) <= 1).
    { destruct Hx as [Hx | Hx].
      - assert (H : - (sigma * dist) < 0) by lra.
        apply exp_increasing in H. rewrite exp_0 in H. lra.
      - rewrite <- Hx, Ropp_0, exp_0. lra. }
    split; [split |]; lra.
Qed.

Lemma single_sample_outputs_witness :
  shape lone_sample = [] ++ [1%nat; 4%nat] /\
  shape lone_distance = [] ++ [1%nat] /\
  exists color opacity weights,
    compute_radiance lone_sample lone_distance =
      Ok (color, opacity, weights) /\
    forall c, valid_index [] c ->
      let sigma := tget lone_sample (bcast_index [] c ++ [O; 3%nat]) in
      let dist := tget lone_distance (bcast_index [] c ++ [O]) in
      tget weights (c ++ [O]) = 1 - exp (- (sigma * dist)) /\
      tget opacity (c ++ [O]) = 1 - exp (- (sigma * dist)) /\
      (forall ch, (ch < 3)%nat ->
         tget color (c ++ [ch]) =
         (1 - exp (- (sigma * dist))) *
         tget lone_sample (bcast_index [] c ++ [O; ch])) /\
      (0 <= sigma * dist ->
       0 <= tget opacity (c ++ [O]) <= 1 /\
       1 - tget opacity (c ++ [O]) <= / (1 + sigma * dist)).
Proof.
  split; [reflexivity |]. split; [reflexivity |].
  apply (single_sample_outputs lone_sample lone_distance [] [] []);
    reflexivity.
Defined.

(** X5: when every distance is zero, whatever the finite densities and
    colours are, the outputs have the shapes [C ++ [3]], [C ++ [1]] and
    [C ++ [N]], and all weights, the opacity and the colour are 0. *)
Theorem zero_distance_outputs
    (samples distances : Tensor) (A B C : list nat) (N : nat) :
  shape samples = A ++ [N; 4%nat] ->
  shape distances = B ++ [N] ->
  broadcast_shape A B = Some C ->
  zero_distances distances B N ->
  exists color opacity weights,
    compute_radiance samples distances = Ok (color, opacity, weights) /\
    shape color = C ++ [3%nat] /\ shape opacity = C ++ [1%nat] /\
    shape weights = C ++ [N] /\
    all_zero weights /\ all_zero opacity /\ all_zero color.
Proof.
  intros Hs Hd HAB Hz.
  apply (zero_alpha_all_zero samples distances A B C N Hs Hd HAB).
  intros c i Hc Hi.
  destruct (bcast_index_operand _ _ _ _ HAB Hc) as [_ HcB].
  unfold ray_alpha.
  apply (proj1 (proj2 (alpha_of_sign _ _ i))).
  unfold ray_dist. rewrite Hz by assumption. ring.
Qed.

Lemma no_distances_zero : zero_distances no_distances [] 2.
Proof.
  intros b i Hb Hi. inversion Hb; subst.
  destruct i as [| [| i]]; [reflexivity | reflexivity | lia].
Qed.

Lemma zero_distance_outputs_witness :
  zero_distances no_distances [] 2 /\
  exists color opacity weights,
    compute_radiance example_samples no_distances =
      Ok (color, opacity, weights) /\
    shape color = [] ++ [3%nat] /\ shape opacity = [] ++ [1%nat] /\
    shape weights = [] ++ [2%nat] /\
    all_zero weights /\ all_zero opacity /\ all_zero color.
Proof.
  split; [exact no_distances_zero |].
  apply (zero_distance_outputs example_samples no_distances [] [] [] 2).
  - reflexivity.
  - reflexivity.
  - reflexivity.
  - exact no_distances_zero.
Defined.

(** ** Opacity, transmittance and colour *)







(** ** What the outputs depend on *)

(** X8: weights and opacity depend on densities and distances only through
    the products [sigma_i * distance_i], and not on the colours: two calls
    whose rays have the same products return the same weights and the
    same opacity, and the same colour when the colours agree as well. *)
Theorem outputs_depend_on_optical_depth
    (samples samples' distances distances' : Tensor)
    (A B C : list nat) (N : nat) :
  shape samples = A ++ [N; 4%nat] ->
  shape samples' = A ++ [N; 4%nat] ->
  shape distances = B ++ [N] ->
  shape distances' = B ++ [N] ->
  broadcast_shape A B = Some C ->
  (forall c i, valid_index C c -> (i < N)%nat ->
     ray_sigma samples' A c i * ray_dist distances' B c i =
     ray_sigma samples A c i * ray_dist distances B c i) ->
  exists color opacity weights color' opacity' weights',
    compute_radiance samples distances = Ok (color, opacity, weights) /\
    compute_radiance samples' distances' = Ok (color', opacity', weights') /\
    tensor_eq weights weights' /\
    tensor_eq opacity opacity' /\
    ((forall c i ch, valid_index C c -> (i < N)%nat -> (ch < 3)%nat ->
        ray_channel samples' A c ch i = ray_channel samples A c ch i) ->
     tensor_eq color color').
Proof.
  intros Hs Hs' Hd Hd' HAB Hprod.
  destruct (compute_radiance_spec samples distances A B C N Hs Hd HAB)
    as ([[color opacity] weights] & Hrun & Hcs & Hos & Hws & Hw & Ho & Hc).
  destruct (compute_radiance_spec samples' distances' A B C N Hs' Hd' HAB)
    as ([[color' opacity'] weights'] & Hrun' & Hcs' & Hos' & Hws'
        & Hw' & Ho' & Hc').
  exists color, opacity, weights, color', opacity', weights'.
  split; [exact Hrun |]. split; [exact Hrun' |].
  assert (Halpha : forall c i, valid_index C c -> (i < N)%nat ->
            ray_alpha samples' distances' A B c i =
            ray_alpha samples distances A B c i).
  { intros c i Hc0 Hi. unfold ray_alpha. apply alpha_of_product.
    apply Hprod; assumption. }
  assert (Hwe : forall c i, valid_index C c -> (i < N)%nat ->
            weight_of (ray_alpha samples' distances' A B c) i =
            weight_of (ray_alpha samples distances A B c) i).
  { intros c i Hc0 Hi. apply weight_prefix. intros j Hj.
    apply Halpha; [assumption | lia]. }
  split; [| split].
  - split; [congruence |]. intros idx Hidx. rewrite Hws in Hidx.
    apply valid_index_app_inv in Hidx. destruct Hidx as (c & i & -> & Hc0 & Hi).
    rewrite Hw, Hw', Hwe by assumption. reflexivity.
  - split; [congruence |]. intros idx Hidx. rewrite Hos in Hidx.
    apply valid_index_app_inv in Hidx. destruct Hidx as (c & i & -> & Hc0 & Hi).
    replace i with O by lia. rewrite Ho, Ho' by assumption.
    unfold opacity_of. apply sum_upto_ext. intros j Hj.
    symmetry. apply Hwe; assumption.
  - intros Hrgb. split; [congruence |]. intros idx Hidx. rewrite Hcs in Hidx.
    apply valid_index_app_inv in Hidx.
    destruct Hidx as (c & ch & -> & Hc0 & Hch).
    rewrite Hc, Hc' by assumption.
    unfold color_of. apply sum_upto_ext. intros j Hj.
    rewrite Hwe, Hrgb by assumption. reflexivity.
Qed.

Lemma rescaled_same_products :
  forall c i, valid_index [] c -> (i < 2)%nat ->
    ray_sigma rescaled_samples [] c i * ray_dist halved_distances [] c i =
    ray_sigma example_samples [] c i * ray_dist example_distances [] c i.
Proof.
  intros c i Hc Hi. inversion Hc; subst.
  destruct i as [| [| i]]; [cbn; lra | cbn; lra | lia].
Qed.

Lemma outputs_depend_on_optical_depth_witness :
  (forall c i, valid_index [] c -> (i < 2)%nat ->
     ray_sigma rescaled_samples [] c i * ray_dist halved_distances [] c i =
     ray_sigma example_samples [] c i * ray_dist example_distances [] c i) /\
  exists color opacity weights color' opacity' weights',
    compute_radiance example_samples example_distances =
      Ok (color, opacity, weights) /\
    compute_radiance rescaled_samples halved_distances =
      Ok (color', opacity', weights') /\
    tensor_eq weights weights' /\
    tensor_eq opacity opacity' /\
    ((forall c i ch, valid_index [] c -> (i < 2)%nat -> (ch < 3)%nat ->
        ray_channel rescaled_samples [] c ch i =
        ray_channel example_samples [] c ch i) ->
     tensor_eq color color').
Proof.
  split; [exact rescaled_same_products |].
  apply (outputs_depend_on_optical_depth example_samples rescaled_samples
           example_distances halved_distances [] [] [] 2).
  - reflexivity.
  - reflexivity.
  - reflexivity.
  - reflexivity.
  - reflexivity.
  - exact rescaled_same_products.
Defined.

(** X9: the weight of sample [i] depends only on the samples [0 .. i] of
    its own ray: two calls whose rays at a batch position agree in density
    and distance up to sample [i] return the same weight for sample [i],
    whatever follows it and whatever the other rays are. *)
Theorem weight_ignores_later_samples
    (samples samples' distances distances' : Tensor)
    (A B C : list nat) (N : nat) (c : list nat) (i : nat) :
  shape samples = A ++ [N; 4%nat] ->
  shape samples' = A ++ [N; 4%nat] ->
  shape distances = B ++ [N] ->
  shape distances' = B ++ [N] ->
  broadcast_shape A B = Some C ->
  valid_index C c -> (i < N)%nat ->
  (forall j, (j <= i)%nat ->
     ray_sigma samples' A c j = ray_sigma samples A c j /\
     ray_dist distances' B c j = ray_dist distances B c j) ->
  exists color opacity weights color' opacity' weights',
    compute_radiance samples distances = Ok (color, opacity, weights) /\
    compute_radiance samples' distances' = Ok (color', opacity', weights') /\
    tget weights' (c ++ [i]) = tget weights (c ++ [i]).
Proof.
  intros Hs Hs' Hd Hd' HAB Hc Hi Hsame.
  destruct (compute_radiance_spec samples distances A B C N Hs Hd HAB)
    as ([[color opacity] weights] & Hrun & _ & _ & _ & Hw & _ & _).
  destruct (compute_radiance_spec samples' distances' A B C N Hs' Hd' HAB)
    as ([[color' opacity'] weights'] & Hrun' & _ & _ & _ & Hw' & _ & _).
  exists color, opacity, weights, color', opacity', weights'.
  split; [exact Hrun |]. split; [exact Hrun' |].
  rewrite Hw, Hw' by assumption. apply weight_prefix.
  intros j Hj. destruct (Hsame j Hj) as [H1 H2].
  unfold ray_alpha, alpha_of. rewrite H1, H2. reflexivity.
Qed.

Lemma other_tail_same_head :
  forall j, (j <= 0)%nat ->
    ray_sigma other_tail_samples [] [] j = ray_sigma example_samples [] [] j /\
    ray_dist other_tail_distances [] [] j = ray_dist example_distances [] [] j.
Proof.
  intros j Hj. replace j with O by lia. split; reflexivity.
Qed.

Lemma weight_ignores_later_samples_witness :
  valid_index [] [] /\ (0 < 2)%nat /\
  (forall j, (j <= 0)%nat ->
     ray_sigma other_tail_samples [] [] j = ray_sigma example_samples [] [] j /\
     ray_dist other_tail_distances [] [] j =
     ray_dist example_distances [] [] j) /\
  exists color opacity weights color' opacity' weights',
    compute_radiance example_samples example_distances =
      Ok (color, opacity, weights) /\
    compute_radiance other_tail_samples other_tail_distances =
      Ok (color', opacity', weights') /\
    tget weights' ([] ++ [O]) = tget weights ([] ++ [O]).
Proof.
  split; [constructor |]. split; [lia |].
  split; [exact other_tail_same_head |].
  apply (weight_ignores_later_samples example_samples other_tail_samples
           example_distances other_tail_distances [] [] [] 2 [] 0).
  - reflexivity.
  - reflexivity.
  - reflexivity.
  - reflexivity.
  - reflexivity.
  - constructor.
  - lia.
  - exact other_tail_same_head.
Defined.

(** ** Compositing a ray in two parts *)








